(** * Sommelier coordinate transforms: scale resolution, transforms, window scale negotiation

    Shallow embedding of [sommelier-transform.cc].

    - C++ [double] is IEEE 754 binary64.  It is modelled by the Standard
      Library's executable specification of binary floating point
      ([SpecFloat], precision 53, [emax] 1024, round to nearest even), so
      every rounding the program performs is the rounding performed here.
    - [int32_t], [int64_t] and [wl_fixed_t] values are integers of [Z].
      Converting a [double] that is NaN, infinite or out of range to an
      integer type is undefined behaviour in C++; such a conversion yields
      [None], and the operations thread that through the [option] monad.
    - C++ output parameters ([int32_t* x]) become returned values, and the
      mutation of [struct sl_host_surface] becomes a returned record. *)

From Stdlib Require Import ZArith Bool Lia.
From Stdlib Require Import SpecFloat.

Local Open Scope Z_scope.

(** ** The option monad used for conversions whose result may be undefined *)

Definition bind {A B : Type} (a : option A) (f : A -> option B) : option B :=
  match a with
  | Some x => f x
  | None => None
  end.

Notation "x <- a ;; b" := (bind a (fun x => b))
  (at level 61, a at next level, right associativity).

Notation "' p <- a ;; b" := (bind a (fun x => let 'p := x in b))
  (at level 61, p pattern, a at next level, right associativity).

(** ** Binary64 arithmetic *)

Module Double.

Definition prec : Z := 53.
Definition emax : Z := 1024.

Definition double : Type := spec_float.

Definition mul (x y : double) : double := SFmul prec emax x y.
Definition div (x y : double) : double := SFdiv prec emax x y.

(** [static_cast<double>(n)] for an integer [n]: the nearest double. *)
Definition of_Z (n : Z) : double := binary_normalize prec emax n 0 false.

Definition zero : double := S754_zero false.
Definition one : double := Eval vm_compute in of_Z 1.

(** [p / q] as the program would compute it from two integer literals. *)
Definition ratio (p q : Z) : double := div (of_Z p) (of_Z q).

(** [0 < x]; false on NaN. *)
Definition is_pos (x : double) : bool := SFltb zero x.

(** Integer part of [m * 2^e], rounded toward zero ([Z.shiftl] with a
    negative shift is a right shift). *)
Definition int_part (m : positive) (e : Z) : Z := Z.shiftl (Zpos m) e.

(** [trunc(x)]: round toward zero to an integral double; the sign of a
    zero result is the sign of [x]. *)
Definition trunc (x : double) : double :=
  match x with
  | S754_finite s m e =>
      if 0 <=? e then x
      else binary_normalize prec emax (cond_Zopp s (int_part m e)) 0 s
  | _ => x
  end.

(** [ceil(x)]: round toward plus infinity to an integral double. *)
Definition ceil (x : double) : double :=
  match x with
  | S754_finite s m e =>
      if 0 <=? e then x
      else
        let q := int_part m e in
        let exact := Z.shiftl q (- e) =? Zpos m in
        let c := if s then - q else if exact then q else q + 1 in
        binary_normalize prec emax c 0 s
  | _ => x
  end.

(** [round(x)]: round to the nearest integral double, halfway cases away
    from zero. *)
Definition round (x : double) : double :=
  match x with
  | S754_finite s m e =>
      if 0 <=? e then x
      else
        let q := Z.shiftl (Zpos m + Z.shiftl 1 (- e - 1)) e in
        binary_normalize prec emax (cond_Zopp s q) 0 s
  | _ => x
  end.

(** Conversion of a double to a signed integer type with the given
    bounds: truncation toward zero, undefined outside the range. *)
Definition to_int (lo hi : Z) (x : double) : option Z :=
  match x with
  | S754_zero _ => Some 0
  | S754_finite s m e =>
      let z := cond_Zopp s (int_part m e) in
      if (lo <=? z) && (z <=? hi) then Some z else None
  | _ => None
  end.

Definition INT32_MIN : Z := - 2 ^ 31.
Definition INT32_MAX : Z := 2 ^ 31 - 1.
Definition INT64_MIN : Z := - 2 ^ 63.
Definition INT64_MAX : Z := 2 ^ 63 - 1.

(** [static_cast<int32_t>(x)] and [static_cast<int64_t>(x)]. *)
Definition to_int32 : double -> option Z := to_int INT32_MIN INT32_MAX.
Definition to_int64 : double -> option Z := to_int INT64_MIN INT64_MAX.

(** [lround(x)]: [round(x)] as a [long] (64 bits on the platforms
    sommelier is built for). *)
Definition lround (x : double) : option Z := to_int64 (round x).

End Double.

Import Double.

(** The values of [int32_t]. *)
Definition int32 (n : Z) : Prop := INT32_MIN <= n <= INT32_MAX.

(** Signed 64-bit arithmetic: a result outside the type is undefined. *)
Definition checked64 (n : Z) : option Z :=
  if (INT64_MIN <=? n) && (n <=? INT64_MAX) then Some n else None.

(** ** Data model *)

(** The scale configuration carried by [struct sl_context]: [scale] is the
    uniform legacy factor, [ctx_xdg_scale_x] / [ctx_xdg_scale_y] are the
    context's [xdg_scale_x] / [xdg_scale_y] (direct-mode defaults). *)
Record sl_context : Type := mk_context {
  use_direct_scale : bool;
  scale : double;
  ctx_xdg_scale_x : double;
  ctx_xdg_scale_y : double
}.

(** The scale state carried by [struct sl_host_surface]. *)
Record sl_host_surface : Type := mk_surface {
  has_own_scale : bool;
  xdg_scale_x : double;
  xdg_scale_y : double;
  scale_round_on_x : bool;
  scale_round_on_y : bool;
  cached_logical_width : Z;
  cached_logical_height : Z
}.

(** The corners [(x1, y1)] and [(x2, y2)] of a damage rectangle
    ([int64_t] each). *)
Record rect : Type := mk_rect { rx1 : Z; ry1 : Z; rx2 : Z; ry2 : Z }.

(** ** Fixed-point wire values *)

(** Modelled from the spec: [wl_fixed_to_double] and [wl_fixed_from_double]
    come from libwayland's [wayland-util.h], which is not part of the
    sources at hand; a [wl_fixed_t] is a signed fixed-point value with 24
    integer and 8 fractional bits, decoded to a floating value by dividing
    by 256 and re-encoded by scaling by 256 and rounding to the nearest
    integer. *)
Definition wl_fixed_to_double (f : Z) : double := div (of_Z f) (of_Z 256).

Definition wl_fixed_from_double (d : double) : option Z :=
  to_int32 (round (mul d (of_Z 256))).

(** ** Scale resolution *)

(** [surface] is a pointer that may be null: [None] is [nullptr]. *)
Definition sl_transform_get_scale_factors
    (ctx : sl_context) (surface : option sl_host_surface) : double * double :=
  match surface with
  | Some s =>
      if use_direct_scale ctx && has_own_scale s
      then (xdg_scale_x s, xdg_scale_y s)
      else (ctx_xdg_scale_x ctx, ctx_xdg_scale_y ctx)
  | None => (ctx_xdg_scale_x ctx, ctx_xdg_scale_y ctx)
  end.

Definition sl_transform_direct_axis_scale
    (ctx : sl_context) (surface : option sl_host_surface) (axis : Z) : double :=
  let '(scalex, scaley) := sl_transform_get_scale_factors ctx surface in
  if axis =? 0 then scaley else scalex.

(** ** Direct-mode conversions *)

Definition sl_transform_direct_to_host_damage
    (ctx : sl_context) (surface : option sl_host_surface)
    (x y : Z) (scale_x scale_y : double) : option (Z * Z) :=
  let xwhole := trunc (div (of_Z x) scale_x) in
  let ywhole := trunc (div (of_Z y) scale_y) in
  x' <- to_int64 xwhole ;;
  y' <- to_int64 ywhole ;;
  Some (x', y').

Definition sl_transform_direct_to_guest_fixed_axis
    (ctx : sl_context) (surface : option sl_host_surface) (coord axis : Z)
    : option Z :=
  let scale := sl_transform_direct_axis_scale ctx surface axis in
  let result := mul (wl_fixed_to_double coord) scale in
  wl_fixed_from_double result.

Definition sl_transform_direct_to_guest_fixed
    (ctx : sl_context) (surface : option sl_host_surface) (x y : Z)
    : option (Z * Z) :=
  let '(scalex, scaley) := sl_transform_get_scale_factors ctx surface in
  let resultx := mul (wl_fixed_to_double x) scalex in
  let resulty := mul (wl_fixed_to_double y) scaley in
  x' <- wl_fixed_from_double resultx ;;
  y' <- wl_fixed_from_double resulty ;;
  Some (x', y').

Definition sl_transform_direct_to_host_fixed_axis
    (ctx : sl_context) (surface : option sl_host_surface) (coord axis : Z)
    : option Z :=
  let scale := sl_transform_direct_axis_scale ctx surface axis in
  let result := div (wl_fixed_to_double coord) scale in
  wl_fixed_from_double result.

Definition sl_transform_direct_to_host_fixed
    (ctx : sl_context) (surface : option sl_host_surface) (x y : Z)
    : option (Z * Z) :=
  let '(scalex, scaley) := sl_transform_get_scale_factors ctx surface in
  let resultx := div (wl_fixed_to_double x) scalex in
  let resulty := div (wl_fixed_to_double y) scaley in
  x' <- wl_fixed_from_double resultx ;;
  y' <- wl_fixed_from_double resulty ;;
  Some (x', y').

(** [(surface && surface->scale_round_on_x)] and its y counterpart. *)
Definition round_on_x (surface : option sl_host_surface) : bool :=
  match surface with Some s => scale_round_on_x s | None => false end.

Definition round_on_y (surface : option sl_host_surface) : bool :=
  match surface with Some s => scale_round_on_y s | None => false end.

(** [flag ? lround(input) : trunc(input)]: both arms are converted to
    [double], the common type of the conditional expression. *)
Definition whole (flag : bool) (input : double) : option double :=
  if flag then (n <- lround input ;; Some (of_Z n)) else Some (trunc input).

Definition sl_transform_direct_to_guest
    (ctx : sl_context) (surface : option sl_host_surface) (x y : Z)
    : option (Z * Z) :=
  let '(scalex, scaley) := sl_transform_get_scale_factors ctx surface in
  let inputx := mul scalex (of_Z x) in
  let inputy := mul scaley (of_Z y) in
  xwhole <- whole (round_on_x surface) inputx ;;
  ywhole <- whole (round_on_y surface) inputy ;;
  x' <- to_int32 xwhole ;;
  y' <- to_int32 ywhole ;;
  Some (x', y').

Definition sl_transform_direct_to_host
    (ctx : sl_context) (surface : option sl_host_surface) (x y : Z)
    : option (Z * Z) :=
  let '(scalex, scaley) := sl_transform_get_scale_factors ctx surface in
  let xwhole := trunc (div (of_Z x) scalex) in
  let ywhole := trunc (div (of_Z y) scaley) in
  x' <- to_int32 xwhole ;;
  y' <- to_int32 ywhole ;;
  Some (x', y').

(** ** Exported transforms *)

(** Returns [(do_viewport, width, height)]. *)
Definition sl_transform_viewport_scale
    (ctx : sl_context) (surface : option sl_host_surface)
    (contents_scale : double) (width height : Z) : option (bool * Z * Z) :=
  let scale := mul (scale ctx) contents_scale in
  let do_viewport := true in
  if use_direct_scale ctx then
    '(width, height) <- sl_transform_direct_to_host ctx surface width height ;;
    let width := if width <=? 0 then 1 else width in
    let height := if height <=? 0 then 1 else height in
    Some (do_viewport, width, height)
  else
    width <- to_int32 (ceil (div (of_Z width) scale)) ;;
    height <- to_int32 (ceil (div (of_Z height) scale)) ;;
    Some (do_viewport, width, height).

(** The [MIN] and [MAX] macros the file gets through its headers: the
    usual conditional expressions. *)
Definition MIN (a b : Z) : Z := if a <? b then a else b.
Definition MAX (a b : Z) : Z := if a >? b then a else b.

Section Damage.

(** [MIN_SIZE] and [MAX_SIZE] are constants of [sommelier.h]; the
    transform is stated for any values of them. *)
Variables MIN_SIZE MAX_SIZE : Z.

Definition sl_transform_damage_coord
    (ctx : sl_context) (surface : option sl_host_surface)
    (buffer_scalex buffer_scaley : double) (r : rect) : option rect :=
  if use_direct_scale ctx then
    let '(scalex, scaley) := sl_transform_get_scale_factors ctx surface in
    let scalex := mul scalex buffer_scalex in
    let scaley := mul scaley buffer_scaley in
    '(x1, y1) <- sl_transform_direct_to_host_damage ctx surface (rx1 r) (ry1 r) scalex scaley ;;
    '(x2, y2) <- sl_transform_direct_to_host_damage ctx surface (rx2 r) (ry2 r) scalex scaley ;;
    Some (mk_rect x1 y1 x2 y2)
  else
    let sx := mul buffer_scalex (scale ctx) in
    let sy := mul buffer_scaley (scale ctx) in
    x1m <- checked64 (rx1 r - 1) ;;
    x1 <- to_int64 (div (of_Z (MAX MIN_SIZE x1m)) sx) ;;
    y1m <- checked64 (ry1 r - 1) ;;
    y1 <- to_int64 (div (of_Z (MAX MIN_SIZE y1m)) sy) ;;
    x2p <- checked64 (rx2 r + 1) ;;
    x2 <- to_int64 (ceil (div (of_Z (MIN x2p MAX_SIZE)) sx)) ;;
    y2p <- checked64 (ry2 r + 1) ;;
    y2 <- to_int64 (ceil (div (of_Z (MIN y2p MAX_SIZE)) sy)) ;;
    Some (mk_rect x1 y1 x2 y2).

End Damage.

Definition sl_transform_host_to_guest
    (ctx : sl_context) (surface : option sl_host_surface) (x y : Z)
    : option (Z * Z) :=
  if use_direct_scale ctx then
    sl_transform_direct_to_guest ctx surface x y
  else
    x' <- to_int32 (mul (of_Z x) (scale ctx)) ;;
    y' <- to_int32 (mul (of_Z y) (scale ctx)) ;;
    Some (x', y').

Definition sl_transform_host_to_guest_fixed
    (ctx : sl_context) (surface : option sl_host_surface) (x y : Z)
    : option (Z * Z) :=
  if use_direct_scale ctx then
    sl_transform_direct_to_guest_fixed ctx surface x y
  else
    let dx := wl_fixed_to_double x in
    let dy := wl_fixed_to_double y in
    let dx := mul dx (scale ctx) in
    let dy := mul dy (scale ctx) in
    x' <- wl_fixed_from_double dx ;;
    y' <- wl_fixed_from_double dy ;;
    Some (x', y').

Definition sl_transform_host_to_guest_fixed_axis
    (ctx : sl_context) (surface : option sl_host_surface) (coord axis : Z)
    : option Z :=
  if use_direct_scale ctx then
    sl_transform_direct_to_guest_fixed_axis ctx surface coord axis
  else
    let dx := wl_fixed_to_double coord in
    let dx := mul dx (scale ctx) in
    wl_fixed_from_double dx.

Definition sl_transform_guest_to_host
    (ctx : sl_context) (surface : option sl_host_surface) (x y : Z)
    : option (Z * Z) :=
  if use_direct_scale ctx then
    sl_transform_direct_to_host ctx surface x y
  else
    x' <- to_int32 (div (of_Z x) (scale ctx)) ;;
    y' <- to_int32 (div (of_Z y) (scale ctx)) ;;
    Some (x', y').

Definition sl_transform_guest_to_host_fixed
    (ctx : sl_context) (surface : option sl_host_surface) (x y : Z)
    : option (Z * Z) :=
  if use_direct_scale ctx then
    sl_transform_direct_to_host_fixed ctx surface x y
  else
    let dx := wl_fixed_to_double x in
    let dy := wl_fixed_to_double y in
    let dx := div dx (scale ctx) in
    let dy := div dy (scale ctx) in
    x' <- wl_fixed_from_double dx ;;
    y' <- wl_fixed_from_double dy ;;
    Some (x', y').

Definition sl_transform_guest_to_host_fixed_axis
    (ctx : sl_context) (surface : option sl_host_surface) (coord axis : Z)
    : option Z :=
  if use_direct_scale ctx then
    sl_transform_direct_to_host_fixed_axis ctx surface coord axis
  else
    let dx := wl_fixed_to_double coord in
    let dx := div dx (scale ctx) in
    wl_fixed_from_double dx.

(** ** Window scale negotiation *)

Definition sl_transform_reset_surface_scale
    (ctx : sl_context) (surface : sl_host_surface) : sl_host_surface :=
  {| has_own_scale := false;
     xdg_scale_x := zero;
     xdg_scale_y := zero;
     scale_round_on_x := false;
     scale_round_on_y := false;
     cached_logical_width := cached_logical_width surface;
     cached_logical_height := cached_logical_height surface |}.

(** The surface after the four assignments that install an override. *)
Definition install_override
    (surface : sl_host_surface) (width_in_pixels height_in_pixels : Z)
    (logical_width logical_height : Z) : sl_host_surface :=
  {| has_own_scale := true;
     xdg_scale_x := div (of_Z width_in_pixels) (of_Z logical_width);
     xdg_scale_y := div (of_Z height_in_pixels) (of_Z logical_height);
     scale_round_on_x := scale_round_on_x surface;
     scale_round_on_y := scale_round_on_y surface;
     cached_logical_width := logical_width;
     cached_logical_height := logical_height |}.

Definition set_round_on_x (surface : sl_host_surface) : sl_host_surface :=
  {| has_own_scale := has_own_scale surface;
     xdg_scale_x := xdg_scale_x surface;
     xdg_scale_y := xdg_scale_y surface;
     scale_round_on_x := true;
     scale_round_on_y := scale_round_on_y surface;
     cached_logical_width := cached_logical_width surface;
     cached_logical_height := cached_logical_height surface |}.

Definition set_round_on_y (surface : sl_host_surface) : sl_host_surface :=
  {| has_own_scale := has_own_scale surface;
     xdg_scale_x := xdg_scale_x surface;
     xdg_scale_y := xdg_scale_y surface;
     scale_round_on_x := scale_round_on_x surface;
     scale_round_on_y := true;
     cached_logical_width := cached_logical_width surface;
     cached_logical_height := cached_logical_height surface |}.

(** Guest to host and back with one surface argument. *)
Definition full_cycle
    (ctx : sl_context) (surface : option sl_host_surface) (w h : Z)
    : option (Z * Z) :=
  '(lw, lh) <- sl_transform_guest_to_host ctx surface w h ;;
  sl_transform_host_to_guest ctx surface lw lh.

Definition sl_transform_try_window_scale
    (ctx : sl_context) (surface : sl_host_surface)
    (width_in_pixels height_in_pixels : Z) : option sl_host_surface :=
  if negb (use_direct_scale ctx) then Some surface
  else
    '(logical_width, logical_height) <-
      sl_transform_guest_to_host ctx None width_in_pixels height_in_pixels ;;
    '(reverse_width, reverse_height) <-
      sl_transform_host_to_guest ctx None logical_width logical_height ;;
    if (negb (reverse_width =? width_in_pixels)
        || negb (reverse_height =? height_in_pixels))
       && ((logical_width >? 0) && (logical_height >? 0))
    then
      let surface :=
        install_override surface width_in_pixels height_in_pixels
                         logical_width logical_height in
      '(reverse_width, reverse_height) <-
        full_cycle ctx (Some surface) width_in_pixels height_in_pixels ;;
      let surface :=
        if negb (reverse_width =? width_in_pixels)
        then set_round_on_x surface else surface in
      let surface :=
        if negb (reverse_height =? height_in_pixels)
        then set_round_on_y surface else surface in
      Some surface
    else
      Some (sl_transform_reset_surface_scale ctx surface).

Definition sl_transform_output_dimensions
    (ctx : sl_context) (width height : Z) : option (Z * Z) :=
  width' <- to_int32 (mul (of_Z width) (scale ctx)) ;;
  height' <- to_int32 (mul (of_Z height) (scale ctx)) ;;
  Some (width', height').

(** ** Specification-level definitions *)

(** [pow2 k] is the double [2^k]. *)
Definition pow2 (k : Z) : double := S754_finite false 4503599627370496 (k - 52).

(** *** Scale resolution, as the specification words it *)

Definition has_override (surface : option sl_host_surface) : bool :=
  match surface with
  | Some s => has_own_scale s
  | None => false
  end.

Definition override_factors (surface : option sl_host_surface) : double * double :=
  match surface with
  | Some s => (xdg_scale_x s, xdg_scale_y s)
  | None => (zero, zero)
  end.

Definition default_factors (ctx : sl_context) : double * double :=
  (ctx_xdg_scale_x ctx, ctx_xdg_scale_y ctx).

Definition legacy_factors (ctx : sl_context) : double * double :=
  (scale ctx, scale ctx).

(** The resolver's contract as the specification states it: the legacy
    factor in legacy mode. *)
Definition resolve_spec
    (ctx : sl_context) (surface : option sl_host_surface) : double * double :=
  if use_direct_scale ctx then
    if has_override surface then override_factors surface
    else default_factors ctx
  else legacy_factors ctx.

(** The resolver's contract with the legacy case amended: the direct-mode
    defaults whenever the override does not apply. *)
Definition resolve_amended
    (ctx : sl_context) (surface : option sl_host_surface) : double * double :=
  if use_direct_scale ctx && has_override surface
  then override_factors surface
  else default_factors ctx.

(** *** Damage rectangles, as the specification words them *)

(** One pixel outwards in each direction, in signed 64-bit arithmetic. *)
Definition outset (r : rect) : option rect :=
  x1 <- checked64 (rx1 r - 1) ;;
  y1 <- checked64 (ry1 r - 1) ;;
  x2 <- checked64 (rx2 r + 1) ;;
  y2 <- checked64 (ry2 r + 1) ;;
  Some (mk_rect x1 y1 x2 y2).

(** The rectangle cut to the box [[lo, hi]]: the top-left corner is raised
    to [lo], the bottom-right corner is lowered to [hi]. *)
Definition clamp_rect (lo hi : Z) (r : rect) : rect :=
  mk_rect (Z.max lo (rx1 r)) (Z.max lo (ry1 r))
          (Z.min (rx2 r) hi) (Z.min (ry2 r) hi).

(** Division of an integer coordinate by a scale, the quotient converted
    to [int64_t] (a conversion that discards the fraction). *)
Definition scaled_down (c : Z) (s : double) : option Z :=
  to_int64 (div (of_Z c) s).

(** The same with the quotient passed through [trunc] first. *)
Definition scaled_down_trunc (c : Z) (s : double) : option Z :=
  to_int64 (trunc (div (of_Z c) s)).

(** The same with the quotient rounded up first. *)
Definition scaled_down_ceil (c : Z) (s : double) : option Z :=
  to_int64 (ceil (div (of_Z c) s)).

(** The legacy branch in the order the code has: the rectangle is outset
    first; then the outset top-left corner is raised to [MIN_SIZE] and
    the outset bottom-right corner is lowered to [MAX_SIZE], each corner
    bounded on that one side only. *)
Definition damage_legacy_spec
    (MIN_SIZE MAX_SIZE : Z) (ctx : sl_context)
    (buffer_scalex buffer_scaley : double) (r : rect) : option rect :=
  let sx := mul (scale ctx) buffer_scalex in
  let sy := mul (scale ctx) buffer_scaley in
  r' <- outset r ;;
  let r' := clamp_rect MIN_SIZE MAX_SIZE r' in
  x1 <- scaled_down (rx1 r') sx ;;
  y1 <- scaled_down (ry1 r') sy ;;
  x2 <- scaled_down_ceil (rx2 r') sx ;;
  y2 <- scaled_down_ceil (ry2 r') sy ;;
  Some (mk_rect x1 y1 x2 y2).

(** A coordinate clamped into [[lo, hi]]. *)
Definition clamp (lo hi c : Z) : Z := Z.max lo (Z.min c hi).

(** The rectangle with every coordinate clamped into [[lo, hi]]. *)
Definition clamp_into (lo hi : Z) (r : rect) : rect :=
  mk_rect (clamp lo hi (rx1 r)) (clamp lo hi (ry1 r))
          (clamp lo hi (rx2 r)) (clamp lo hi (ry2 r)).

(** The legacy branch in the order the specification gives: the rectangle
    is first clamped into [[MIN_SIZE, MAX_SIZE]], then outset by one pixel
    in each direction, then divided by the legacy factor times the buffer
    scale, with the top-left corner truncated and the bottom-right corner
    rounded up. *)
Definition damage_legacy_claimed
    (MIN_SIZE MAX_SIZE : Z) (ctx : sl_context)
    (buffer_scalex buffer_scaley : double) (r : rect) : option rect :=
  let sx := mul (scale ctx) buffer_scalex in
  let sy := mul (scale ctx) buffer_scaley in
  r' <- outset (clamp_into MIN_SIZE MAX_SIZE r) ;;
  x1 <- scaled_down (rx1 r') sx ;;
  y1 <- scaled_down (ry1 r') sy ;;
  x2 <- scaled_down_ceil (rx2 r') sx ;;
  y2 <- scaled_down_ceil (ry2 r') sy ;;
  Some (mk_rect x1 y1 x2 y2).

Definition damage_direct_spec
    (ctx : sl_context) (surface : option sl_host_surface)
    (buffer_scalex buffer_scaley : double) (r : rect) : option rect :=
  let sx := mul (fst (sl_transform_get_scale_factors ctx surface)) buffer_scalex in
  let sy := mul (snd (sl_transform_get_scale_factors ctx surface)) buffer_scaley in
  x1 <- scaled_down_trunc (rx1 r) sx ;;
  y1 <- scaled_down_trunc (ry1 r) sy ;;
  x2 <- scaled_down_trunc (rx2 r) sx ;;
  y2 <- scaled_down_trunc (ry2 r) sy ;;
  Some (mk_rect x1 y1 x2 y2).

(** *** Viewport sizes, as the specification words them *)

Definition viewport_direct_spec
    (ctx : sl_context) (surface : option sl_host_surface) (width height : Z)
    : option (bool * Z * Z) :=
  '(w, h) <- sl_transform_guest_to_host ctx surface width height ;;
  Some (true, Z.max 1 w, Z.max 1 h).

Definition viewport_legacy_spec
    (ctx : sl_context) (contents_scale : double) (width height : Z)
    : option (bool * Z * Z) :=
  let s := mul (scale ctx) contents_scale in
  w <- to_int32 (ceil (div (of_Z width) s)) ;;
  h <- to_int32 (ceil (div (of_Z height) s)) ;;
  Some (true, w, h).

(** *** Output dimensions, as the specification words them *)

Definition scale_output_spec (legacy_scale : double) (width height : Z)
    : option (Z * Z) :=
  w <- to_int32 (mul (of_Z width) legacy_scale) ;;
  h <- to_int32 (mul (of_Z height) legacy_scale) ;;
  Some (w, h).

(** *** Host to guest with truncation on both axes *)

Definition host_to_guest_trunc (ctx : sl_context) (x y : Z) : option (Z * Z) :=
  x' <- to_int32 (trunc (mul (ctx_xdg_scale_x ctx) (of_Z x))) ;;
  y' <- to_int32 (trunc (mul (ctx_xdg_scale_y ctx) (of_Z y))) ;;
  Some (x', y').

(** *** The factors the guest-to-host transforms divide by *)

Definition guest_to_host_divisors
    (ctx : sl_context) (surface : option sl_host_surface) : double * double :=
  if use_direct_scale ctx
  then sl_transform_get_scale_factors ctx surface
  else legacy_factors ctx.

(** The quotient of the integer transform: passed through [trunc] in
    direct mode, converted as it is in legacy mode. *)
Definition guest_to_host_quotient (ctx : sl_context) (c : Z) (d : double) : double :=
  if use_direct_scale ctx then trunc (div (of_Z c) d) else div (of_Z c) d.

(** *** Predicates on configurations and surfaces *)

(** The three process-wide factors are strictly positive. *)
Definition ctx_positive (ctx : sl_context) : bool :=
  is_pos (scale ctx) && is_pos (ctx_xdg_scale_x ctx) && is_pos (ctx_xdg_scale_y ctx).


Definition both_positive (f : double * double) : bool :=
  is_pos (fst f) && is_pos (snd f).


(** The scale in force is 1.0: the legacy factor in legacy mode, both
    direct-mode defaults in direct mode. *)
Definition unit_scale (ctx : sl_context) : Prop :=
  if use_direct_scale ctx
  then ctx_xdg_scale_x ctx = one /\ ctx_xdg_scale_y ctx = one
  else scale ctx = one.

Definition no_override (surface : option sl_host_surface) : Prop :=
  has_override surface = false.

(** Coordinates small enough to be exact as doubles after an outset. *)
Definition small (n : Z) : Prop := Z.abs n < 2 ^ 52.

Definition small_rect (r : rect) : Prop :=
  small (rx1 r) /\ small (ry1 r) /\ small (rx2 r) /\ small (ry2 r).

(** The rectangle outset by one pixel and cut to [[lo, hi]]. *)
Definition outset_clamped (lo hi : Z) (r : rect) : rect :=
  clamp_rect lo hi (mk_rect (rx1 r - 1) (ry1 r - 1) (rx2 r + 1) (ry2 r + 1)).

(** *** Concrete configurations used in examples *)

Definition fresh_surface : sl_host_surface :=
  mk_surface false zero zero false false 0 0.

(** Direct mode, both default factors 1.25. *)
Definition ctx_direct_125 : sl_context :=
  mk_context true one (ratio 5 4) (ratio 5 4).

(** Direct mode, both default factors 100. *)
Definition ctx_direct_100 : sl_context :=
  mk_context true one (of_Z 100) (of_Z 100).

(** Direct mode with unit defaults and legacy factor 2. *)
Definition ctx_direct_unit_legacy_2 : sl_context :=
  mk_context true (of_Z 2) one one.

(** Legacy mode with legacy factor 2 and unit direct-mode defaults. *)
Definition ctx_legacy_2 : sl_context :=
  mk_context false (of_Z 2) one one.

(** Legacy mode with legacy factor 1.25 and unit direct-mode defaults. *)
Definition ctx_legacy_125 : sl_context :=
  mk_context false (ratio 5 4) one one.

(** Legacy mode, every factor 1. *)
Definition ctx_legacy_1 : sl_context :=
  mk_context false one one one.

(** Direct mode, every factor 1. *)
Definition ctx_direct_1 : sl_context :=
  mk_context true one one one.

(** Both modes with every factor 2. *)
Definition ctx_direct_2 : sl_context :=
  mk_context true (of_Z 2) (of_Z 2) (of_Z 2).

Definition ctx_legacy_all_2 : sl_context :=
  mk_context false (of_Z 2) (of_Z 2) (of_Z 2).

(** The surface left by negotiating 129 x 100 at 1.25 on a fresh surface. *)
Definition surface_129 : sl_host_surface :=
  mk_surface true (ratio 129 103) (ratio 100 80) true false 103 80.

(** The surface left by then negotiating 131 x 101 on [surface_129]. *)
Definition surface_131_stale : sl_host_surface :=
  mk_surface true (ratio 131 104) (ratio 101 80) true false 104 80.

(** The surface left by negotiating 131 x 101 on a fresh surface. *)
Definition surface_131_fresh : sl_host_surface :=
  mk_surface true (ratio 131 104) (ratio 101 80) false false 104 80.

(** Sample values for [MIN_SIZE] and [MAX_SIZE]: a tenth of the [int]
    range on either side. *)
Definition MIN_SIZE_default : Z := -214748364.
Definition MAX_SIZE_default : Z := 214748364.

(** *** Integer-level descriptions and further configurations *)

(** The scale in force is [2^k]: the legacy factor in legacy mode, both
    direct-mode defaults in direct mode. *)
Definition pow2_scale (ctx : sl_context) (k : Z) : Prop :=
  if use_direct_scale ctx
  then ctx_xdg_scale_x ctx = pow2 k /\ ctx_xdg_scale_y ctx = pow2 k
  else scale ctx = pow2 k.

(** Quotient rounded toward plus infinity. *)
Definition cdiv (n d : Z) : Z := - ((- n) / d).

(** [x < 0]; false on NaN. *)
Definition is_neg (x : double) : bool := SFltb x zero.

(** A factor that is a zero or not a number. *)
Definition zero_or_nan (x : double) : bool :=
  match x with
  | S754_zero _ | S754_nan => true
  | _ => false
  end.

(** One axis of the direct-mode integer transforms. *)
Definition axis_to_host (s : double) (c : Z) : option Z :=
  to_int32 (trunc (div (of_Z c) s)).

Definition axis_to_guest (s : double) (flag : bool) (c : Z) : option Z :=
  d <- whole flag (mul s (of_Z c)) ;; to_int32 d.

Definition axis_cycle (s : double) (flag : bool) (c : Z) : option Z :=
  l <- axis_to_host s c ;; axis_to_guest s flag l.

(** Both axes together; the pair is defined when both axes are. *)
Definition both_axes (a b : option Z) : option (Z * Z) :=
  match a, b with
  | Some x, Some y => Some (x, y)
  | _, _ => None
  end.

(** The context with its direct-mode defaults replaced. *)
Definition with_defaults (ctx : sl_context) (sx sy : double) : sl_context :=
  mk_context (use_direct_scale ctx) (scale ctx) sx sy.

(** The context with its legacy factor replaced. *)
Definition with_legacy (ctx : sl_context) (s : double) : sl_context :=
  mk_context (use_direct_scale ctx) s (ctx_xdg_scale_x ctx) (ctx_xdg_scale_y ctx).

(** The rectangle [inner] lies within the rectangle [outer]. *)
Definition rect_within (inner outer : rect) : Prop :=
  rx1 outer <= rx1 inner /\ ry1 outer <= ry1 inner /\
  rx2 inner <= rx2 outer /\ ry2 inner <= ry2 outer.

(** Direct mode with both default factors 2. *)
Definition ctx_direct_x2 : sl_context := mk_context true one (pow2 1) (pow2 1).

(** Direct mode with both default factors 4. *)
Definition ctx_direct_x4 : sl_context := mk_context true one (pow2 2) (pow2 2).

(** Legacy mode with legacy factor 2. *)
Definition ctx_legacy_x2 : sl_context := mk_context false (pow2 1) one one.

(** Direct mode with a zero default factor on the x axis. *)
Definition ctx_direct_zero : sl_context := mk_context true one zero one.

(** The rectangles the two modes produce at a scale of [2^kx] by
    [2^ky]. *)
Definition damage_direct_at (kx ky : Z) (r : rect) : rect :=
  mk_rect (Z.quot (rx1 r) (2 ^ kx)) (Z.quot (ry1 r) (2 ^ ky))
          (Z.quot (rx2 r) (2 ^ kx)) (Z.quot (ry2 r) (2 ^ ky)).

Definition damage_legacy_at (lo hi kx ky : Z) (r : rect) : rect :=
  mk_rect (Z.quot (Z.max lo (rx1 r - 1)) (2 ^ kx))
          (Z.quot (Z.max lo (ry1 r - 1)) (2 ^ ky))
          (cdiv (Z.min (rx2 r + 1) hi) (2 ^ kx))
          (cdiv (Z.min (ry2 r + 1) hi) (2 ^ ky)).

(** The integer nearest to [n / d], halfway cases away from zero. *)
Definition rdiv (n d : Z) : Z := Z.sgn n * ((2 * Z.abs n + d) / (2 * d)).

(** * Facts about binary64 arithmetic *)

(** The floating-point specification is stated over the core library's
    integer operations; [stdz] restates a goal over the names the
    arithmetic lemmas and [lia] know. *)

Ltac stdz :=
  change IntDef.Z.add with Z.add in *;
  change IntDef.Z.sub with Z.sub in *;
  change IntDef.Z.opp with Z.opp in *;
  change IntDef.Z.mul with Z.mul in *;
  change IntDef.Z.max with Z.max in *;
  change IntDef.Z.min with Z.min in *;
  change IntDef.Z.eqb with Z.eqb in *;
  change IntDef.Z.leb with Z.leb in *;
  change IntDef.Z.compare with Z.compare in *;
  change IntDef.Z.even with Z.even in *;
  change IntDef.Z.shiftl with Z.shiftl in *;
  change IntDef.Z.div_eucl with Z.div_eucl in *;
  change PosDef.Pos.mul with Pos.mul in *;
  change @PosDef.Pos.iter with @Pos.iter in *.

(** ** Digits and canonical mantissas *)

Lemma digits2_pos_size (p : positive) : digits2_pos p = Pos.size p.
Proof. induction p; simpl; congruence. Qed.

Lemma Zdigits_log2 (p : positive) :
  Zpos (digits2_pos p) = Z.log2 (Zpos p) + 1.
Proof.
  rewrite digits2_pos_size.
  destruct p; simpl; rewrite ?Pos2Z.inj_succ; lia.
Qed.

Lemma digits_bounds (p : positive) (d : Z) :
  Zpos (digits2_pos p) = d <-> 2 ^ (d - 1) <= Zpos p < 2 ^ d.
Proof.
  rewrite Zdigits_log2. split.
  - intros <-. replace (Z.log2 (Zpos p) + 1 - 1) with (Z.log2 (Zpos p)) by lia.
    apply Z.log2_spec. lia.
  - intros H.
    assert (0 <= d - 1).
    { destruct (Z.le_gt_cases 0 (d - 1)) as [|Hn]; [assumption|].
      assert (2 ^ d <= 1); [|lia].
      destruct (Z.eq_dec d 0) as [->|]; [simpl; lia|].
      rewrite Z.pow_neg_r by lia. lia. }
    assert (Z.log2 (Zpos p) = d - 1); [|lia].
    apply Z.log2_unique; [lia|].
    replace (Z.succ (d - 1)) with d by lia. exact H.
Qed.

Lemma fexp_normal (x : Z) : -1021 <= x -> fexp prec emax x = x - 53.
Proof. intros H. unfold fexp, emin, prec, emax. lia. Qed.

Lemma binary_round_aux_canonical (s : bool) (m : positive) (e : Z) :
  Zpos (digits2_pos m) = 53 -> -1074 <= e <= 971 ->
  binary_round_aux prec emax s (Zpos m) e loc_Exact = S754_finite s m e.
Proof.
  intros Hd He.
  assert (Hf : fexp prec emax (53 + e) - e = 0)
    by (unfold fexp, emin, prec, emax; lia).
  unfold binary_round_aux, shr_fexp. simpl Zdigits2.
  stdz. rewrite Hd, Hf.
  cbn [shr shr_record_of_loc shr_m shr_r shr_s loc_of_shr_record round_nearest_even Zdigits2].
  rewrite Hd, Hf.
  cbn [shr shr_record_of_loc shr_m shr_r shr_s loc_of_shr_record round_nearest_even Zdigits2].
  replace (e <=? emax - prec) with true; [reflexivity|].
  symmetry. apply Z.leb_le. unfold emax, prec. lia.
Qed.

Lemma iter_xO_spec (k p : positive) :
  Zpos (Pos.iter xO p k) = Zpos p * 2 ^ Zpos k.
Proof.
  change (Pos.iter xO p k) with (shift_pos k p).
  rewrite shift_pos_correct, Z.pow_pos_fold. lia.
Qed.

Lemma binary_round_int (s : bool) (p : positive) :
  Zpos p < 2 ^ 53 ->
  exists m e,
    binary_round prec emax s p 0 = S754_finite s m e /\
    Zpos (digits2_pos m) = 53 /\ -52 <= e <= 0 /\
    Zpos m = Zpos p * 2 ^ (- e).
Proof.
  intros Hp.
  remember (Zpos (digits2_pos p)) as d eqn:Hd. symmetry in Hd.
  pose proof (proj1 (digits_bounds p d) Hd) as Hb.
  assert (Hd1 : 1 <= d <= 53).
  { split; [subst d; lia|].
    destruct (Z.le_gt_cases d 53) as [|Hgt]; [assumption|].
    assert (2 ^ 53 <= 2 ^ (d - 1)) by (apply Z.pow_le_mono_r; lia). lia. }
  unfold binary_round. stdz. rewrite Hd, Z.add_0_r, fexp_normal by lia.
  unfold shl_align. stdz. rewrite Z.sub_0_r.
  destruct (d - 53) as [|q|q] eqn:Hq; [| lia |].
  - exists p, 0. rewrite binary_round_aux_canonical by lia.
    repeat split; try lia.
  - assert (Hk : Zpos q = 53 - d) by lia.
    assert (Hm : Zpos (Pos.iter xO p q) = Zpos p * 2 ^ (53 - d))
      by (rewrite iter_xO_spec, Hk; reflexivity).
    assert (Hdig : Zpos (digits2_pos (Pos.iter xO p q)) = 53).
    { apply digits_bounds. rewrite Hm.
      replace (2 ^ (53 - 1)) with (2 ^ (d - 1) * 2 ^ (53 - d))
        by (rewrite <- Z.pow_add_r by lia; f_equal; lia).
      replace (2 ^ 53) with (2 ^ d * 2 ^ (53 - d))
        by (rewrite <- Z.pow_add_r by lia; f_equal; lia).
      assert (0 < 2 ^ (53 - d)) by (apply Z.pow_pos_nonneg; lia).
      nia. }
    exists (Pos.iter xO p q), (Z.neg q).
    rewrite binary_round_aux_canonical by lia.
    repeat split; try lia.
    rewrite Hm. f_equal. f_equal. lia.
Qed.

Lemma of_Z_normal (n : Z) :
  0 < Z.abs n < 2 ^ 53 ->
  exists m e,
    of_Z n = S754_finite (n <? 0) m e /\
    Zpos (digits2_pos m) = 53 /\ -52 <= e <= 0 /\
    Zpos m = Z.abs n * 2 ^ (- e).
Proof.
  intros Hn. destruct n as [|p|p]; [simpl in Hn; lia | |];
    simpl Z.abs in *; apply binary_round_int; lia.
Qed.

(** ** Multiplication and division by powers of two *)

Lemma mul_pow2 (s : bool) (m : positive) (e k : Z) :
  Zpos (digits2_pos m) = 53 -> -1074 <= e + k <= 971 ->
  mul (S754_finite s m e) (pow2 k) = S754_finite s m (e + k).
Proof.
  intros Hd He. unfold mul, pow2, SFmul. rewrite xorb_false_r.
  stdz. rewrite Pos.mul_comm.
  unfold binary_round_aux, shr_fexp.
  cbn [Pos.mul Zdigits2 digits2_pos].
  repeat rewrite Pos2Z.inj_succ. rewrite Hd.
  replace (fexp prec emax _ - _) with 52
    by (stdz; unfold fexp, emin, prec, emax; lia).
  cbn [shr shr_record_of_loc iter_pos shr_1 shr_m shr_r shr_s orb
       loc_of_shr_record round_nearest_even Zdigits2].
  stdz. rewrite Hd.
  replace (fexp prec emax _ - _) with 0
    by (unfold fexp, emin, prec, emax; lia).
  cbn [shr shr_m].
  replace (e + (k - 52) + 52 <=? emax - prec) with true
    by (symmetry; apply Z.leb_le; unfold emax, prec; lia).
  f_equal. lia.
Qed.

Lemma mul_comm (x y : double) : mul x y = mul y x.
Proof.
  unfold mul. destruct x as [sx|sx| |sx mx ex], y as [sy|sy| |sy my ey];
    simpl; try rewrite (xorb_comm sx sy); try reflexivity.
  stdz. rewrite (Pos.mul_comm mx my), (Z.add_comm ex ey). reflexivity.
Qed.

Lemma div_pow2 (s : bool) (m : positive) (e k : Z) :
  Zpos (digits2_pos m) = 53 -> -1073 <= e - k <= 971 ->
  div (S754_finite s m e) (pow2 k) = S754_finite s m (e - k).
Proof.
  intros Hd He. unfold div, pow2, SFdiv, SFdiv_core_binary.
  rewrite xorb_false_r.
  cbn [Zdigits2 digits2_pos]. stdz.
  repeat rewrite Pos2Z.inj_succ. rewrite Hd.
  replace (Z.min _ _) with (e - k - 1)
    by (unfold fexp, emin, prec, emax; lia).
  replace (e - (k - 52) - (e - k - 1)) with 53 by lia.
  assert (Hq : Z.div_eucl (Z.shiftl (Zpos m) 53) 4503599627370496
               = (Zpos m~0, 0)).
  { pose proof (Z_div_mod (Z.shiftl (Zpos m) 53) 4503599627370496 eq_refl) as H.
    destruct (Z.div_eucl _ _) as [q r].
    rewrite Z.shiftl_mul_pow2 in H by lia.
    change (2 ^ 53) with 9007199254740992 in H.
    f_equal; lia. }
  rewrite Hq.
  cbn [new_location Z.even new_location_even Z.eqb].
  unfold binary_round_aux, shr_fexp.
  cbn [Zdigits2 digits2_pos]. rewrite Pos2Z.inj_succ, Hd.
  replace (fexp prec emax _ - _) with 1
    by (stdz; unfold fexp, emin, prec, emax; lia).
  cbn [shr shr_record_of_loc iter_pos shr_1 shr_m shr_r shr_s orb
       loc_of_shr_record round_nearest_even Zdigits2].
  stdz. rewrite Hd.
  replace (fexp prec emax _ - _) with 0
    by (unfold fexp, emin, prec, emax; lia).
  cbn [shr shr_m].
  replace (e - k - 1 + 1 <=? emax - prec) with true
    by (symmetry; apply Z.leb_le; unfold emax, prec; lia).
  f_equal. lia.
Qed.

Lemma one_pow2 : one = pow2 0.
Proof. reflexivity. Qed.

(** ** Integers as doubles *)

Lemma binary_normalize_nonzero (n : Z) (s : bool) :
  n <> 0 -> binary_normalize prec emax n 0 s = of_Z n.
Proof. destruct n; [congruence | reflexivity | reflexivity]. Qed.

Lemma cond_Zopp_abs (n : Z) : cond_Zopp (n <? 0) (Z.abs n) = n.
Proof. unfold cond_Zopp. destruct (Z.ltb_spec n 0); lia. Qed.

Lemma int_part_exact (m : positive) (e a : Z) :
  e <= 0 -> Zpos m = a * 2 ^ (- e) -> int_part m e = a.
Proof.
  intros He Hm. unfold int_part.
  rewrite <- Z.shiftr_opp_r, Z.shiftr_div_pow2, Hm by lia.
  apply Z.div_mul. apply Z.pow_nonzero; lia.
Qed.

Section IntegerValued.

Variable n : Z.
Hypothesis Hn : Z.abs n < 2 ^ 53.

Lemma trunc_of_Z : trunc (of_Z n) = of_Z n.
Proof.
  destruct (Z.eq_dec n 0) as [->|Hz]; [reflexivity|].
  destruct (of_Z_normal n) as (m & e & Hof & Hd & He & Hm); [lia|]. rewrite Hof.
  unfold trunc. destruct (Z.leb_spec 0 e); [reflexivity|].
  rewrite (int_part_exact m e (Z.abs n)), cond_Zopp_abs by (assumption || lia).
  rewrite <- Hof. apply binary_normalize_nonzero; assumption.
Qed.

Lemma ceil_of_Z : ceil (of_Z n) = of_Z n.
Proof.
  destruct (Z.eq_dec n 0) as [->|Hz]; [reflexivity|].
  destruct (of_Z_normal n) as (m & e & Hof & Hd & He & Hm); [lia|]. rewrite Hof.
  unfold ceil. destruct (Z.leb_spec 0 e); [reflexivity|].
  rewrite (int_part_exact m e (Z.abs n)) by (assumption || lia).
  rewrite Z.shiftl_mul_pow2, <- Hm, Z.eqb_refl by lia.
  change (if n <? 0 then - Z.abs n else Z.abs n)
    with (cond_Zopp (n <? 0) (Z.abs n)).
  rewrite cond_Zopp_abs.
  rewrite <- Hof. apply binary_normalize_nonzero; assumption.
Qed.

Lemma round_of_Z : round (of_Z n) = of_Z n.
Proof.
  destruct (Z.eq_dec n 0) as [->|Hz]; [reflexivity|].
  destruct (of_Z_normal n) as (m & e & Hof & Hd & He & Hm); [lia|]. rewrite Hof.
  unfold round. destruct (Z.leb_spec 0 e); [reflexivity|].
  replace (Z.shiftl (Zpos m + Z.shiftl 1 (- e - 1)) e) with (Z.abs n).
  - rewrite cond_Zopp_abs. rewrite <- Hof. apply binary_normalize_nonzero; assumption.
  - rewrite <- (Z.shiftr_opp_r _ e), Z.shiftr_div_pow2 by lia.
    rewrite Z.shiftl_mul_pow2, Z.mul_1_l, Hm by lia.
    assert (0 < 2 ^ (- e - 1)) by (apply Z.pow_pos_nonneg; lia).
    assert (2 ^ (- e) = 2 * 2 ^ (- e - 1)).
    { rewrite <- Z.pow_succ_r by lia. f_equal. lia. }
    rewrite Z.div_add_l by lia.
    rewrite Z.div_small by lia. lia.
Qed.

Lemma to_int_of_Z (lo hi : Z) :
  lo <= n <= hi -> to_int lo hi (of_Z n) = Some n.
Proof.
  intros Hr.
  destruct (Z.eq_dec n 0) as [->|Hz]; [reflexivity|].
  destruct (of_Z_normal n) as (m & e & Hof & Hd & He & Hm); [lia|]. rewrite Hof.
  unfold to_int.
  rewrite (int_part_exact m e (Z.abs n)), cond_Zopp_abs by (assumption || lia).
  replace (lo <=? n) with true by (symmetry; apply Z.leb_le; lia).
  replace (n <=? hi) with true by (symmetry; apply Z.leb_le; lia).
  reflexivity.
Qed.

Lemma mul_pow2_of_Z_div (k : Z) :
  -900 <= k <= 900 ->
  mul (div (of_Z n) (pow2 k)) (pow2 k) = of_Z n.
Proof.
  intros Hk.
  destruct (Z.eq_dec n 0) as [->|Hz]; [reflexivity|].
  destruct (of_Z_normal n) as (m & e & Hof & Hd & He & Hm); [lia|]. rewrite Hof.
  rewrite div_pow2, mul_pow2 by (assumption || lia).
  f_equal. lia.
Qed.

Lemma mul_one_r : mul (of_Z n) one = of_Z n.
Proof.
  destruct (Z.eq_dec n 0) as [->|Hz]; [reflexivity|].
  destruct (of_Z_normal n) as (m & e & Hof & Hd & He & Hm); [lia|]. rewrite Hof.
  rewrite one_pow2, mul_pow2 by (assumption || lia). f_equal. lia.
Qed.

Lemma mul_one_l : mul one (of_Z n) = of_Z n.
Proof. rewrite mul_comm. apply mul_one_r. Qed.

Lemma div_one : div (of_Z n) one = of_Z n.
Proof.
  destruct (Z.eq_dec n 0) as [->|Hz]; [reflexivity|].
  destruct (of_Z_normal n) as (m & e & Hof & Hd & He & Hm); [lia|]. rewrite Hof.
  rewrite one_pow2, div_pow2 by (assumption || lia). f_equal. lia.
Qed.

End IntegerValued.

(** Multiplying an integer by [2^k] is exact. *)
Lemma to_int_mul_pow2 (n k lo hi : Z) :
  Z.abs n < 2 ^ 53 -> 0 <= k <= 900 -> lo <= n * 2 ^ k <= hi ->
  to_int lo hi (mul (of_Z n) (pow2 k)) = Some (n * 2 ^ k).
Proof.
  intros Hn Hk Hr.
  destruct (Z.eq_dec n 0) as [->|Hz]; [reflexivity|].
  destruct (of_Z_normal n) as (m & e & Hof & Hd & He & Hm); [lia|].
  rewrite Hof, mul_pow2 by (assumption || lia).
  unfold to_int, int_part.
  rewrite Hm, <- Z.shiftl_mul_pow2, Z.shiftl_shiftl by lia.
  replace (- e + (e + k)) with k by lia.
  rewrite Z.shiftl_mul_pow2 by lia.
  assert (Hc : cond_Zopp (n <? 0) (Z.abs n * 2 ^ k) = n * 2 ^ k).
  { unfold cond_Zopp. destruct (Z.ltb_spec n 0); lia. }
  rewrite Hc.
  replace (lo <=? n * 2 ^ k) with true by (symmetry; apply Z.leb_le; lia).
  replace (n * 2 ^ k <=? hi) with true by (symmetry; apply Z.leb_le; lia).
  reflexivity.
Qed.

Lemma int32_exact (n : Z) : int32 n -> Z.abs n < 2 ^ 53.
Proof. unfold int32, INT32_MIN, INT32_MAX. lia. Qed.

Lemma to_int32_of_Z (n : Z) : int32 n -> to_int32 (of_Z n) = Some n.
Proof.
  intros H. apply to_int_of_Z; [apply int32_exact|]; assumption.
Qed.

Lemma to_int64_of_Z (n : Z) : Z.abs n < 2 ^ 53 -> to_int64 (of_Z n) = Some n.
Proof.
  intros H. apply to_int_of_Z; [assumption|].
  unfold INT64_MIN, INT64_MAX. lia.
Qed.

Lemma to_int_range (lo hi : Z) (x : double) (z : Z) :
  lo <= 0 <= hi -> to_int lo hi x = Some z -> lo <= z <= hi.
Proof.
  intros H0. destruct x as [s|s| |s m e]; simpl; try discriminate.
  - intros [= <-]. exact H0.
  - destruct (Z.leb_spec lo (cond_Zopp s (int_part m e)));
      destruct (Z.leb_spec (cond_Zopp s (int_part m e)) hi);
      cbn [andb]; try discriminate.
    intros [= <-]. lia.
Qed.

Lemma to_int32_range (x : double) (z : Z) : to_int32 x = Some z -> int32 z.
Proof.
  apply to_int_range. unfold INT32_MIN, INT32_MAX. lia.
Qed.

(** Dividing an integer by [2^k] and truncating is the quotient rounded
    toward zero. *)
Lemma to_int_trunc_div_pow2 (n k lo hi : Z) :
  Z.abs n < 2 ^ 53 -> 0 <= k <= 900 -> lo <= 0 <= hi ->
  lo <= Z.quot n (2 ^ k) <= hi ->
  to_int lo hi (trunc (div (of_Z n) (pow2 k))) = Some (Z.quot n (2 ^ k)).
Proof.
  intros Hn Hk H0 Hr.
  destruct (Z.eq_dec n 0) as [->|Hz]; [reflexivity|].
  destruct (of_Z_normal n) as (m & e & Hof & Hd & He & Hm); [lia|].
  assert (Hpow : 0 < 2 ^ k) by (apply Z.pow_pos_nonneg; lia).
  assert (Hq : int_part m (e - k) = Z.abs n / 2 ^ k).
  { unfold int_part.
    rewrite Hm, <- Z.shiftl_mul_pow2, Z.shiftl_shiftl by lia.
    replace (- e + (e - k)) with (- k) by lia.
    rewrite Z.shiftl_opp_r. apply Z.shiftr_div_pow2. lia. }
  assert (Hquot : cond_Zopp (n <? 0) (Z.abs n / 2 ^ k) = Z.quot n (2 ^ k)).
  { rewrite Z.quot_div by lia. rewrite (Z.sgn_pos (2 ^ k)) by assumption.
    rewrite (Z.abs_eq (2 ^ k)) by lia.
    unfold cond_Zopp. destruct (Z.ltb_spec n 0).
    - rewrite Z.sgn_neg by assumption. lia.
    - rewrite Z.sgn_pos by lia. lia. }
  rewrite Hof, div_pow2 by (assumption || lia).
  unfold trunc. destruct (Z.leb_spec 0 (e - k)) as [Hge|Hlt].
  - unfold to_int. rewrite Hq, Hquot.
    replace (lo <=? _) with true by (symmetry; apply Z.leb_le; lia).
    replace (_ <=? hi) with true by (symmetry; apply Z.leb_le; lia).
    reflexivity.
  - rewrite Hq, Hquot.
    destruct (Z.eq_dec (Z.quot n (2 ^ k)) 0) as [Hq0|Hq0].
    + rewrite Hq0. reflexivity.
    + rewrite binary_normalize_nonzero by assumption.
      apply to_int_of_Z; [|assumption].
      rewrite <- Hquot. unfold cond_Zopp.
      assert (0 <= Z.abs n / 2 ^ k <= Z.abs n).
      { split; [apply Z.div_pos; lia|].
        apply Z.div_le_upper_bound; [lia|]. nia. }
      destruct (n <? 0); lia.
Qed.

(** ** Signs *)

Lemma binary_round_aux_neg (m e : Z) (l : location) :
  is_pos (binary_round_aux prec emax true m e l) = false.
Proof.
  unfold binary_round_aux.
  destruct (shr_fexp _ _ _ _ _) as [mrs' e'].
  destruct (shr_fexp _ _ _ _ _) as [mrs'' e''].
  destruct (shr_m mrs''); [reflexivity | | reflexivity].
  destruct (_ <=? _); reflexivity.
Qed.

Lemma of_Z_nonpos (n : Z) : n <= 0 -> is_pos (of_Z n) = false.
Proof.
  destruct n as [|p|p]; intros H; [reflexivity | lia |].
  unfold of_Z, binary_normalize, binary_round.
  destruct (shl_align _ _ _). apply binary_round_aux_neg.
Qed.

Lemma div_nonpos (x y : double) :
  is_pos x = false -> is_pos y = true -> is_pos (div x y) = false.
Proof.
  unfold div.
  destruct x as [sx|[|]| |[|] mx ex], y as [sy|[|]| |[|] my ey];
    try discriminate; intros _ _; try reflexivity.
  unfold SFdiv. destruct (SFdiv_core_binary _ _ _ _ _ _) as [[mz ez] lz].
  apply binary_round_aux_neg.
Qed.

Lemma int_part_nonneg (m : positive) (e : Z) : 0 <= int_part m e.
Proof. unfold int_part. apply Z.shiftl_nonneg. lia. Qed.

Lemma trunc_nonpos (x : double) : is_pos x = false -> is_pos (trunc x) = false.
Proof.
  destruct x as [sx|sx| |[|] mx ex]; try (intros; assumption); try discriminate.
  intros _. unfold trunc. destruct (0 <=? ex); [reflexivity|].
  pose proof (int_part_nonneg mx ex) as Hq.
  destruct (int_part mx ex) as [|q|q]; [reflexivity | | lia].
  simpl cond_Zopp. unfold binary_normalize, binary_round.
  destruct (shl_align _ _ _). apply binary_round_aux_neg.
Qed.

Lemma to_int_nonpos (lo hi : Z) (x : double) (z : Z) :
  is_pos x = false -> to_int lo hi x = Some z -> z <= 0.
Proof.
  destruct x as [sx|sx| |[|] mx ex]; simpl; try discriminate.
  - intros _ [= <-]. lia.
  - intros _. pose proof (int_part_nonneg mx ex).
    destruct (_ && _); [|discriminate]. intros [= <-]. lia.
Qed.

(** A positive logical size computed with a positive factor comes from a
    positive pixel size. *)
Lemma logical_pos_pixel_pos (lo hi : Z) (sx : double) (w lw : Z) :
  is_pos sx = true ->
  to_int lo hi (trunc (div (of_Z w) sx)) = Some lw -> 0 < lw -> 0 < w.
Proof.
  intros Hs Hc Hl.
  destruct (Z.lt_ge_cases 0 w) as [|Hw]; [assumption|].
  pose proof (to_int_nonpos lo hi _ lw
    (trunc_nonpos _ (div_nonpos _ _ (of_Z_nonpos w ltac:(lia)) Hs)) Hc).
  lia.
Qed.

Lemma round_nearest_even_bounds (x : Z) (l : location) :
  x <= round_nearest_even x l <= x + 1.
Proof.
  unfold round_nearest_even. stdz.
  destruct l as [|[| |]]; try destruct (Z.even x); lia.
Qed.

Lemma shr_fexp_normal (q e : Z) (l : location) :
  2 ^ 52 <= q < 2 ^ 54 -> -1000 <= e <= 900 ->
  2 ^ 52 <= shr_m (fst (shr_fexp prec emax q e l)) < 2 ^ 53 /\
  e <= snd (shr_fexp prec emax q e l) <= e + 1.
Proof.
  intros Hq He. destruct q as [|qp|qp]; try lia.
  unfold shr_fexp. cbn [Zdigits2]. stdz.
  destruct (Z.lt_ge_cases (Zpos qp) (2 ^ 53)) as [Hlt|Hge].
  - assert (Hd : Zpos (digits2_pos qp) = 53) by (apply digits_bounds; lia).
    rewrite Hd.
    replace (fexp prec emax _ - _) with 0
      by (unfold fexp, emin, prec, emax; lia).
    cbn [shr fst snd]. destruct l as [|[| |]]; cbn [shr_record_of_loc shr_m]; lia.
  - assert (Hd : Zpos (digits2_pos qp) = 54) by (apply digits_bounds; lia).
    rewrite Hd.
    replace (fexp prec emax _ - _) with 1
      by (unfold fexp, emin, prec, emax; lia).
    cbn [shr fst snd iter_pos]. stdz.
    destruct l as [|[| |]], qp as [p|p|];
      cbn [shr_record_of_loc shr_1 shr_m]; lia.
Qed.

Lemma binary_round_aux_pos (q e : Z) (l : location) :
  2 ^ 52 <= q < 2 ^ 54 -> -1000 <= e <= 899 ->
  is_pos (binary_round_aux prec emax false q e l) = true.
Proof.
  intros Hq He. unfold binary_round_aux.
  pose proof (shr_fexp_normal q e l Hq ltac:(lia)) as [Hm1 He1].
  destruct (shr_fexp prec emax q e l) as [mrs' e']. cbn [fst snd] in *.
  pose proof (round_nearest_even_bounds (shr_m mrs') (loc_of_shr_record mrs')) as Hr.
  set (m1 := round_nearest_even _ _) in *.
  pose proof (shr_fexp_normal m1 e' loc_Exact ltac:(lia) ltac:(lia)) as [Hm2 _].
  destruct (shr_fexp prec emax m1 e' loc_Exact) as [mrs'' e'']. cbn [fst] in *.
  destruct (shr_m mrs''); try lia.
  destruct (_ <=? _); reflexivity.
Qed.

Lemma div_of_Z_pos (a b : Z) :
  0 < a < 2 ^ 53 -> 0 < b < 2 ^ 53 -> is_pos (div (of_Z a) (of_Z b)) = true.
Proof.
  intros Ha Hb.
  destruct (of_Z_normal a) as (ma & ea & Hofa & Hda & Hea & Hma); [lia|].
  destruct (of_Z_normal b) as (mb & eb & Hofb & Hdb & Heb & Hmb); [lia|].
  rewrite Hofa, Hofb.
  replace (a <? 0) with false by (symmetry; apply Z.ltb_ge; lia).
  replace (b <? 0) with false by (symmetry; apply Z.ltb_ge; lia).
  apply digits_bounds in Hda, Hdb.
  unfold div, SFdiv, SFdiv_core_binary. cbn [Zdigits2 xorb]. stdz.
  apply (proj2 (digits_bounds ma 53)) in Hda as Hda'.
  apply (proj2 (digits_bounds mb 53)) in Hdb as Hdb'.
  rewrite Hda', Hdb'.
  replace (Z.min _ _) with (ea - eb - 53)
    by (unfold fexp, emin, prec, emax; lia).
  replace (ea - eb - (ea - eb - 53)) with 53 by lia.
  pose proof (Z_div_mod (Z.shiftl (Zpos ma) 53) (Zpos mb) eq_refl) as Hdiv.
  destruct (Z.div_eucl _ _) as [q r].
  rewrite Z.shiftl_mul_pow2 in Hdiv by lia.
  change (2 ^ 53) with 9007199254740992 in *.
  change (2 ^ (53 - 1)) with 4503599627370496 in *.
  apply binary_round_aux_pos; [|lia].
  change (2 ^ 52) with 4503599627370496.
  change (2 ^ 54) with 18014398509481984.
  nia.
Qed.

(** * Properties of the transforms *)

(** ** Scale resolution *)

Lemma resolver_amended (ctx : sl_context) (surface : option sl_host_surface) :
  sl_transform_get_scale_factors ctx surface = resolve_amended ctx surface.
Proof.
  unfold sl_transform_get_scale_factors, resolve_amended.
  destruct surface as [s|]; simpl.
  - reflexivity.
  - rewrite andb_false_r. reflexivity.
Qed.

(** C3 (as stated, refuted): in legacy mode with legacy factor 2 and
    direct-mode defaults 1, the resolver returns the direct-mode defaults
    [(1, 1)], not [(legacy_scale, legacy_scale) = (2, 2)]. *)
Lemma C3_legacy_mode_counterexample :
  use_direct_scale ctx_legacy_2 = false /\
  sl_transform_get_scale_factors ctx_legacy_2 None = (one, one) /\
  resolve_spec ctx_legacy_2 None = (of_Z 2, of_Z 2) /\
  sl_transform_get_scale_factors ctx_legacy_2 None <> resolve_spec ctx_legacy_2 None.
Proof.
  repeat split; try reflexivity. vm_compute. discriminate.
Qed.

(** C3 (amended): the resolver returns the override's per-axis factors
    when direct mode is active and the surface is non-null and has an
    override; in every other case, legacy mode included, it returns the
    process-wide direct-mode defaults.  It agrees with the specification's
    contract throughout direct mode, and it is a total function. *)
Theorem C3_resolver_contract (ctx : sl_context) (surface : option sl_host_surface) :
  sl_transform_get_scale_factors ctx surface = resolve_amended ctx surface /\
  (if use_direct_scale ctx
   then sl_transform_get_scale_factors ctx surface = resolve_spec ctx surface
   else sl_transform_get_scale_factors ctx surface = default_factors ctx).
Proof.
  rewrite resolver_amended. split; [reflexivity|].
  unfold resolve_amended, resolve_spec.
  destruct (use_direct_scale ctx); reflexivity.
Qed.

(** ** Reset *)

(** C7: resetting twice leaves the state of resetting once; one reset
    yields [has_own_scale = false], both rounding flags false, both
    override factors [0], and leaves the cached logical size unchanged. *)
Theorem C7_reset_idempotent (ctx : sl_context) (s : sl_host_surface) :
  sl_transform_reset_surface_scale ctx (sl_transform_reset_surface_scale ctx s)
    = sl_transform_reset_surface_scale ctx s /\
  has_own_scale (sl_transform_reset_surface_scale ctx s) = false /\
  scale_round_on_x (sl_transform_reset_surface_scale ctx s) = false /\
  scale_round_on_y (sl_transform_reset_surface_scale ctx s) = false /\
  xdg_scale_x (sl_transform_reset_surface_scale ctx s) = zero /\
  xdg_scale_y (sl_transform_reset_surface_scale ctx s) = zero /\
  cached_logical_width (sl_transform_reset_surface_scale ctx s)
    = cached_logical_width s /\
  cached_logical_height (sl_transform_reset_surface_scale ctx s)
    = cached_logical_height s.
Proof. repeat split. Qed.

(** ** Output dimensions *)

Lemma output_dimensions_pow2 (ctx : sl_context) (k width height : Z) :
  scale ctx = pow2 k -> 0 <= k <= 30 ->
  int32 width -> int32 height ->
  int32 (width * 2 ^ k) -> int32 (height * 2 ^ k) ->
  sl_transform_output_dimensions ctx width height
    = Some (width * 2 ^ k, height * 2 ^ k).
Proof.
  intros Hs Hk Hw Hh Hwk Hhk. unfold sl_transform_output_dimensions.
  rewrite Hs. unfold to_int32.
  rewrite !to_int_mul_pow2; try reflexivity; try assumption; try lia.
  - unfold int32, INT32_MIN, INT32_MAX in Hh. lia.
  - unfold int32, INT32_MIN, INT32_MAX in Hw. lia.
Qed.

(** C8: the output-dimension transform multiplies both dimensions by the
    legacy factor whatever the mode and the direct-mode defaults are: its
    result is that of the specification's [scale_output], it is the same
    in the other mode and with other defaults, with a legacy factor [2^k]
    it is exactly [(width * 2^k, height * 2^k)], and with legacy factor 2
    [(10, 20)] becomes [(20, 40)] in either mode. *)
Theorem C8_output_dimensions
    (direct direct' : bool) (legacy_scale dx dy dx' dy' : double)
    (width height : Z) :
  sl_transform_output_dimensions (mk_context direct legacy_scale dx dy) width height
    = scale_output_spec legacy_scale width height /\
  sl_transform_output_dimensions (mk_context direct legacy_scale dx dy) width height
    = sl_transform_output_dimensions (mk_context direct' legacy_scale dx' dy') width height /\
  (forall k, legacy_scale = pow2 k -> 0 <= k <= 30 ->
             int32 width -> int32 height ->
             int32 (width * 2 ^ k) -> int32 (height * 2 ^ k) ->
             sl_transform_output_dimensions (mk_context direct legacy_scale dx dy)
                                            width height
               = Some (width * 2 ^ k, height * 2 ^ k)) /\
  sl_transform_output_dimensions ctx_legacy_2 10 20 = Some (20, 40) /\
  sl_transform_output_dimensions ctx_direct_unit_legacy_2 10 20 = Some (20, 40).
Proof.
  split; [reflexivity|]. split; [reflexivity|].
  split; [|split; vm_compute; reflexivity].
  intros k Hs. apply output_dimensions_pow2. exact Hs.
Qed.

(** ** Host to guest without a surface *)

Lemma host_to_guest_null (ctx : sl_context) (x y : Z) :
  use_direct_scale ctx = true ->
  sl_transform_host_to_guest ctx None x y = host_to_guest_trunc ctx x y.
Proof.
  intros Hd. unfold sl_transform_host_to_guest. rewrite Hd. reflexivity.
Qed.

(** C10: in direct mode, host to guest with a null surface truncates
    both axes toward zero.  So does the negotiator's test with the global
    factors: when the truncating round trip reproduces the requested size
    the surface is reset, and when it does not (and the logical size is
    positive) an override is installed, whatever rounding flags the
    surface carried. *)
Theorem C10_null_surface_truncates
    (ctx : sl_context) (s : sl_host_surface) (x y w h : Z)
    (Hdirect : use_direct_scale ctx = true) :
  sl_transform_host_to_guest ctx None x y = host_to_guest_trunc ctx x y /\
  (forall lw lh,
      sl_transform_guest_to_host ctx None w h = Some (lw, lh) ->
      host_to_guest_trunc ctx lw lh = Some (w, h) ->
      sl_transform_try_window_scale ctx s w h
        = Some (sl_transform_reset_surface_scale ctx s)) /\
  (forall lw lh rw rh s',
      sl_transform_guest_to_host ctx None w h = Some (lw, lh) ->
      host_to_guest_trunc ctx lw lh = Some (rw, rh) ->
      (rw, rh) <> (w, h) -> 0 < lw -> 0 < lh ->
      sl_transform_try_window_scale ctx s w h = Some s' ->
      has_own_scale s' = true /\
      cached_logical_width s' = lw /\ cached_logical_height s' = lh).
Proof.
  split; [apply host_to_guest_null; assumption|]. split.
  - intros lw lh Hg Hh. unfold sl_transform_try_window_scale.
    rewrite Hdirect, Hg. cbn [negb bind].
    rewrite host_to_guest_null, Hh by assumption. cbn [bind].
    rewrite !Z.eqb_refl. reflexivity.
  - intros lw lh rw rh s' Hg Hh Hne Hlw Hlh.
    unfold sl_transform_try_window_scale.
    rewrite Hdirect, Hg. cbn [negb bind].
    rewrite host_to_guest_null, Hh by assumption. cbn [bind].
    assert (Hmis : negb (rw =? w) || negb (rh =? h) = true).
    { destruct (Z.eqb_spec rw w), (Z.eqb_spec rh h); try reflexivity.
      subst. congruence. }
    rewrite Hmis.
    replace (lw >? 0) with true by (symmetry; apply Z.gtb_lt; lia).
    replace (lh >? 0) with true by (symmetry; apply Z.gtb_lt; lia).
    cbn [andb].
    destruct (full_cycle _ _ _ _) as [[rw' rh']|]; cbn [bind]; [|discriminate].
    intros [= <-].
    destruct (negb (rw' =? w)), (negb (rh' =? h)); repeat split.
Qed.

(** At 1.25 the logical size 104 x 80 of a 131 x 101 request comes back
    truncated to 130 x 100, so negotiation installs an override even on a
    surface whose rounding flag is set. *)
Lemma C10_null_surface_truncates_witness :
  use_direct_scale ctx_direct_125 = true /\
  sl_transform_host_to_guest ctx_direct_125 None 104 80 = Some (130, 100) /\
  (forall s',
      sl_transform_try_window_scale ctx_direct_125 surface_129 131 101 = Some s' ->
      has_own_scale s' = true /\
      cached_logical_width s' = 104 /\ cached_logical_height s' = 80).
Proof.
  pose proof (C10_null_surface_truncates ctx_direct_125 surface_129
                104 80 131 101 eq_refl) as (Hnull & _ & Hinstall).
  split; [reflexivity|]. split.
  - rewrite Hnull. vm_compute. reflexivity.
  - intros s'. apply (Hinstall 104 80 130 100).
    + vm_compute. reflexivity.
    + vm_compute. reflexivity.
    + intros [=].
    + lia.
    + lia.
Defined.

(** ** Damage rectangles *)

Lemma MAX_max (a b : Z) : MAX a b = Z.max a b.
Proof. unfold MAX. destruct (Z.gtb_spec a b); lia. Qed.

Lemma MIN_min (a b : Z) : MIN a b = Z.min a b.
Proof. unfold MIN. destruct (Z.ltb_spec a b); lia. Qed.

Lemma damage_direct_refines
    (MIN_SIZE MAX_SIZE : Z) (ctx : sl_context) (surface : option sl_host_surface)
    (bsx bsy : double) (r : rect) :
  use_direct_scale ctx = true ->
  sl_transform_damage_coord MIN_SIZE MAX_SIZE ctx surface bsx bsy r
    = damage_direct_spec ctx surface bsx bsy r.
Proof.
  intros Hd. unfold sl_transform_damage_coord, damage_direct_spec. rewrite Hd.
  destruct (sl_transform_get_scale_factors ctx surface) as [sx sy].
  cbn [fst snd]. unfold sl_transform_direct_to_host_damage, scaled_down_trunc.
  destruct (to_int64 (trunc (div (of_Z (rx1 r)) _))); cbn [bind]; [|reflexivity].
  destruct (to_int64 (trunc (div (of_Z (ry1 r)) _))); cbn [bind]; [|reflexivity].
  destruct (to_int64 (trunc (div (of_Z (rx2 r)) _))); cbn [bind]; [|reflexivity].
  destruct (to_int64 (trunc (div (of_Z (ry2 r)) _))); reflexivity.
Qed.

Lemma damage_legacy_refines
    (MIN_SIZE MAX_SIZE : Z) (ctx : sl_context) (surface : option sl_host_surface)
    (bsx bsy : double) (r : rect) :
  use_direct_scale ctx = false ->
  sl_transform_damage_coord MIN_SIZE MAX_SIZE ctx surface bsx bsy r
    = damage_legacy_spec MIN_SIZE MAX_SIZE ctx bsx bsy r.
Proof.
  intros Hd. unfold sl_transform_damage_coord, damage_legacy_spec. rewrite Hd.
  rewrite (mul_comm bsx), (mul_comm bsy).
  unfold outset, clamp_rect, scaled_down, scaled_down_ceil.
  destruct (checked64 (rx1 r - 1)) as [x1|]; cbn [bind]; [|reflexivity].
  destruct (checked64 (ry1 r - 1)) as [y1|]; cbn [bind].
  2:{ destruct (to_int64 _); reflexivity. }
  destruct (checked64 (rx2 r + 1)) as [x2|]; cbn [bind].
  2:{ destruct (to_int64 _); cbn [bind]; [|reflexivity].
      destruct (to_int64 _); reflexivity. }
  destruct (checked64 (ry2 r + 1)) as [y2|]; cbn [bind rx1 ry1 rx2 ry2].
  2:{ destruct (to_int64 _); cbn [bind]; [|reflexivity].
      destruct (to_int64 _); cbn [bind]; [|reflexivity].
      destruct (to_int64 _); reflexivity. }
  rewrite !MAX_max, !MIN_min. reflexivity.
Qed.

(** ** Viewport sizes *)

Lemma direct_to_host_pow2
    (ctx : sl_context) (surface : option sl_host_surface) (k x y : Z) :
  use_direct_scale ctx = true -> no_override surface ->
  ctx_xdg_scale_x ctx = pow2 k -> ctx_xdg_scale_y ctx = pow2 k ->
  0 <= k <= 30 -> int32 x -> int32 y ->
  sl_transform_guest_to_host ctx surface x y
    = Some (Z.quot x (2 ^ k), Z.quot y (2 ^ k)).
Proof.
  intros Hd Hno Hsx Hsy Hk Hx Hy.
  unfold sl_transform_guest_to_host, sl_transform_direct_to_host.
  rewrite Hd, resolver_amended. unfold resolve_amended, default_factors.
  unfold no_override in Hno. rewrite Hno, andb_false_r, Hsx, Hsy.
  assert (Hpow : 1 <= 2 ^ k) by (apply (Z.pow_le_mono_r 2 0 k); lia).
  assert (Hb : forall n, int32 n -> int32 (Z.quot n (2 ^ k))).
  { intros n Hn. unfold int32, INT32_MIN, INT32_MAX in *.
    change (- 2 ^ 31) with (-2147483648) in *.
    change (2 ^ 31 - 1) with 2147483647 in *.
    destruct (Z.le_gt_cases 0 n).
    - pose proof (Z.quot_pos n (2 ^ k) ltac:(lia) ltac:(lia)).
      assert (Z.quot n (2 ^ k) <= n); [|lia].
      rewrite Z.quot_div_nonneg by lia.
      apply Z.div_le_upper_bound; [lia|]. nia.
    - assert (Hopp : Z.quot n (2 ^ k) = - Z.quot (- n) (2 ^ k)).
      { rewrite Z.quot_opp_l by lia. lia. }
      rewrite Hopp.
      pose proof (Z.quot_pos (- n) (2 ^ k) ltac:(lia) ltac:(lia)).
      assert (Z.quot (- n) (2 ^ k) <= - n); [|lia].
      rewrite Z.quot_div_nonneg by lia.
      apply Z.div_le_upper_bound; [lia|]. nia. }
  unfold to_int32.
  rewrite !to_int_trunc_div_pow2;
    try reflexivity; try apply int32_exact; try apply Hb; try assumption;
    try (unfold INT32_MIN, INT32_MAX; lia); lia.
Qed.


Lemma viewport_refines
    (ctx : sl_context) (surface : option sl_host_surface)
    (contents_scale : double) (width height : Z) :
  sl_transform_viewport_scale ctx surface contents_scale width height
    = if use_direct_scale ctx
      then viewport_direct_spec ctx surface width height
      else viewport_legacy_spec ctx contents_scale width height.
Proof.
  unfold sl_transform_viewport_scale, viewport_direct_spec,
    viewport_legacy_spec, sl_transform_guest_to_host.
  destruct (use_direct_scale ctx); [|reflexivity].
  destruct (sl_transform_direct_to_host ctx surface width height)
    as [[w h]|]; cbn [bind]; [|reflexivity].
  do 3 f_equal.
  - destruct (Z.leb_spec w 0); lia.
  - destruct (Z.leb_spec h 0); lia.
Qed.

(** ** Window scale negotiation *)

(** A surface without override and without rounding flags transforms
    like the null surface. *)
Lemma neutral_surface_like_null (ctx : sl_context) (s : sl_host_surface) (w h : Z) :
  has_own_scale s = false ->
  scale_round_on_x s = false -> scale_round_on_y s = false ->
  full_cycle ctx (Some s) w h = full_cycle ctx None w h.
Proof.
  intros Hown Hrx Hry.
  unfold full_cycle, sl_transform_guest_to_host, sl_transform_host_to_guest,
    sl_transform_direct_to_host, sl_transform_direct_to_guest,
    sl_transform_get_scale_factors, round_on_x, round_on_y.
  rewrite Hown, Hrx, Hry, andb_false_r. reflexivity.
Qed.

(** The outcome of a direct-mode negotiation, branch by branch. *)
Lemma try_window_scale_cases
    (ctx : sl_context) (s s' : sl_host_surface) (w h : Z) :
  use_direct_scale ctx = true ->
  sl_transform_try_window_scale ctx s w h = Some s' ->
  exists lw lh rw rh,
    sl_transform_guest_to_host ctx None w h = Some (lw, lh) /\
    sl_transform_host_to_guest ctx None lw lh = Some (rw, rh) /\
    ((has_own_scale s' = false /\
      s' = sl_transform_reset_surface_scale ctx s /\
      ((rw = w /\ rh = h) \/ lw <= 0 \/ lh <= 0))
     \/
     (has_own_scale s' = true /\
      (rw <> w \/ rh <> h) /\ 0 < lw /\ 0 < lh /\
      exists rw' rh',
        full_cycle ctx (Some (install_override s w h lw lh)) w h
          = Some (rw', rh') /\
        xdg_scale_x s' = div (of_Z w) (of_Z lw) /\
        xdg_scale_y s' = div (of_Z h) (of_Z lh) /\
        cached_logical_width s' = lw /\
        cached_logical_height s' = lh /\
        scale_round_on_x s' = scale_round_on_x s || negb (rw' =? w) /\
        scale_round_on_y s' = scale_round_on_y s || negb (rh' =? h))).
Proof.
  intros Hd. unfold sl_transform_try_window_scale. rewrite Hd. cbn [negb].
  destruct (sl_transform_guest_to_host ctx None w h) as [[lw lh]|];
    cbn [bind]; [|discriminate].
  destruct (sl_transform_host_to_guest ctx None lw lh) as [[rw rh]|] eqn:Hh;
    cbn [bind]; [|discriminate].
  destruct (_ && _) eqn:Hc.
  - apply andb_prop in Hc as [Hmis Hc]. apply andb_prop in Hc as [Hlw Hlh].
    apply Z.gtb_lt in Hlw, Hlh.
    destruct (full_cycle _ _ _ _) as [[rw' rh']|] eqn:Hcycle;
      cbn [bind]; [|discriminate].
    intros [= <-]. exists lw, lh, rw, rh.
    split; [reflexivity|]. split; [exact Hh|]. right.
    assert (Hne : rw <> w \/ rh <> h).
    { destruct (Z.eqb_spec rw w), (Z.eqb_spec rh h); try discriminate; auto. }
    split.
    { destruct (negb (rw' =? w)), (negb (rh' =? h)); reflexivity. }
    split; [exact Hne|]. split; [lia|]. split; [lia|].
    exists rw', rh'. split; [exact Hcycle|].
    destruct (negb (rw' =? w)), (negb (rh' =? h)); cbn;
      rewrite ?orb_true_r, ?orb_false_r; repeat split.
  - intros [= <-]. exists lw, lh, rw, rh.
    split; [reflexivity|]. split; [exact Hh|]. left.
    split; [reflexivity|]. split; [reflexivity|].
    apply andb_false_iff in Hc as [Hc|Hc].
    + apply orb_false_iff in Hc as [H1 H2].
      apply negb_false_iff in H1, H2. apply Z.eqb_eq in H1, H2. auto.
    + apply andb_false_iff in Hc as [Hc|Hc];
        rewrite Z.gtb_ltb in Hc; apply Z.ltb_ge in Hc; auto.
Qed.

(** After a direct-mode negotiation with a positive logical size, the
    round trip with the negotiated surface is exact whenever no override
    was needed, and whenever the re-test with the installed override was
    exact. *)
Lemma round_trip_exact_cases
    (ctx : sl_context) (s s' : sl_host_surface) (w h lw lh : Z) :
  use_direct_scale ctx = true ->
  sl_transform_try_window_scale ctx s w h = Some s' ->
  sl_transform_guest_to_host ctx None w h = Some (lw, lh) ->
  0 < lw -> 0 < lh ->
  (has_own_scale s' = false \/
   full_cycle ctx (Some (install_override s w h lw lh)) w h = Some (w, h)) ->
  full_cycle ctx (Some s') w h = Some (w, h).
Proof.
  intros Hd Htry Hg Hlw Hlh Hcase.
  destruct (try_window_scale_cases ctx s s' w h Hd Htry)
    as (lw' & lh' & rw & rh & Hg' & Hh' & Hbranch).
  rewrite Hg in Hg'. injection Hg' as <- <-.
  destruct Hbranch as [(Hown & -> & Hexact) | (Hown & _ & _ & _ & rw' & rh' & Hc & Hsx & Hsy & Hcw & Hch & Hrx & Hry)].
  - rewrite neutral_surface_like_null by reflexivity.
    unfold full_cycle. rewrite Hg. cbn [bind]. rewrite Hh'.
    destruct Hexact as [[-> ->]|[?|?]]; [reflexivity | lia | lia].
  - destruct Hcase as [Hno|Hex]; [congruence|].
    rewrite Hex in Hc. injection Hc as <- <-.
    rewrite !Z.eqb_refl in *. cbn [negb] in *. rewrite orb_false_r in *.
    assert (Heq : s' = install_override s w h lw lh).
    { destruct s'. cbn in *. unfold install_override. congruence. }
    rewrite Heq. exact Hex.
Qed.

(** C1 (the code at a failing input): after a direct-mode negotiation
    with a positive logical size the round trip with the negotiated surface
    is exact when no override was needed and when the re-test with the
    installed override was exact; it can fail when the re-test was not.
    With default factors 1.25, negotiating the positive size 129 x 100 on a
    fresh surface gives the positive logical size 103 x 80 and installs the
    override 129/103; with it guest to host takes 129 to 102, not 103, and
    the way back, rounded to nearest, gives 128: the round trip with the
    negotiated surface yields 128 x 100, not 129 x 100. *)
Theorem C1_round_trip_fails_at_129 :
  (forall ctx s s' w h lw lh,
      use_direct_scale ctx = true ->
      sl_transform_try_window_scale ctx s w h = Some s' ->
      sl_transform_guest_to_host ctx None w h = Some (lw, lh) ->
      0 < lw -> 0 < lh ->
      (has_own_scale s' = false \/
       full_cycle ctx (Some (install_override s w h lw lh)) w h = Some (w, h)) ->
      full_cycle ctx (Some s') w h = Some (w, h)) /\
  use_direct_scale ctx_direct_125 = true /\
  sl_transform_guest_to_host ctx_direct_125 None 129 100 = Some (103, 80) /\
  sl_transform_try_window_scale ctx_direct_125 fresh_surface 129 100
    = Some surface_129 /\
  sl_transform_guest_to_host ctx_direct_125 (Some surface_129) 129 100
    = Some (102, 80) /\
  sl_transform_host_to_guest ctx_direct_125 (Some surface_129) 102 80
    = Some (128, 100) /\
  full_cycle ctx_direct_125 (Some surface_129) 129 100 = Some (128, 100).
Proof.
  split; [exact round_trip_exact_cases|].
  repeat split; vm_compute; reflexivity.
Qed.

(** C2 (the code at a failing input): a direct-mode negotiation that
    installs an override sets [has_own_scale], sets the factors to
    [width / logical_width] and [height / logical_height] and caches the
    logical size, but it does not clear the rounding flags: the re-test
    runs with the flags the surface carried, and each flag ends true if it
    was true before or if its axis of the re-test was inexact.
    Negotiating 131 x 101 at 1.25 installs (131/104, 101/80) and caches
    104 x 80, and the truncating re-test is exact on both axes; on a fresh
    surface both flags end false, but on a surface that carries
    [scale_round_on_x = true] from negotiating 129 x 100 the flag ends
    true. *)
Theorem C2_stale_rounding_flag_survives :
  (forall ctx s s' w h,
      use_direct_scale ctx = true ->
      sl_transform_try_window_scale ctx s w h = Some s' ->
      has_own_scale s' = true ->
      exists lw lh rw' rh',
        sl_transform_guest_to_host ctx None w h = Some (lw, lh) /\
        0 < lw /\ 0 < lh /\
        full_cycle ctx (Some (install_override s w h lw lh)) w h
          = Some (rw', rh') /\
        xdg_scale_x s' = div (of_Z w) (of_Z lw) /\
        xdg_scale_y s' = div (of_Z h) (of_Z lh) /\
        cached_logical_width s' = lw /\
        cached_logical_height s' = lh /\
        scale_round_on_x s' = scale_round_on_x s || negb (rw' =? w) /\
        scale_round_on_y s' = scale_round_on_y s || negb (rh' =? h)) /\
  sl_transform_try_window_scale ctx_direct_125 fresh_surface 129 100
    = Some surface_129 /\
  scale_round_on_x surface_129 = true /\
  sl_transform_try_window_scale ctx_direct_125 fresh_surface 131 101
    = Some surface_131_fresh /\
  full_cycle ctx_direct_125 (Some surface_131_fresh) 131 101 = Some (131, 101) /\
  scale_round_on_x surface_131_fresh = false /\
  sl_transform_try_window_scale ctx_direct_125 surface_129 131 101
    = Some surface_131_stale /\
  has_own_scale surface_131_stale = true /\
  scale_round_on_x surface_131_stale = true.
Proof.
  split; [|repeat split; vm_compute; reflexivity].
  intros ctx s s' w h Hd Htry Hown.
  destruct (try_window_scale_cases ctx s s' w h Hd Htry)
    as (lw & lh & rw & rh & Hg & _ & [(Hno & _) | (_ & _ & Hlw & Hlh & rw' & rh' & Hrest)]).
  - congruence.
  - exists lw, lh, rw', rh'. repeat split; try assumption; apply Hrest.
Qed.

(** ** Unit scale *)

Lemma whole_of_Z (flag : bool) (n : Z) :
  Z.abs n < 2 ^ 53 -> whole flag (of_Z n) = Some (of_Z n).
Proof.
  intros H. unfold whole, lround. destruct flag.
  - rewrite round_of_Z, to_int64_of_Z by assumption. reflexivity.
  - rewrite trunc_of_Z by assumption. reflexivity.
Qed.

Lemma mul_one_one : mul one one = one.
Proof. reflexivity. Qed.

Section FixedPoint.

Variable f : Z.
Hypothesis Hf : int32 f.

Lemma fixed_times_one : mul (wl_fixed_to_double f) one = wl_fixed_to_double f.
Proof.
  unfold wl_fixed_to_double. change (of_Z 256) with (pow2 8).
  destruct (Z.eq_dec f 0) as [->|Hz]; [reflexivity|].
  destruct (of_Z_normal f) as (m & e & Hof & Hd & He & Hm);
    [pose proof (int32_exact f Hf); lia|].
  rewrite Hof, div_pow2, one_pow2, mul_pow2 by (assumption || lia).
  f_equal. lia.
Qed.

Lemma fixed_over_one : div (wl_fixed_to_double f) one = wl_fixed_to_double f.
Proof.
  unfold wl_fixed_to_double. change (of_Z 256) with (pow2 8).
  destruct (Z.eq_dec f 0) as [->|Hz]; [reflexivity|].
  destruct (of_Z_normal f) as (m & e & Hof & Hd & He & Hm);
    [pose proof (int32_exact f Hf); lia|].
  rewrite Hof, div_pow2, one_pow2, div_pow2 by (assumption || lia).
  f_equal. lia.
Qed.

Lemma fixed_round_trip : wl_fixed_from_double (wl_fixed_to_double f) = Some f.
Proof.
  unfold wl_fixed_from_double, wl_fixed_to_double.
  change (of_Z 256) with (pow2 8).
  pose proof (int32_exact f Hf).
  rewrite mul_pow2_of_Z_div, round_of_Z by (assumption || lia).
  apply to_int32_of_Z; assumption.
Qed.

End FixedPoint.

Lemma unit_factors (ctx : sl_context) (surface : option sl_host_surface) :
  use_direct_scale ctx = true -> unit_scale ctx -> no_override surface ->
  sl_transform_get_scale_factors ctx surface = (one, one).
Proof.
  unfold unit_scale, no_override. intros Hd Hu Hno.
  rewrite Hd in Hu. destruct Hu as [Hx Hy].
  rewrite resolver_amended. unfold resolve_amended, default_factors.
  rewrite Hno, andb_false_r, Hx, Hy. reflexivity.
Qed.

Section UnitScale.

Variable ctx : sl_context.
Variable surface : option sl_host_surface.
Hypothesis Hunit : unit_scale ctx.
Hypothesis Hno : no_override surface.

Lemma legacy_unit : use_direct_scale ctx = false -> scale ctx = one.
Proof. intros Hd. unfold unit_scale in Hunit. rewrite Hd in Hunit. exact Hunit. Qed.

Lemma unit_guest_to_host (x y : Z) :
  int32 x -> int32 y -> sl_transform_guest_to_host ctx surface x y = Some (x, y).
Proof.
  intros Hx Hy. pose proof (int32_exact x Hx). pose proof (int32_exact y Hy).
  unfold sl_transform_guest_to_host, sl_transform_direct_to_host.
  destruct (use_direct_scale ctx) eqn:Hd.
  - rewrite unit_factors by assumption.
    rewrite !div_one, !trunc_of_Z, !to_int32_of_Z by assumption. reflexivity.
  - rewrite legacy_unit by assumption.
    rewrite !div_one, !to_int32_of_Z by assumption. reflexivity.
Qed.

Lemma unit_host_to_guest (x y : Z) :
  int32 x -> int32 y -> sl_transform_host_to_guest ctx surface x y = Some (x, y).
Proof.
  intros Hx Hy. pose proof (int32_exact x Hx). pose proof (int32_exact y Hy).
  unfold sl_transform_host_to_guest, sl_transform_direct_to_guest.
  destruct (use_direct_scale ctx) eqn:Hd.
  - rewrite unit_factors by assumption.
    rewrite !mul_one_l, !whole_of_Z by assumption. cbn [bind].
    rewrite !to_int32_of_Z by assumption. reflexivity.
  - rewrite legacy_unit by assumption.
    rewrite !mul_one_r, !to_int32_of_Z by assumption. reflexivity.
Qed.

Lemma unit_axis_scale (axis : Z) :
  use_direct_scale ctx = true ->
  sl_transform_direct_axis_scale ctx surface axis = one.
Proof.
  intros Hd. unfold sl_transform_direct_axis_scale.
  rewrite unit_factors by assumption. destruct (axis =? 0); reflexivity.
Qed.

Lemma unit_guest_to_host_fixed (x y : Z) :
  int32 x -> int32 y ->
  sl_transform_guest_to_host_fixed ctx surface x y = Some (x, y).
Proof.
  intros Hx Hy.
  unfold sl_transform_guest_to_host_fixed, sl_transform_direct_to_host_fixed.
  destruct (use_direct_scale ctx) eqn:Hd.
  - rewrite unit_factors by assumption.
    rewrite !fixed_over_one, !fixed_round_trip by assumption. reflexivity.
  - rewrite legacy_unit by assumption.
    rewrite !fixed_over_one, !fixed_round_trip by assumption. reflexivity.
Qed.

Lemma unit_host_to_guest_fixed (x y : Z) :
  int32 x -> int32 y ->
  sl_transform_host_to_guest_fixed ctx surface x y = Some (x, y).
Proof.
  intros Hx Hy.
  unfold sl_transform_host_to_guest_fixed, sl_transform_direct_to_guest_fixed.
  destruct (use_direct_scale ctx) eqn:Hd.
  - rewrite unit_factors by assumption.
    rewrite !fixed_times_one, !fixed_round_trip by assumption. reflexivity.
  - rewrite legacy_unit by assumption.
    rewrite !fixed_times_one, !fixed_round_trip by assumption. reflexivity.
Qed.

Lemma unit_guest_to_host_fixed_axis (coord axis : Z) :
  int32 coord ->
  sl_transform_guest_to_host_fixed_axis ctx surface coord axis = Some coord.
Proof.
  intros Hc.
  unfold sl_transform_guest_to_host_fixed_axis,
    sl_transform_direct_to_host_fixed_axis.
  destruct (use_direct_scale ctx) eqn:Hd.
  - rewrite unit_axis_scale by assumption.
    rewrite fixed_over_one, fixed_round_trip by assumption. reflexivity.
  - rewrite legacy_unit by assumption.
    rewrite fixed_over_one, fixed_round_trip by assumption. reflexivity.
Qed.

Lemma unit_host_to_guest_fixed_axis (coord axis : Z) :
  int32 coord ->
  sl_transform_host_to_guest_fixed_axis ctx surface coord axis = Some coord.
Proof.
  intros Hc.
  unfold sl_transform_host_to_guest_fixed_axis,
    sl_transform_direct_to_guest_fixed_axis.
  destruct (use_direct_scale ctx) eqn:Hd.
  - rewrite unit_axis_scale by assumption.
    rewrite fixed_times_one, fixed_round_trip by assumption. reflexivity.
  - rewrite legacy_unit by assumption.
    rewrite fixed_times_one, fixed_round_trip by assumption. reflexivity.
Qed.

Lemma unit_viewport (width height : Z) :
  int32 width -> int32 height ->
  sl_transform_viewport_scale ctx surface one width height
    = Some (true,
            if use_direct_scale ctx then Z.max 1 width else width,
            if use_direct_scale ctx then Z.max 1 height else height).
Proof.
  intros Hw Hh. rewrite viewport_refines.
  unfold viewport_direct_spec, viewport_legacy_spec.
  destruct (use_direct_scale ctx) eqn:Hd.
  - rewrite unit_guest_to_host by assumption. reflexivity.
  - pose proof (int32_exact width Hw). pose proof (int32_exact height Hh).
    rewrite legacy_unit, mul_one_one by assumption.
    rewrite !div_one, !ceil_of_Z, !to_int32_of_Z by assumption. reflexivity.
Qed.

Lemma unit_damage (MIN_SIZE MAX_SIZE : Z) (r : rect) :
  small_rect r -> small MIN_SIZE -> small MAX_SIZE ->
  sl_transform_damage_coord MIN_SIZE MAX_SIZE ctx surface one one r
    = Some (if use_direct_scale ctx then r
            else outset_clamped MIN_SIZE MAX_SIZE r).
Proof.
  intros (H1 & H2 & H3 & H4) Hmin Hmax. unfold small in *.
  destruct (use_direct_scale ctx) eqn:Hd.
  - rewrite damage_direct_refines by assumption.
    unfold damage_direct_spec, scaled_down_trunc.
    rewrite unit_factors by assumption. cbn [fst snd].
    rewrite mul_one_one.
    rewrite !div_one, !trunc_of_Z, !to_int64_of_Z by lia.
    destruct r; reflexivity.
  - rewrite damage_legacy_refines by assumption.
    unfold damage_legacy_spec, scaled_down, scaled_down_ceil, outset,
      outset_clamped, checked64.
    rewrite legacy_unit, mul_one_one by assumption.
    replace (INT64_MIN <=? rx1 r - 1) with true
      by (symmetry; apply Z.leb_le; unfold INT64_MIN; lia).
    replace (rx1 r - 1 <=? INT64_MAX) with true
      by (symmetry; apply Z.leb_le; unfold INT64_MAX; lia).
    replace (INT64_MIN <=? ry1 r - 1) with true
      by (symmetry; apply Z.leb_le; unfold INT64_MIN; lia).
    replace (ry1 r - 1 <=? INT64_MAX) with true
      by (symmetry; apply Z.leb_le; unfold INT64_MAX; lia).
    replace (INT64_MIN <=? rx2 r + 1) with true
      by (symmetry; apply Z.leb_le; unfold INT64_MIN; lia).
    replace (rx2 r + 1 <=? INT64_MAX) with true
      by (symmetry; apply Z.leb_le; unfold INT64_MAX; lia).
    replace (INT64_MIN <=? ry2 r + 1) with true
      by (symmetry; apply Z.leb_le; unfold INT64_MIN; lia).
    replace (ry2 r + 1 <=? INT64_MAX) with true
      by (symmetry; apply Z.leb_le; unfold INT64_MAX; lia).
    cbn [andb bind]. unfold clamp_rect. cbn [rx1 ry1 rx2 ry2].
    rewrite !div_one, !ceil_of_Z, !to_int64_of_Z by lia.
    reflexivity.
Qed.

Lemma unit_output_dimensions (width height : Z) :
  scale ctx = one -> int32 width -> int32 height ->
  sl_transform_output_dimensions ctx width height = Some (width, height).
Proof.
  intros Hs Hw Hh. pose proof (int32_exact width Hw).
  pose proof (int32_exact height Hh).
  unfold sl_transform_output_dimensions. rewrite Hs.
  rewrite !mul_one_r, !to_int32_of_Z by assumption. reflexivity.
Qed.

End UnitScale.

(** C6 (as stated, refuted): at unit scale with no override four
    transforms are not the identity: the output-dimension transform in
    direct mode still multiplies by the legacy factor (here 2), the legacy
    damage transform outsets the rectangle by one pixel, the direct
    viewport transform raises a zero size to 1, and the direct damage
    transform loses the low bit of the 64-bit coordinate [2^53 + 1]. *)
Lemma C6_unit_scale_counterexample :
  unit_scale ctx_direct_unit_legacy_2 /\ no_override None /\
  sl_transform_output_dimensions ctx_direct_unit_legacy_2 10 20 = Some (20, 40) /\
  unit_scale ctx_legacy_1 /\
  sl_transform_damage_coord MIN_SIZE_default MAX_SIZE_default
      ctx_legacy_1 None one one (mk_rect 10 10 20 20)
    = Some (mk_rect 9 9 21 21) /\
  unit_scale ctx_direct_1 /\
  sl_transform_viewport_scale ctx_direct_1 None one 0 0 = Some (true, 1, 1) /\
  sl_transform_damage_coord MIN_SIZE_default MAX_SIZE_default
      ctx_direct_1 None one one (mk_rect 0 0 (2 ^ 53 + 1) 1)
    = Some (mk_rect 0 0 (2 ^ 53) 1).
Proof. repeat split; vm_compute; reflexivity. Qed.

(** C6 (amended): with the legacy factor 1.0 in legacy mode, or both
    direct-mode defaults 1.0 and no override in direct mode, the integer
    transforms and the fixed-point transforms (pair and single-axis), in
    both directions, are the identity on 32-bit coordinates; the viewport
    transform with [contents_scale = 1] is the identity in legacy mode and
    raises each dimension to at least 1 in direct mode; the damage
    transform with buffer scales 1 is the identity in direct mode and
    returns the rectangle outset by one pixel (cut to
    [[MIN_SIZE, MAX_SIZE]]) in legacy mode; the output-dimension transform
    is the identity when the legacy factor is 1.0, in either mode. *)
Theorem C6_unit_scale_transforms
    (MIN_SIZE MAX_SIZE : Z) (ctx : sl_context)
    (surface : option sl_host_surface) (x y axis : Z) (r : rect)
    (Hunit : unit_scale ctx) (Hno : no_override surface)
    (Hx : int32 x) (Hy : int32 y)
    (Hr : small_rect r) (Hmin : small MIN_SIZE) (Hmax : small MAX_SIZE) :
  sl_transform_guest_to_host ctx surface x y = Some (x, y) /\
  sl_transform_host_to_guest ctx surface x y = Some (x, y) /\
  sl_transform_guest_to_host_fixed ctx surface x y = Some (x, y) /\
  sl_transform_host_to_guest_fixed ctx surface x y = Some (x, y) /\
  sl_transform_guest_to_host_fixed_axis ctx surface x axis = Some x /\
  sl_transform_host_to_guest_fixed_axis ctx surface x axis = Some x /\
  sl_transform_viewport_scale ctx surface one x y
    = Some (true,
            if use_direct_scale ctx then Z.max 1 x else x,
            if use_direct_scale ctx then Z.max 1 y else y) /\
  sl_transform_damage_coord MIN_SIZE MAX_SIZE ctx surface one one r
    = Some (if use_direct_scale ctx then r
            else outset_clamped MIN_SIZE MAX_SIZE r) /\
  (scale ctx = one ->
   sl_transform_output_dimensions ctx x y = Some (x, y)).
Proof.
  repeat split.
  - apply unit_guest_to_host; assumption.
  - apply unit_host_to_guest; assumption.
  - apply unit_guest_to_host_fixed; assumption.
  - apply unit_host_to_guest_fixed; assumption.
  - apply unit_guest_to_host_fixed_axis; assumption.
  - apply unit_host_to_guest_fixed_axis; assumption.
  - apply unit_viewport; assumption.
  - apply unit_damage; assumption.
  - intros Hs. apply unit_output_dimensions; assumption.
Qed.

Lemma C6_unit_scale_transforms_witness :
  unit_scale ctx_direct_1 /\ no_override (Some fresh_surface) /\
  int32 100 /\ int32 (-50) /\
  sl_transform_guest_to_host ctx_direct_1 (Some fresh_surface) 100 (-50)
    = Some (100, -50) /\
  sl_transform_host_to_guest_fixed ctx_direct_1 (Some fresh_surface) 100 (-50)
    = Some (100, -50).
Proof.
  assert (Hu : unit_scale ctx_direct_1) by (split; reflexivity).
  assert (Hn : no_override (Some fresh_surface)) by reflexivity.
  assert (Hx : int32 100) by (unfold int32, INT32_MIN, INT32_MAX; lia).
  assert (Hy : int32 (-50)) by (unfold int32, INT32_MIN, INT32_MAX; lia).
  assert (Hr : small_rect (mk_rect 10 10 20 20))
    by (unfold small_rect, small; simpl; lia).
  assert (Hmin : small MIN_SIZE_default)
    by (unfold small, MIN_SIZE_default; lia).
  assert (Hmax : small MAX_SIZE_default)
    by (unfold small, MAX_SIZE_default; lia).
  pose proof (C6_unit_scale_transforms MIN_SIZE_default MAX_SIZE_default
                ctx_direct_1 (Some fresh_surface) 100 (-50) 0
                (mk_rect 10 10 20 20) Hu Hn Hx Hy Hr Hmin Hmax)
    as (Hg & _ & _ & Hf & _).
  repeat split; assumption || (unfold int32, INT32_MIN, INT32_MAX; lia).
Defined.

(** ** Positivity of the factors divided by *)

(** What a successful negotiation that ends with an override has
    established. *)
Lemma try_window_scale_installed
    (ctx : sl_context) (s s' : sl_host_surface) (w h : Z) :
  use_direct_scale ctx = true ->
  sl_transform_try_window_scale ctx s w h = Some s' ->
  has_own_scale s' = true ->
  sl_transform_guest_to_host ctx None w h
    = Some (cached_logical_width s', cached_logical_height s') /\
  0 < cached_logical_width s' /\ 0 < cached_logical_height s' /\
  xdg_scale_x s' = div (of_Z w) (of_Z (cached_logical_width s')) /\
  xdg_scale_y s' = div (of_Z h) (of_Z (cached_logical_height s')).
Proof.
  intros Hd Htry Hown.
  destruct (try_window_scale_cases ctx s s' w h Hd Htry)
    as (lw & lh & rw & rh & Hg & _ & [(Hno & _) | (_ & _ & Hlw & Hlh & rw' & rh' & _ & Hsx & Hsy & Hcw & Hch & _)]).
  - congruence.
  - rewrite Hcw, Hch. repeat split; assumption.
Qed.

Lemma try_window_scale_positive
    (ctx : sl_context) (s s' : sl_host_surface) (w h : Z) :
  ctx_positive ctx = true -> use_direct_scale ctx = true ->
  int32 w -> int32 h ->
  sl_transform_try_window_scale ctx s w h = Some s' ->
  has_own_scale s' = true ->
  0 < w /\ 0 < h /\
  is_pos (xdg_scale_x s') = true /\ is_pos (xdg_scale_y s') = true.
Proof.
  intros Hpos Hd Hw Hh Htry Hown.
  destruct (try_window_scale_installed ctx s s' w h Hd Htry Hown)
    as (Hg & Hlw & Hlh & Hsx & Hsy).
  unfold ctx_positive in Hpos.
  apply andb_prop in Hpos as [Hpos Hpy]. apply andb_prop in Hpos as [_ Hpx].
  unfold sl_transform_guest_to_host, sl_transform_direct_to_host in Hg.
  rewrite Hd in Hg. cbn [sl_transform_get_scale_factors] in Hg.
  destruct (to_int32 (trunc (div (of_Z w) _))) as [lw|] eqn:Hcw;
    cbn [bind] in Hg; [|discriminate].
  destruct (to_int32 (trunc (div (of_Z h) _))) as [lh|] eqn:Hch;
    cbn [bind] in Hg; [|discriminate].
  injection Hg as Hlw' Hlh'. rewrite <- Hlw' in *. rewrite <- Hlh' in *.
  pose proof (logical_pos_pixel_pos _ _ _ _ _ Hpx Hcw Hlw) as Hw0.
  pose proof (logical_pos_pixel_pos _ _ _ _ _ Hpy Hch Hlh) as Hh0.
  pose proof (to_int32_range _ _ Hcw) as Hrw.
  pose proof (to_int32_range _ _ Hch) as Hrh.
  pose proof (int32_exact _ Hw). pose proof (int32_exact _ Hh).
  pose proof (int32_exact _ Hrw). pose proof (int32_exact _ Hrh).
  rewrite Hsx, Hsy.
  repeat split; try assumption; apply div_of_Z_pos; lia.
Qed.


(** The integer and the fixed-point guest-to-host transforms divide by
    [guest_to_host_divisors], in both modes. *)
Lemma guest_to_host_divides
    (ctx : sl_context) (surface : option sl_host_surface) (x y : Z) :
  sl_transform_guest_to_host ctx surface x y
    = (x' <- to_int32 (guest_to_host_quotient ctx x
                         (fst (guest_to_host_divisors ctx surface))) ;;
       y' <- to_int32 (guest_to_host_quotient ctx y
                         (snd (guest_to_host_divisors ctx surface))) ;;
       Some (x', y')).
Proof.
  unfold sl_transform_guest_to_host, sl_transform_direct_to_host,
    guest_to_host_quotient, guest_to_host_divisors.
  destruct (use_direct_scale ctx); [|reflexivity].
  destruct (sl_transform_get_scale_factors ctx surface). reflexivity.
Qed.

Lemma guest_to_host_fixed_divides
    (ctx : sl_context) (surface : option sl_host_surface) (x y : Z) :
  sl_transform_guest_to_host_fixed ctx surface x y
    = (x' <- wl_fixed_from_double
               (div (wl_fixed_to_double x)
                    (fst (guest_to_host_divisors ctx surface))) ;;
       y' <- wl_fixed_from_double
               (div (wl_fixed_to_double y)
                    (snd (guest_to_host_divisors ctx surface))) ;;
       Some (x', y')).
Proof.
  unfold sl_transform_guest_to_host_fixed, sl_transform_direct_to_host_fixed,
    guest_to_host_divisors.
  destruct (use_direct_scale ctx); [|reflexivity].
  destruct (sl_transform_get_scale_factors ctx surface). reflexivity.
Qed.




(** * Further properties of the transforms *)

(** Two 53-digit mantissas of the same integer scaled by powers of two
    carry the same power. *)
Lemma canonical_unique (m1 m2 : positive) (a p q : Z) :
  Zpos (digits2_pos m1) = 53 -> Zpos (digits2_pos m2) = 53 ->
  0 <= p -> 0 <= q ->
  Zpos m1 = a * 2 ^ p -> Zpos m2 = a * 2 ^ q -> p = q.
Proof.
  intros H1 H2 Hp Hq E1 E2.
  apply digits_bounds in H1, H2.
  change (2 ^ (53 - 1)) with 4503599627370496 in *.
  change (2 ^ 53) with 9007199254740992 in *.
  assert (Ha : 0 < a).
  { assert (0 < 2 ^ p) by (apply Z.pow_pos_nonneg; lia). nia. }
  destruct (Z.lt_trichotomy p q) as [Hlt | [Heq | Hgt]]; [|assumption|].
  - exfalso.
    assert (E : 2 ^ q = 2 ^ p * 2 ^ (q - p))
      by (rewrite <- Z.pow_add_r by lia; f_equal; lia).
    assert (2 <= 2 ^ (q - p)).
    { change 2 with (2 ^ 1) at 1. apply Z.pow_le_mono_r; lia. }
    assert (0 < 2 ^ p) by (apply Z.pow_pos_nonneg; lia).
    rewrite E in E2. nia.
  - exfalso.
    assert (E : 2 ^ p = 2 ^ q * 2 ^ (p - q))
      by (rewrite <- Z.pow_add_r by lia; f_equal; lia).
    assert (2 <= 2 ^ (p - q)).
    { change 2 with (2 ^ 1) at 1. apply Z.pow_le_mono_r; lia. }
    assert (0 < 2 ^ q) by (apply Z.pow_pos_nonneg; lia).
    rewrite E in E1. nia.
Qed.

(** Multiplying an integer by [2^k] gives the double of the product. *)
Lemma mul_of_Z_pow2 (n k : Z) :
  0 <= k -> Z.abs (n * 2 ^ k) < 2 ^ 53 ->
  mul (of_Z n) (pow2 k) = of_Z (n * 2 ^ k).
Proof.
  intros Hk Hb.
  assert (Hpow : 1 <= 2 ^ k) by (apply (Z.pow_le_mono_r 2 0 k); lia).
  destruct (Z.eq_dec n 0) as [->|Hz]; [reflexivity|].
  assert (Hn : Z.abs n < 2 ^ 53) by (rewrite Z.abs_mul in Hb; nia).
  assert (Hk' : k < 53).
  { destruct (Z.lt_ge_cases k 53) as [|Hge]; [assumption|].
    assert (2 ^ 53 <= 2 ^ k) by (apply Z.pow_le_mono_r; lia).
    rewrite Z.abs_mul in Hb. nia. }
  destruct (of_Z_normal n) as (m & e & Hof & Hd & He & Hm); [lia|].
  destruct (of_Z_normal (n * 2 ^ k)) as (m' & e' & Hof' & Hd' & He' & Hm');
    [nia|].
  rewrite Hof, Hof', mul_pow2 by (assumption || lia).
  assert (Hs : (n * 2 ^ k <? 0) = (n <? 0)).
  { destruct (Z.ltb_spec n 0), (Z.ltb_spec (n * 2 ^ k) 0); try reflexivity; nia. }
  rewrite Hs.
  assert (Hm'' : Zpos m' = Z.abs n * 2 ^ (k - e')).
  { rewrite Hm', Z.abs_mul, (Z.abs_eq (2 ^ k)) by lia.
    rewrite <- Z.mul_assoc, <- Z.pow_add_r by lia. reflexivity. }
  assert (Heq : - e = k - e')
    by (apply (canonical_unique m m' (Z.abs n)); assumption || lia).
  assert (Hmm : Zpos m = Zpos m') by (rewrite Hm, Hm'', Heq; reflexivity).
  injection Hmm as ->. f_equal. lia.
Qed.

(** The product of two powers of two. *)
Lemma mul_pow2_pow2 (a b : Z) :
  -1022 <= a + b <= 1023 -> mul (pow2 a) (pow2 b) = pow2 (a + b).
Proof.
  intros H. unfold pow2 at 1. rewrite mul_pow2 by (reflexivity || lia).
  unfold pow2. f_equal. lia.
Qed.

(** Dividing an integer by [2^k] and converting drops the fraction. *)
Lemma to_int_div_pow2 (n k lo hi : Z) :
  Z.abs n < 2 ^ 53 -> 0 <= k <= 900 -> lo <= 0 <= hi ->
  lo <= Z.quot n (2 ^ k) <= hi ->
  to_int lo hi (div (of_Z n) (pow2 k)) = Some (Z.quot n (2 ^ k)).
Proof.
  intros Hn Hk H0 Hr.
  destruct (Z.eq_dec n 0) as [->|Hz]; [reflexivity|].
  destruct (of_Z_normal n) as (m & e & Hof & Hd & He & Hm); [lia|].
  assert (Hpow : 0 < 2 ^ k) by (apply Z.pow_pos_nonneg; lia).
  assert (Hq : int_part m (e - k) = Z.abs n / 2 ^ k).
  { unfold int_part.
    rewrite Hm, <- Z.shiftl_mul_pow2, Z.shiftl_shiftl by lia.
    replace (- e + (e - k)) with (- k) by lia.
    rewrite Z.shiftl_opp_r. apply Z.shiftr_div_pow2. lia. }
  assert (Hquot : cond_Zopp (n <? 0) (Z.abs n / 2 ^ k) = Z.quot n (2 ^ k)).
  { rewrite Z.quot_div by lia. rewrite (Z.sgn_pos (2 ^ k)) by assumption.
    rewrite (Z.abs_eq (2 ^ k)) by lia.
    unfold cond_Zopp. destruct (Z.ltb_spec n 0).
    - rewrite Z.sgn_neg by assumption. lia.
    - rewrite Z.sgn_pos by lia. lia. }
  rewrite Hof, div_pow2 by (assumption || lia).
  unfold to_int. rewrite Hq, Hquot.
  replace (lo <=? _) with true by (symmetry; apply Z.leb_le; lia).
  replace (_ <=? hi) with true by (symmetry; apply Z.leb_le; lia).
  reflexivity.
Qed.

(** Dividing an integer by [2^k], rounding up and converting. *)
Lemma to_int_ceil_div_pow2 (n k lo hi : Z) :
  Z.abs n <= 2 ^ 52 -> 0 <= k <= 900 -> lo <= 0 <= hi ->
  lo <= cdiv n (2 ^ k) <= hi ->
  to_int lo hi (ceil (div (of_Z n) (pow2 k))) = Some (cdiv n (2 ^ k)).
Proof.
  intros Hn Hk H0 Hr.
  change (2 ^ 52) with 4503599627370496 in Hn.
  assert (Hn' : Z.abs n < 2 ^ 53)
    by (change (2 ^ 53) with 9007199254740992; lia).
  destruct (Z.eq_dec n 0) as [->|Hz]; [reflexivity|].
  destruct (of_Z_normal n) as (m & e & Hof & Hd & He & Hm); [lia|].
  assert (Hpow : 0 < 2 ^ k) by (apply Z.pow_pos_nonneg; lia).
  assert (Hq : int_part m (e - k) = Z.abs n / 2 ^ k).
  { unfold int_part.
    rewrite Hm, <- Z.shiftl_mul_pow2, Z.shiftl_shiftl by lia.
    replace (- e + (e - k)) with (- k) by lia.
    rewrite Z.shiftl_opp_r. apply Z.shiftr_div_pow2. lia. }
  pose proof (Z.div_mod (Z.abs n) (2 ^ k) ltac:(lia)) as Hdm.
  pose proof (Z.mod_pos_bound (Z.abs n) (2 ^ k) Hpow) as Hmb.
  assert (Hqb : 0 <= Z.abs n / 2 ^ k <= Z.abs n).
  { split; [apply Z.div_pos; lia|].
    apply Z.div_le_upper_bound; [lia|]. nia. }
  rewrite Hof, div_pow2 by (assumption || lia).
  assert (Hc : (if n <? 0 then - (Z.abs n / 2 ^ k)
                else if Z.shiftl (Z.abs n / 2 ^ k) (- (e - k)) =? Zpos m
                     then Z.abs n / 2 ^ k else Z.abs n / 2 ^ k + 1)
               = cdiv n (2 ^ k)).
  { unfold cdiv. destruct (Z.ltb_spec n 0) as [Hneg|Hpos].
    - rewrite Z.abs_neq by lia. reflexivity.
    - rewrite Z.abs_eq in * by lia.
      rewrite Z.shiftl_mul_pow2, Hm by lia.
      replace (2 ^ (- (e - k))) with (2 ^ k * 2 ^ (- e))
        by (rewrite <- Z.pow_add_r by lia; f_equal; lia).
      assert (He2 : 0 < 2 ^ (- e)) by (apply Z.pow_pos_nonneg; lia).
      destruct (Z.eqb_spec (n / 2 ^ k * (2 ^ k * 2 ^ (- e))) (n * 2 ^ (- e)))
        as [Hex|Hnex].
      + assert (Hmul : n = 2 ^ k * (n / 2 ^ k)) by nia.
        assert (Hd0 : - (n / 2 ^ k) = - n / 2 ^ k).
        { apply (Z.div_unique _ _ _ 0); lia. }
        lia.
      + assert (Hr0 : n mod 2 ^ k <> 0) by (intros Hr0; apply Hnex; nia).
        assert (Hd1 : - (n / 2 ^ k + 1) = - n / 2 ^ k).
        { apply (Z.div_unique _ _ _ (2 ^ k - n mod 2 ^ k)); lia. }
        lia. }
  unfold ceil. destruct (Z.leb_spec 0 (e - k)) as [Hge|Hlt].
  - assert (e = 0 /\ k = 0) as [-> ->] by lia.
    unfold to_int. rewrite Hq.
    change (2 ^ 0) with 1 in *. rewrite Z.div_1_r. 
    unfold cdiv in *. rewrite Z.div_1_r in *. rewrite cond_Zopp_abs.
    replace (- - n) with n in * by lia.
    replace (lo <=? n) with true by (symmetry; apply Z.leb_le; lia).
    replace (n <=? hi) with true by (symmetry; apply Z.leb_le; lia).
    reflexivity.
  - cbv zeta. rewrite Hq, Hc.
    destruct (Z.eq_dec (cdiv n (2 ^ k)) 0) as [Hc0|Hc0].
    + rewrite Hc0. reflexivity.
    + rewrite binary_normalize_nonzero by assumption.
      apply to_int_of_Z; [|assumption].
      rewrite <- Hc. change (2 ^ 53) with 9007199254740992.
      destruct (n <? 0); [lia|]. destruct (_ =? _); lia.
Qed.

(** ** Integer transforms at a power-of-two scale *)

Lemma quot_pow2_int32 (n k : Z) : 0 <= k -> int32 n -> int32 (Z.quot n (2 ^ k)).
Proof.
  intros Hk Hn.
  assert (Hpow : 1 <= 2 ^ k) by (apply (Z.pow_le_mono_r 2 0 k); lia).
  unfold int32, INT32_MIN, INT32_MAX in *.
  change (- 2 ^ 31) with (-2147483648) in *.
  change (2 ^ 31 - 1) with 2147483647 in *.
  destruct (Z.le_gt_cases 0 n).
  - pose proof (Z.quot_pos n (2 ^ k) ltac:(lia) ltac:(lia)).
    assert (Z.quot n (2 ^ k) <= n); [|lia].
    rewrite Z.quot_div_nonneg by lia.
    apply Z.div_le_upper_bound; [lia|]. nia.
  - assert (Hopp : Z.quot n (2 ^ k) = - Z.quot (- n) (2 ^ k)).
    { rewrite Z.quot_opp_l by lia. lia. }
    rewrite Hopp.
    pose proof (Z.quot_pos (- n) (2 ^ k) ltac:(lia) ltac:(lia)).
    assert (Z.quot (- n) (2 ^ k) <= - n); [|lia].
    rewrite Z.quot_div_nonneg by lia.
    apply Z.div_le_upper_bound; [lia|]. nia.
Qed.

Lemma pow2_factors (ctx : sl_context) (surface : option sl_host_surface) (k : Z) :
  use_direct_scale ctx = true -> pow2_scale ctx k -> no_override surface ->
  sl_transform_get_scale_factors ctx surface = (pow2 k, pow2 k).
Proof.
  unfold pow2_scale, no_override. intros Hd Hp Hno.
  rewrite Hd in Hp. destruct Hp as [Hx Hy].
  rewrite resolver_amended. unfold resolve_amended, default_factors.
  rewrite Hno, andb_false_r, Hx, Hy. reflexivity.
Qed.

Lemma legacy_pow2 (ctx : sl_context) (k : Z) :
  use_direct_scale ctx = false -> pow2_scale ctx k -> scale ctx = pow2 k.
Proof. unfold pow2_scale. intros ->. trivial. Qed.

Section PowerOfTwoScale.

Variable ctx : sl_context.
Variable surface : option sl_host_surface.
Variable k : Z.
Hypothesis Hscale : pow2_scale ctx k.
Hypothesis Hno : no_override surface.
Hypothesis Hk : 0 <= k <= 30.

Lemma pow2_guest_to_host (x y : Z) :
  int32 x -> int32 y ->
  sl_transform_guest_to_host ctx surface x y
    = Some (Z.quot x (2 ^ k), Z.quot y (2 ^ k)).
Proof.
  intros Hx Hy.
  pose proof (quot_pow2_int32 x k ltac:(lia) Hx) as Hqx.
  pose proof (quot_pow2_int32 y k ltac:(lia) Hy) as Hqy.
  pose proof (int32_exact x Hx). pose proof (int32_exact y Hy).
  unfold sl_transform_guest_to_host, sl_transform_direct_to_host.
  destruct (use_direct_scale ctx) eqn:Hd.
  - rewrite (pow2_factors ctx surface k) by assumption. unfold to_int32.
    rewrite !to_int_trunc_div_pow2;
      try reflexivity; try assumption; try lia;
      unfold INT32_MIN, INT32_MAX; lia.
  - rewrite (legacy_pow2 ctx k) by assumption. unfold to_int32.
    rewrite !to_int_div_pow2;
      try reflexivity; try assumption; try lia;
      unfold INT32_MIN, INT32_MAX; lia.
Qed.

Lemma pow2_host_to_guest (x y : Z) :
  int32 (x * 2 ^ k) -> int32 (y * 2 ^ k) ->
  sl_transform_host_to_guest ctx surface x y
    = Some (x * 2 ^ k, y * 2 ^ k).
Proof.
  intros Hx Hy.
  pose proof (int32_exact _ Hx). pose proof (int32_exact _ Hy).
  unfold sl_transform_host_to_guest, sl_transform_direct_to_guest.
  destruct (use_direct_scale ctx) eqn:Hd.
  - rewrite (pow2_factors ctx surface k) by assumption.
    rewrite !(mul_comm (pow2 k)), !mul_of_Z_pow2 by (assumption || lia).
    rewrite !whole_of_Z by assumption. cbn [bind].
    rewrite !to_int32_of_Z by assumption. reflexivity.
  - rewrite (legacy_pow2 ctx k) by assumption.
    rewrite !mul_of_Z_pow2 by (assumption || lia).
    rewrite !to_int32_of_Z by assumption. reflexivity.
Qed.

End PowerOfTwoScale.

(** X1: at a scale of [2^k] (legacy factor in legacy mode, defaults
    without override in direct mode) guest to host is division by [2^k]
    rounded toward zero, for negative coordinates too, and host to guest is
    multiplication by [2^k] whenever the product fits 32 bits, whatever the
    rounding flags are. *)
Theorem integer_transforms_pow2
    (ctx : sl_context) (surface : option sl_host_surface) (k x y : Z)
    (Hscale : pow2_scale ctx k) (Hno : no_override surface)
    (Hk : 0 <= k <= 30) (Hx : int32 x) (Hy : int32 y) :
  sl_transform_guest_to_host ctx surface x y
    = Some (Z.quot x (2 ^ k), Z.quot y (2 ^ k)) /\
  (int32 (x * 2 ^ k) -> int32 (y * 2 ^ k) ->
   sl_transform_host_to_guest ctx surface x y = Some (x * 2 ^ k, y * 2 ^ k)).
Proof.
  split.
  - apply pow2_guest_to_host; assumption.
  - apply pow2_host_to_guest; assumption.
Qed.

Lemma integer_transforms_pow2_witness :
  pow2_scale ctx_legacy_x2 1 /\ no_override None /\
  sl_transform_guest_to_host ctx_legacy_x2 None 101 (-51) = Some (50, -25) /\
  sl_transform_host_to_guest ctx_legacy_x2 None 101 (-51) = Some (202, -102).
Proof.
  assert (Hx : int32 101) by (unfold int32, INT32_MIN, INT32_MAX; lia).
  assert (Hy : int32 (-51)) by (unfold int32, INT32_MIN, INT32_MAX; lia).
  destruct (integer_transforms_pow2 ctx_legacy_x2 None 1 101 (-51)
              eq_refl eq_refl ltac:(lia) Hx Hy) as [Hg Hh].
  split; [reflexivity|]. split; [reflexivity|]. split; [exact Hg|].
  apply Hh; unfold int32, INT32_MIN, INT32_MAX; simpl; lia.
Defined.

Lemma quot_mul_rem (n d : Z) : d <> 0 -> Z.quot n d * d = n - Z.rem n d.
Proof. intros Hd. pose proof (Z.quot_rem n d Hd). lia. Qed.

Lemma quot_mul_int32 (n k : Z) :
  0 <= k -> int32 n -> int32 (Z.quot n (2 ^ k) * 2 ^ k).
Proof.
  intros Hk Hn.
  assert (Hpow : 0 < 2 ^ k) by (apply Z.pow_pos_nonneg; lia).
  rewrite quot_mul_rem by lia.
  unfold int32, INT32_MIN, INT32_MAX in *.
  destruct (Z.le_gt_cases 0 n).
  - pose proof (Z.rem_bound_pos n (2 ^ k) ltac:(lia) ltac:(lia)).
    pose proof (Z.rem_le n (2 ^ k) ltac:(lia) ltac:(lia)). lia.
  - pose proof (Z.rem_opp_l n (2 ^ k) ltac:(lia)) as Ho.
    pose proof (Z.rem_bound_pos (- n) (2 ^ k) ltac:(lia) ltac:(lia)).
    pose proof (Z.rem_le (- n) (2 ^ k) ltac:(lia) ltac:(lia)). lia.
Qed.

(** X2: at a scale of [2^k], host to guest followed by guest to host is
    the identity on every coordinate whose scaled value fits 32 bits, and
    guest to host followed by host to guest drops the remainder of the
    division by [2^k]: it is the identity exactly on the multiples. *)
Theorem round_trips_pow2
    (ctx : sl_context) (surface : option sl_host_surface) (k x y : Z)
    (Hscale : pow2_scale ctx k) (Hno : no_override surface)
    (Hk : 0 <= k <= 30) (Hx : int32 x) (Hy : int32 y) :
  full_cycle ctx surface x y
    = Some (x - Z.rem x (2 ^ k), y - Z.rem y (2 ^ k)) /\
  (full_cycle ctx surface x y = Some (x, y)
   <-> Z.rem x (2 ^ k) = 0 /\ Z.rem y (2 ^ k) = 0) /\
  (int32 (x * 2 ^ k) -> int32 (y * 2 ^ k) ->
   ('(a, b) <- sl_transform_host_to_guest ctx surface x y ;;
    sl_transform_guest_to_host ctx surface a b) = Some (x, y)).
Proof.
  assert (Hpow : 0 < 2 ^ k) by (apply Z.pow_pos_nonneg; lia).
  assert (Hc : full_cycle ctx surface x y
               = Some (x - Z.rem x (2 ^ k), y - Z.rem y (2 ^ k))).
  { unfold full_cycle.
    rewrite (pow2_guest_to_host ctx surface k) by assumption. cbn [bind].
    rewrite (pow2_host_to_guest ctx surface k);
      try assumption; try (apply quot_mul_int32; assumption || lia).
    rewrite !quot_mul_rem by lia. reflexivity. }
  split; [exact Hc|]. split.
  - rewrite Hc. split.
    + intros [= H1 H2]. lia.
    + intros [-> ->]. rewrite !Z.sub_0_r. reflexivity.
  - intros Hxk Hyk.
    rewrite (pow2_host_to_guest ctx surface k) by assumption. cbn [bind].
    rewrite (pow2_guest_to_host ctx surface k) by assumption.
    rewrite !Z.quot_mul by lia. reflexivity.
Qed.

Lemma round_trips_pow2_witness :
  pow2_scale ctx_direct_x2 1 /\
  full_cycle ctx_direct_x2 (Some fresh_surface) 101 50 = Some (100, 50).
Proof.
  assert (Hx : int32 101) by (unfold int32, INT32_MIN, INT32_MAX; lia).
  assert (Hy : int32 50) by (unfold int32, INT32_MIN, INT32_MAX; lia).
  assert (Hs : pow2_scale ctx_direct_x2 1) by (split; reflexivity).
  destruct (round_trips_pow2 ctx_direct_x2 (Some fresh_surface) 1 101 50
              Hs eq_refl ltac:(lia) Hx Hy) as [Hc _].
  split; [exact Hs|]. rewrite Hc. reflexivity.
Defined.

(** ** Negotiation, axis by axis *)

Lemma direct_to_host_axes
    (ctx : sl_context) (surface : option sl_host_surface) (x y : Z) :
  sl_transform_direct_to_host ctx surface x y
    = both_axes
        (axis_to_host (fst (sl_transform_get_scale_factors ctx surface)) x)
        (axis_to_host (snd (sl_transform_get_scale_factors ctx surface)) y).
Proof.
  unfold sl_transform_direct_to_host, axis_to_host, both_axes.
  destruct (sl_transform_get_scale_factors ctx surface) as [sx sy].
  cbn [fst snd].
  destruct (to_int32 (trunc (div (of_Z x) sx))); cbn [bind]; [|reflexivity].
  destruct (to_int32 (trunc (div (of_Z y) sy))); reflexivity.
Qed.

Lemma direct_to_guest_axes
    (ctx : sl_context) (surface : option sl_host_surface) (x y : Z) :
  sl_transform_direct_to_guest ctx surface x y
    = both_axes
        (axis_to_guest (fst (sl_transform_get_scale_factors ctx surface))
                       (round_on_x surface) x)
        (axis_to_guest (snd (sl_transform_get_scale_factors ctx surface))
                       (round_on_y surface) y).
Proof.
  unfold sl_transform_direct_to_guest, axis_to_guest, both_axes.
  destruct (sl_transform_get_scale_factors ctx surface) as [sx sy].
  cbn [fst snd].
  destruct (whole (round_on_x surface) (mul sx (of_Z x))) as [dx|];
    cbn [bind].
  - destruct (whole (round_on_y surface) (mul sy (of_Z y))) as [dy|];
      cbn [bind].
    + destruct (to_int32 dx); cbn [bind]; [|reflexivity].
      destruct (to_int32 dy); reflexivity.
    + destruct (to_int32 dx); reflexivity.
  - reflexivity.
Qed.

(** In direct mode the round trip is computed axis by axis: each axis
    depends on its own factor and its own rounding flag only. *)
Lemma full_cycle_axes
    (ctx : sl_context) (surface : option sl_host_surface) (w h : Z) :
  use_direct_scale ctx = true ->
  full_cycle ctx surface w h
    = both_axes
        (axis_cycle (fst (sl_transform_get_scale_factors ctx surface))
                    (round_on_x surface) w)
        (axis_cycle (snd (sl_transform_get_scale_factors ctx surface))
                    (round_on_y surface) h).
Proof.
  intros Hd.
  unfold full_cycle, sl_transform_guest_to_host, sl_transform_host_to_guest.
  rewrite Hd, direct_to_host_axes. unfold axis_cycle, both_axes.
  destruct (axis_to_host _ w) as [lw|]; cbn [bind]; [|reflexivity].
  destruct (axis_to_host _ h) as [lh|]; cbn [bind].
  - rewrite direct_to_guest_axes. reflexivity.
  - destruct (axis_to_guest _ _ lw); reflexivity.
Qed.

Lemma both_axes_some (a b : option Z) (x y : Z) :
  both_axes a b = Some (x, y) <-> a = Some x /\ b = Some y.
Proof.
  unfold both_axes. destruct a, b; split;
    try discriminate; try (intros [? ?]; discriminate).
  - intros [= -> ->]. auto.
  - intros [[= ->] [= ->]]. reflexivity.
Qed.

(** The round trip with an installed override, axis by axis. *)
Lemma installed_cycle_axes
    (ctx : sl_context) (s : sl_host_surface) (w h a b : Z) :
  use_direct_scale ctx = true -> has_own_scale s = true ->
  full_cycle ctx (Some s) w h = Some (a, b) <->
  axis_cycle (xdg_scale_x s) (scale_round_on_x s) w = Some a /\
  axis_cycle (xdg_scale_y s) (scale_round_on_y s) h = Some b.
Proof.
  intros Hd Hown. rewrite full_cycle_axes by assumption.
  cbn [sl_transform_get_scale_factors round_on_x round_on_y].
  rewrite Hd, Hown. cbn [andb fst snd]. apply both_axes_some.
Qed.

(** X3: negotiation is idempotent: negotiating the same size again on
    the surface a negotiation returned returns that surface unchanged. *)
Theorem try_window_scale_idempotent
    (ctx : sl_context) (s s' s'' : sl_host_surface) (w h : Z)
    (Hfirst : sl_transform_try_window_scale ctx s w h = Some s')
    (Hsecond : sl_transform_try_window_scale ctx s' w h = Some s'') :
  s'' = s'.
Proof.
  destruct (use_direct_scale ctx) eqn:Hd.
  2:{ unfold sl_transform_try_window_scale in *. rewrite Hd in *.
      cbn [negb] in *. congruence. }
  destruct (try_window_scale_cases ctx s s' w h Hd Hfirst)
    as (lw & lh & rw & rh & Hg & Hh & Hb1).
  destruct (try_window_scale_cases ctx s' s'' w h Hd Hsecond)
    as (lw2 & lh2 & rw2 & rh2 & Hg2 & Hh2 & Hb2).
  rewrite Hg in Hg2. injection Hg2 as <- <-.
  rewrite Hh in Hh2. injection Hh2 as <- <-.
  destruct Hb1 as [(Hown1 & Hs1 & Hex1)
                  | (Hown1 & Hne1 & Hlw & Hlh & a & b & Hc1 & Hx1 & Hy1
                     & Hcw1 & Hch1 & Hrx1 & Hry1)];
  destruct Hb2 as [(Hown2 & Hs2 & Hex2)
                  | (Hown2 & Hne2 & Hlw2 & Hlh2 & a2 & b2 & Hc2 & Hx2 & Hy2
                     & Hcw2 & Hch2 & Hrx2 & Hry2)].
  - rewrite Hs2, Hs1. reflexivity.
  - exfalso. destruct Hex1 as [[-> ->]|[?|?]]; [|lia|lia].
    destruct Hne2; congruence.
  - exfalso. destruct Hex2 as [[-> ->]|[?|?]]; [|lia|lia].
    destruct Hne1; congruence.
  - assert (Hinst : install_override s' w h lw lh = s').
    { destruct s'. cbn in *. unfold install_override. cbn. congruence. }
    rewrite Hinst in Hc2.
    apply (installed_cycle_axes ctx s' w h a2 b2 Hd Hown1) in Hc2
      as [Hax2 Hay2].
    apply (installed_cycle_axes ctx (install_override s w h lw lh) w h a b Hd eq_refl) in Hc1
      as [Hax1 Hay1].
    cbn [install_override xdg_scale_x xdg_scale_y scale_round_on_x
         scale_round_on_y] in Hax1, Hay1.
    rewrite <- Hx1 in Hax1. rewrite <- Hy1 in Hay1.
    assert (Hfx : scale_round_on_x s'' = scale_round_on_x s').
    { rewrite Hrx2.
      assert (Hcase : scale_round_on_x s' = true \/ scale_round_on_x s' = false)
        by (destruct (scale_round_on_x s'); auto).
      destruct Hcase as [Hf|Hf]; rewrite Hf; [reflexivity|].
      rewrite Hf in Hax2.
      rewrite Hrx1 in Hf. apply orb_false_iff in Hf as [Hf0 Hf1].
      rewrite Hf0 in Hax1. rewrite Hax1 in Hax2. injection Hax2 as <-.
      exact Hf1. }
    assert (Hfy : scale_round_on_y s'' = scale_round_on_y s').
    { rewrite Hry2.
      assert (Hcase : scale_round_on_y s' = true \/ scale_round_on_y s' = false)
        by (destruct (scale_round_on_y s'); auto).
      destruct Hcase as [Hf|Hf]; rewrite Hf; [reflexivity|].
      rewrite Hf in Hay2.
      rewrite Hry1 in Hf. apply orb_false_iff in Hf as [Hf0 Hf1].
      rewrite Hf0 in Hay1. rewrite Hay1 in Hay2. injection Hay2 as <-.
      exact Hf1. }
    destruct s', s''. cbn in *. congruence.
Qed.

Lemma try_window_scale_idempotent_witness :
  sl_transform_try_window_scale ctx_direct_125 fresh_surface 129 100
    = Some surface_129 /\
  sl_transform_try_window_scale ctx_direct_125 surface_129 129 100
    = Some surface_129.
Proof.
  assert (H1 : sl_transform_try_window_scale ctx_direct_125 fresh_surface 129 100
               = Some surface_129) by (vm_compute; reflexivity).
  split; [exact H1|].
  destruct (sl_transform_try_window_scale ctx_direct_125 surface_129 129 100)
    as [s''|] eqn:H2.
  - f_equal.
    exact (try_window_scale_idempotent ctx_direct_125 fresh_surface
             surface_129 s'' 129 100 H1 H2).
  - vm_compute in H2. discriminate H2.
Defined.

(** X4: after a direct-mode negotiation that installed an override, an
    axis whose rounding flag is clear round-trips exactly: whenever the
    round trip with the negotiated surface has a result, its component on
    that axis is the negotiated size. *)
Theorem clear_flag_axis_exact
    (ctx : sl_context) (s s' : sl_host_surface) (w h a b : Z)
    (Hdirect : use_direct_scale ctx = true)
    (Htry : sl_transform_try_window_scale ctx s w h = Some s')
    (Hown : has_own_scale s' = true)
    (Hcycle : full_cycle ctx (Some s') w h = Some (a, b)) :
  (scale_round_on_x s' = false -> a = w) /\
  (scale_round_on_y s' = false -> b = h).
Proof.
  destruct (try_window_scale_cases ctx s s' w h Hdirect Htry)
    as (lw & lh & rw & rh & Hg & Hh
        & [(Hno & _) | (_ & _ & _ & _ & a1 & b1 & Hc1 & Hx1 & Hy1
                        & _ & _ & Hrx1 & Hry1)]);
    [congruence|].
  apply (installed_cycle_axes ctx s' w h a b Hdirect Hown) in Hcycle
    as [Hax Hay].
  apply (installed_cycle_axes ctx (install_override s w h lw lh) w h a1 b1 Hdirect eq_refl) in Hc1
    as [Hax1 Hay1].
  cbn [install_override xdg_scale_x xdg_scale_y scale_round_on_x
       scale_round_on_y] in Hax1, Hay1.
  rewrite <- Hx1 in Hax1. rewrite <- Hy1 in Hay1.
  split; intros Hf.
  - rewrite Hrx1 in Hf. apply orb_false_iff in Hf as [Hf0 Hf1].
    rewrite Hrx1, Hf0, Hf1 in Hax. cbn [orb] in Hax.
    rewrite Hf0 in Hax1. rewrite Hax1 in Hax. injection Hax as <-.
    apply negb_false_iff, Z.eqb_eq in Hf1. exact Hf1.
  - rewrite Hry1 in Hf. apply orb_false_iff in Hf as [Hf0 Hf1].
    rewrite Hry1, Hf0, Hf1 in Hay. cbn [orb] in Hay.
    rewrite Hf0 in Hay1. rewrite Hay1 in Hay. injection Hay as <-.
    apply negb_false_iff, Z.eqb_eq in Hf1. exact Hf1.
Qed.

Lemma clear_flag_axis_exact_witness :
  use_direct_scale ctx_direct_125 = true /\
  sl_transform_try_window_scale ctx_direct_125 fresh_surface 129 100
    = Some surface_129 /\
  has_own_scale surface_129 = true /\
  full_cycle ctx_direct_125 (Some surface_129) 129 100 = Some (128, 100) /\
  (scale_round_on_x surface_129 = false -> 128 = 129) /\
  (scale_round_on_y surface_129 = false -> 100 = 100).
Proof.
  assert (Htry : sl_transform_try_window_scale ctx_direct_125 fresh_surface 129 100
                 = Some surface_129) by (vm_compute; reflexivity).
  assert (Hc : full_cycle ctx_direct_125 (Some surface_129) 129 100
               = Some (128, 100)) by (vm_compute; reflexivity).
  split; [reflexivity|]. split; [exact Htry|]. split; [reflexivity|].
  split; [exact Hc|].
  exact (clear_flag_axis_exact ctx_direct_125 fresh_surface surface_129
           129 100 128 100 eq_refl Htry eq_refl Hc).
Defined.

(** ** Negotiation at a power-of-two scale *)

Lemma rem_zero_iff_quot_mul (n d : Z) :
  d <> 0 -> Z.quot n d * d = n <-> Z.rem n d = 0.
Proof. intros Hd. rewrite quot_mul_rem by assumption. lia. Qed.

Lemma quot_pos_iff (n d : Z) : 0 < d -> (0 < Z.quot n d <-> d <= n).
Proof.
  intros Hd. split.
  - intros Hq. destruct (Z.le_gt_cases d n) as [|Hlt]; [assumption|].
    exfalso. destruct (Z.le_gt_cases 0 n).
    + rewrite Z.quot_small in Hq by lia. lia.
    + pose proof (Z.quot_opp_l n d ltac:(lia)) as Ho.
      pose proof (Z.quot_pos (- n) d ltac:(lia) ltac:(lia)). lia.
  - intros Hle. apply Z.quot_str_pos. lia.
Qed.

(** X5: in direct mode with both defaults [2^k], negotiating a 32-bit
    size resets the surface when both dimensions are multiples of [2^k]
    (no override is needed) and when a dimension is below [2^k] (the
    logical size is not positive); in every other case a negotiation that
    has a result installs an override and caches the quotients. *)
Theorem try_window_scale_pow2
    (ctx : sl_context) (s : sl_host_surface) (k w h : Z)
    (Hdirect : use_direct_scale ctx = true)
    (Hscale : pow2_scale ctx k) (Hk : 0 <= k <= 30)
    (Hw : int32 w) (Hh : int32 h) :
  ((Z.rem w (2 ^ k) = 0 /\ Z.rem h (2 ^ k) = 0) \/ w < 2 ^ k \/ h < 2 ^ k ->
   sl_transform_try_window_scale ctx s w h
     = Some (sl_transform_reset_surface_scale ctx s)) /\
  (forall s',
      (Z.rem w (2 ^ k) <> 0 \/ Z.rem h (2 ^ k) <> 0) ->
      2 ^ k <= w -> 2 ^ k <= h ->
      sl_transform_try_window_scale ctx s w h = Some s' ->
      has_own_scale s' = true /\
      cached_logical_width s' = Z.quot w (2 ^ k) /\
      cached_logical_height s' = Z.quot h (2 ^ k)).
Proof.
  assert (Hpow : 0 < 2 ^ k) by (apply Z.pow_pos_nonneg; lia).
  assert (Hg : sl_transform_guest_to_host ctx None w h
               = Some (Z.quot w (2 ^ k), Z.quot h (2 ^ k)))
    by (apply pow2_guest_to_host; assumption || reflexivity).
  assert (Hb : sl_transform_host_to_guest ctx None
                 (Z.quot w (2 ^ k)) (Z.quot h (2 ^ k))
               = Some (Z.quot w (2 ^ k) * 2 ^ k, Z.quot h (2 ^ k) * 2 ^ k)).
  { apply pow2_host_to_guest; try assumption; try reflexivity;
      apply quot_mul_int32; assumption || lia. }
  split.
  - intros Hcase. unfold sl_transform_try_window_scale.
    rewrite Hdirect, Hg. cbn [negb bind]. rewrite Hb. cbn [bind].
    replace (_ && _) with false; [reflexivity|].
    symmetry. destruct Hcase as [[Hrw Hrh] | Hsmall].
    + apply (rem_zero_iff_quot_mul w (2 ^ k)) in Hrw; [|lia].
      apply (rem_zero_iff_quot_mul h (2 ^ k)) in Hrh; [|lia].
      rewrite Hrw, Hrh, !Z.eqb_refl. reflexivity.
    + apply andb_false_iff. right. apply andb_false_iff.
      rewrite !Z.gtb_ltb.
      destruct Hsmall as [Hs|Hs]; [left|right]; apply Z.ltb_ge.
      * destruct (Z.lt_ge_cases 0 (Z.quot w (2 ^ k))) as [Hq|]; [|assumption].
        apply quot_pos_iff in Hq; lia.
      * destruct (Z.lt_ge_cases 0 (Z.quot h (2 ^ k))) as [Hq|]; [|assumption].
        apply quot_pos_iff in Hq; lia.
  - intros s' Hne Hwk Hhk Htry.
    destruct (try_window_scale_cases ctx s s' w h Hdirect Htry)
      as (lw & lh & rw & rh & Hg' & Hb' & Hbranch).
    rewrite Hg in Hg'. injection Hg' as <- <-.
    rewrite Hb in Hb'. injection Hb' as <- <-.
    destruct Hbranch as [(_ & _ & Hex)
                        | (Hown & _ & _ & _ & a & b & _ & _ & _ & Hcw & Hch & _)].
    + exfalso. destruct Hex as [[Hew Heh] | [Hlw | Hlh]].
      * apply rem_zero_iff_quot_mul in Hew, Heh; lia.
      * apply (quot_pos_iff w (2 ^ k) Hpow) in Hwk. lia.
      * apply (quot_pos_iff h (2 ^ k) Hpow) in Hhk. lia.
    + auto.
Qed.

Lemma try_window_scale_pow2_witness :
  use_direct_scale ctx_direct_x2 = true /\ pow2_scale ctx_direct_x2 1 /\
  sl_transform_try_window_scale ctx_direct_x2 surface_129 800 600
    = Some (sl_transform_reset_surface_scale ctx_direct_x2 surface_129).
Proof.
  assert (Hs : pow2_scale ctx_direct_x2 1) by (split; reflexivity).
  assert (Hw : int32 800) by (unfold int32, INT32_MIN, INT32_MAX; lia).
  assert (Hh : int32 600) by (unfold int32, INT32_MIN, INT32_MAX; lia).
  split; [reflexivity|]. split; [exact Hs|].
  apply (proj1 (try_window_scale_pow2 ctx_direct_x2 surface_129 1 800 600
                  eq_refl Hs ltac:(lia) Hw Hh)).
  left. split; reflexivity.
Defined.

(** X6: with strictly positive process-wide factors, a direct-mode
    negotiation for a size with a dimension that is zero or negative never
    installs an override: when it has a result, the result is the reset
    surface. *)
Theorem try_window_scale_nonpositive_size
    (ctx : sl_context) (s s' : sl_host_surface) (w h : Z)
    (Hpos : ctx_positive ctx = true)
    (Hdirect : use_direct_scale ctx = true)
    (Hw : int32 w) (Hh : int32 h)
    (Hsize : w <= 0 \/ h <= 0)
    (Htry : sl_transform_try_window_scale ctx s w h = Some s') :
  s' = sl_transform_reset_surface_scale ctx s.
Proof.
  destruct (try_window_scale_cases ctx s s' w h Hdirect Htry)
    as (lw & lh & rw & rh & _ & _ & [(_ & Hs & _) | (Hown & _)]);
    [exact Hs|].
  destruct (try_window_scale_positive ctx s s' w h Hpos Hdirect Hw Hh Htry Hown)
    as (Hw0 & Hh0 & _).
  lia.
Qed.

Lemma try_window_scale_nonpositive_size_witness :
  ctx_positive ctx_direct_125 = true /\
  sl_transform_try_window_scale ctx_direct_125 surface_129 (-129) 100
    = Some (sl_transform_reset_surface_scale ctx_direct_125 surface_129).
Proof.
  assert (Hw : int32 (-129)) by (unfold int32, INT32_MIN, INT32_MAX; lia).
  assert (Hh : int32 100) by (unfold int32, INT32_MIN, INT32_MAX; lia).
  split; [reflexivity|].
  destruct (sl_transform_try_window_scale ctx_direct_125 surface_129 (-129) 100)
    as [s'|] eqn:Htry.
  - f_equal.
    exact (try_window_scale_nonpositive_size ctx_direct_125 surface_129 s'
             (-129) 100 eq_refl eq_refl Hw Hh ltac:(lia) Htry).
  - vm_compute in Htry. discriminate Htry.
Defined.

(** ** Factors that are zero or not a number *)

Lemma to_int_div_zero_or_nan (lo hi n : Z) (d : double) :
  zero_or_nan d = true ->
  to_int lo hi (trunc (div (of_Z n) d)) = None /\
  to_int lo hi (div (of_Z n) d) = None.
Proof.
  intros Hd. unfold div.
  destruct d as [sd|sd| |sd md ed]; try discriminate;
    destruct (of_Z n) as [sn|sn| |sn mn en]; split; reflexivity.
Qed.

(** X7: dividing by a factor that is zero or not a number has no
    defined result: when a factor guest to host divides by is [+0], [-0] or
    NaN, guest to host yields no result for any coordinates, in both
    modes, and so does the direct-mode viewport transform. *)
Theorem guest_to_host_zero_factor
    (ctx : sl_context) (surface : option sl_host_surface)
    (contents_scale : double) (x y : Z)
    (Hzero : zero_or_nan (fst (guest_to_host_divisors ctx surface)) = true \/
             zero_or_nan (snd (guest_to_host_divisors ctx surface)) = true) :
  sl_transform_guest_to_host ctx surface x y = None /\
  (use_direct_scale ctx = true ->
   sl_transform_viewport_scale ctx surface contents_scale x y = None).
Proof.
  assert (Hg : sl_transform_guest_to_host ctx surface x y = None).
  { rewrite guest_to_host_divides. unfold guest_to_host_quotient, to_int32.
    destruct Hzero as [Hz|Hz].
    - destruct (to_int_div_zero_or_nan INT32_MIN INT32_MAX x _ Hz) as [H1 H2].
      destruct (use_direct_scale ctx); [rewrite H1 | rewrite H2]; reflexivity.
    - destruct (to_int_div_zero_or_nan INT32_MIN INT32_MAX y _ Hz) as [H1 H2].
      destruct (use_direct_scale ctx); [rewrite H1 | rewrite H2];
        match goal with |- bind ?a _ = None => destruct a end; reflexivity. }
  split; [exact Hg|].
  intros Hd. rewrite viewport_refines, Hd. unfold viewport_direct_spec.
  rewrite Hg. reflexivity.
Qed.

Lemma guest_to_host_zero_factor_witness :
  zero_or_nan (fst (guest_to_host_divisors ctx_direct_zero None)) = true /\
  sl_transform_guest_to_host ctx_direct_zero None 0 5 = None.
Proof.
  split; [reflexivity|].
  exact (proj1 (guest_to_host_zero_factor ctx_direct_zero None one 0 5
                  (or_introl eq_refl))).
Defined.

(** ** Single-axis and pair variants of the fixed-point transforms *)

(** X8: the pair variants of the fixed-point transforms are the
    single-axis variants applied to each coordinate, the x coordinate with
    axis 1 and the y coordinate with axis 0; every axis other than 0 is
    treated as axis 1 (it uses the x factor). *)
Theorem fixed_axis_variants_agree
    (ctx : sl_context) (surface : option sl_host_surface) (x y c axis : Z) :
  sl_transform_host_to_guest_fixed ctx surface x y
    = (x' <- sl_transform_host_to_guest_fixed_axis ctx surface x 1 ;;
       y' <- sl_transform_host_to_guest_fixed_axis ctx surface y 0 ;;
       Some (x', y')) /\
  sl_transform_guest_to_host_fixed ctx surface x y
    = (x' <- sl_transform_guest_to_host_fixed_axis ctx surface x 1 ;;
       y' <- sl_transform_guest_to_host_fixed_axis ctx surface y 0 ;;
       Some (x', y')) /\
  (if axis =? 0 then True
   else sl_transform_host_to_guest_fixed_axis ctx surface c axis
          = sl_transform_host_to_guest_fixed_axis ctx surface c 1 /\
        sl_transform_guest_to_host_fixed_axis ctx surface c axis
          = sl_transform_guest_to_host_fixed_axis ctx surface c 1).
Proof.
  unfold sl_transform_host_to_guest_fixed, sl_transform_guest_to_host_fixed,
    sl_transform_host_to_guest_fixed_axis, sl_transform_guest_to_host_fixed_axis,
    sl_transform_direct_to_guest_fixed, sl_transform_direct_to_host_fixed,
    sl_transform_direct_to_guest_fixed_axis,
    sl_transform_direct_to_host_fixed_axis, sl_transform_direct_axis_scale.
  destruct (sl_transform_get_scale_factors ctx surface) as [sx sy].
  destruct (use_direct_scale ctx); cbn [Z.eqb];
    (split; [reflexivity|]); (split; [reflexivity|]);
    destruct (axis =? 0); auto.
Qed.

(** ** What each mode reads *)

(** X9: legacy mode reads the legacy factor only.  Every transform gives
    the result it gives with a null surface and with any other direct-mode
    defaults, so no override, rounding flag or default ever affects a
    legacy-mode result, and negotiation leaves the surface as it is. *)
Theorem legacy_mode_ignores_surface
    (MIN_SIZE MAX_SIZE : Z) (ctx : sl_context)
    (surface : option sl_host_surface) (s : sl_host_surface)
    (sx sy cs bsx bsy : double) (x y axis : Z) (r : rect)
    (Hlegacy : use_direct_scale ctx = false) :
  sl_transform_guest_to_host ctx surface x y
    = sl_transform_guest_to_host (with_defaults ctx sx sy) None x y /\
  sl_transform_host_to_guest ctx surface x y
    = sl_transform_host_to_guest (with_defaults ctx sx sy) None x y /\
  sl_transform_guest_to_host_fixed ctx surface x y
    = sl_transform_guest_to_host_fixed (with_defaults ctx sx sy) None x y /\
  sl_transform_host_to_guest_fixed ctx surface x y
    = sl_transform_host_to_guest_fixed (with_defaults ctx sx sy) None x y /\
  sl_transform_guest_to_host_fixed_axis ctx surface x axis
    = sl_transform_guest_to_host_fixed_axis (with_defaults ctx sx sy) None x 0 /\
  sl_transform_host_to_guest_fixed_axis ctx surface x axis
    = sl_transform_host_to_guest_fixed_axis (with_defaults ctx sx sy) None x 0 /\
  sl_transform_viewport_scale ctx surface cs x y
    = sl_transform_viewport_scale (with_defaults ctx sx sy) None cs x y /\
  sl_transform_damage_coord MIN_SIZE MAX_SIZE ctx surface bsx bsy r
    = sl_transform_damage_coord MIN_SIZE MAX_SIZE
        (with_defaults ctx sx sy) None bsx bsy r /\
  sl_transform_try_window_scale ctx s x y = Some s.
Proof.
  unfold sl_transform_guest_to_host, sl_transform_host_to_guest,
    sl_transform_guest_to_host_fixed, sl_transform_host_to_guest_fixed,
    sl_transform_guest_to_host_fixed_axis, sl_transform_host_to_guest_fixed_axis,
    sl_transform_viewport_scale, sl_transform_damage_coord,
    sl_transform_try_window_scale, with_defaults.
  cbn [use_direct_scale scale]. rewrite Hlegacy. cbn [negb].
  repeat split.
Qed.

Lemma legacy_mode_ignores_surface_witness :
  use_direct_scale ctx_legacy_x2 = false /\
  sl_transform_guest_to_host ctx_legacy_x2 (Some surface_129) 101 (-51)
    = sl_transform_guest_to_host
        (with_defaults ctx_legacy_x2 (of_Z 3) (of_Z 5)) None 101 (-51) /\
  sl_transform_try_window_scale ctx_legacy_x2 surface_129 129 100
    = Some surface_129.
Proof.
  pose proof (legacy_mode_ignores_surface MIN_SIZE_default MAX_SIZE_default
                ctx_legacy_x2 (Some surface_129) surface_129
                (of_Z 3) (of_Z 5) one one one 101 (-51) 0
                (mk_rect 0 0 1 1) eq_refl) as H.
  split; [reflexivity|]. split; [exact (proj1 H)|].
  vm_compute. reflexivity.
Defined.

Lemma factors_with_legacy
    (ctx : sl_context) (surface : option sl_host_surface) (legacy : double) :
  sl_transform_get_scale_factors (with_legacy ctx legacy) surface
    = sl_transform_get_scale_factors ctx surface.
Proof. destruct surface; reflexivity. Qed.

Lemma factors_with_defaults
    (ctx : sl_context) (s : sl_host_surface) (sx sy : double) :
  use_direct_scale ctx = true -> has_own_scale s = true ->
  sl_transform_get_scale_factors (with_defaults ctx sx sy) (Some s)
    = (xdg_scale_x s, xdg_scale_y s) /\
  sl_transform_get_scale_factors (with_defaults ctx sx sy) None = (sx, sy).
Proof.
  intros Hd Hown. unfold sl_transform_get_scale_factors, with_defaults.
  cbn [use_direct_scale ctx_xdg_scale_x ctx_xdg_scale_y].
  rewrite Hd, Hown. split; reflexivity.
Qed.

Lemma factors_installed (ctx : sl_context) (s : sl_host_surface) :
  use_direct_scale ctx = true -> has_own_scale s = true ->
  sl_transform_get_scale_factors ctx (Some s) = (xdg_scale_x s, xdg_scale_y s).
Proof.
  intros Hd Hown. unfold sl_transform_get_scale_factors.
  rewrite Hd, Hown. reflexivity.
Qed.

(** X10: direct mode reads the resolved factors only.  The integer,
    fixed-point, viewport and damage transforms do not depend on the legacy
    factor, the viewport transform does not depend on [contents_scale]
    either, and with an override installed no transform depends on the
    process-wide defaults: the override acts as defaults of its own. *)
Theorem direct_mode_reads_resolved_factors
    (MIN_SIZE MAX_SIZE : Z) (ctx : sl_context)
    (surface : option sl_host_surface) (s : sl_host_surface)
    (legacy sx sy cs cs' bsx bsy : double) (x y : Z) (r : rect)
    (Hdirect : use_direct_scale ctx = true) :
  sl_transform_guest_to_host (with_legacy ctx legacy) surface x y
    = sl_transform_guest_to_host ctx surface x y /\
  sl_transform_host_to_guest (with_legacy ctx legacy) surface x y
    = sl_transform_host_to_guest ctx surface x y /\
  sl_transform_guest_to_host_fixed (with_legacy ctx legacy) surface x y
    = sl_transform_guest_to_host_fixed ctx surface x y /\
  sl_transform_host_to_guest_fixed (with_legacy ctx legacy) surface x y
    = sl_transform_host_to_guest_fixed ctx surface x y /\
  sl_transform_viewport_scale (with_legacy ctx legacy) surface cs' x y
    = sl_transform_viewport_scale ctx surface cs x y /\
  sl_transform_damage_coord MIN_SIZE MAX_SIZE
      (with_legacy ctx legacy) surface bsx bsy r
    = sl_transform_damage_coord MIN_SIZE MAX_SIZE ctx surface bsx bsy r /\
  (has_own_scale s = true ->
   sl_transform_guest_to_host (with_defaults ctx sx sy) (Some s) x y
     = sl_transform_guest_to_host ctx (Some s) x y /\
   sl_transform_host_to_guest (with_defaults ctx sx sy) (Some s) x y
     = sl_transform_host_to_guest ctx (Some s) x y /\
   sl_transform_guest_to_host ctx (Some s) x y
     = sl_transform_guest_to_host
         (with_defaults ctx (xdg_scale_x s) (xdg_scale_y s)) None x y /\
   sl_transform_viewport_scale ctx (Some s) cs x y
     = sl_transform_viewport_scale
         (with_defaults ctx (xdg_scale_x s) (xdg_scale_y s)) None cs x y /\
   sl_transform_damage_coord MIN_SIZE MAX_SIZE ctx (Some s) bsx bsy r
     = sl_transform_damage_coord MIN_SIZE MAX_SIZE
         (with_defaults ctx (xdg_scale_x s) (xdg_scale_y s)) None bsx bsy r).
Proof.
  unfold sl_transform_guest_to_host, sl_transform_host_to_guest,
    sl_transform_guest_to_host_fixed, sl_transform_host_to_guest_fixed,
    sl_transform_viewport_scale, sl_transform_damage_coord,
    sl_transform_direct_to_host, sl_transform_direct_to_guest,
    sl_transform_direct_to_host_fixed, sl_transform_direct_to_guest_fixed,
    sl_transform_direct_to_host_damage.
  rewrite !factors_with_legacy.
  change (use_direct_scale (with_legacy ctx legacy)) with (use_direct_scale ctx).
  rewrite Hdirect.
  split; [reflexivity|]. split; [reflexivity|]. split; [reflexivity|].
  split; [reflexivity|]. split; [reflexivity|]. split; [reflexivity|].
  intros Hown.
  change (use_direct_scale (with_defaults ctx sx sy)) with (use_direct_scale ctx).
  change (use_direct_scale
            (with_defaults ctx (xdg_scale_x s) (xdg_scale_y s)))
    with (use_direct_scale ctx).
  rewrite Hdirect.
  rewrite (proj1 (factors_with_defaults ctx s sx sy Hdirect Hown)).
  rewrite (proj2 (factors_with_defaults ctx s (xdg_scale_x s) (xdg_scale_y s)
                    Hdirect Hown)).
  rewrite (factors_installed ctx s Hdirect Hown).
  repeat split.
Qed.

Lemma direct_mode_reads_resolved_factors_witness :
  use_direct_scale ctx_direct_125 = true /\
  sl_transform_guest_to_host (with_legacy ctx_direct_125 (of_Z 7)) None 129 100
    = sl_transform_guest_to_host ctx_direct_125 None 129 100 /\
  sl_transform_guest_to_host ctx_direct_125 (Some surface_129) 129 100
    = sl_transform_guest_to_host
        (with_defaults ctx_direct_125 (ratio 129 103) (ratio 100 80)) None 129 100.
Proof.
  pose proof (direct_mode_reads_resolved_factors
                MIN_SIZE_default MAX_SIZE_default ctx_direct_125 None
                surface_129 (of_Z 7) one one one one one one 129 100
                (mk_rect 0 0 1 1) eq_refl) as (H1 & _ & _ & _ & _ & _ & H7).
  split; [reflexivity|]. split; [exact H1|].
  exact (proj1 (proj2 (proj2 (H7 eq_refl)))).
Defined.

(** ** Signs under positive factors *)

Lemma binary_round_aux_nonneg (m e : Z) (l : location) :
  is_neg (binary_round_aux prec emax false m e l) = false.
Proof.
  unfold binary_round_aux.
  destruct (shr_fexp _ _ _ _ _) as [mrs' e'].
  destruct (shr_fexp _ _ _ _ _) as [mrs'' e''].
  destruct (shr_m mrs''); [reflexivity | | reflexivity].
  destruct (_ <=? _); reflexivity.
Qed.

Lemma of_Z_nonneg (n : Z) : 0 <= n -> is_neg (of_Z n) = false.
Proof.
  destruct n as [|p|p]; intros H; [reflexivity | | lia].
  unfold of_Z, binary_normalize, binary_round.
  destruct (shl_align _ _ _). apply binary_round_aux_nonneg.
Qed.

Lemma div_nonneg (x y : double) :
  is_neg x = false -> is_pos y = true -> is_neg (div x y) = false.
Proof.
  unfold div.
  destruct x as [sx|[|]| |[|] mx ex], y as [sy|[|]| |[|] my ey];
    try discriminate; intros _ _; try reflexivity.
  unfold SFdiv. destruct (SFdiv_core_binary _ _ _ _ _ _) as [[mz ez] lz].
  apply binary_round_aux_nonneg.
Qed.

Lemma mul_nonneg (x y : double) :
  is_pos x = true -> is_neg y = false -> is_neg (mul x y) = false.
Proof.
  unfold mul.
  destruct x as [sx|[|]| |[|] mx ex], y as [sy|[|]| |[|] my ey];
    try discriminate; intros _ _; try reflexivity.
  unfold SFmul. apply binary_round_aux_nonneg.
Qed.

Lemma mul_nonpos (x y : double) :
  is_pos x = true -> is_pos y = false -> is_pos (mul x y) = false.
Proof.
  unfold mul.
  destruct x as [sx|[|]| |[|] mx ex], y as [sy|[|]| |[|] my ey];
    try discriminate; intros _ _; try reflexivity.
  unfold SFmul. apply binary_round_aux_neg.
Qed.

Lemma normalize_nonneg (q : Z) :
  0 <= q -> is_neg (binary_normalize prec emax q 0 false) = false.
Proof.
  intros Hq. destruct q as [|q|q]; [reflexivity | | lia].
  unfold binary_normalize, binary_round.
  destruct (shl_align _ _ _). apply binary_round_aux_nonneg.
Qed.

Lemma normalize_nonpos (q : Z) :
  0 <= q -> is_pos (binary_normalize prec emax (- q) 0 true) = false.
Proof.
  intros Hq. destruct q as [|q|q]; [reflexivity | | lia].
  unfold binary_normalize, binary_round. cbn [Z.opp].
  destruct (shl_align _ _ _). apply binary_round_aux_neg.
Qed.

Lemma trunc_nonneg (x : double) : is_neg x = false -> is_neg (trunc x) = false.
Proof.
  destruct x as [sx|sx| |[|] mx ex]; try (intros; assumption); try discriminate.
  intros _. unfold trunc. destruct (0 <=? ex); [reflexivity|].
  apply normalize_nonneg, int_part_nonneg.
Qed.

Lemma round_nonneg (x : double) : is_neg x = false -> is_neg (round x) = false.
Proof.
  destruct x as [sx|sx| |[|] mx ex]; try (intros; assumption); try discriminate.
  intros _. unfold round. destruct (0 <=? ex); [reflexivity|].
  apply normalize_nonneg. apply Z.shiftl_nonneg.
  pose proof (Z.shiftl_nonneg 1 (- ex - 1)). lia.
Qed.

Lemma round_nonpos (x : double) : is_pos x = false -> is_pos (round x) = false.
Proof.
  destruct x as [sx|sx| |[|] mx ex]; try (intros; assumption); try discriminate.
  intros _. unfold round. destruct (0 <=? ex); [reflexivity|].
  apply normalize_nonpos. apply Z.shiftl_nonneg.
  pose proof (Z.shiftl_nonneg 1 (- ex - 1)). lia.
Qed.

Lemma to_int_nonneg (lo hi : Z) (x : double) (z : Z) :
  is_neg x = false -> to_int lo hi x = Some z -> 0 <= z.
Proof.
  destruct x as [sx|sx| |[|] mx ex]; simpl; try discriminate.
  - intros _ [= <-]. lia.
  - intros _. pose proof (int_part_nonneg mx ex).
    destruct (_ && _); [|discriminate]. intros [= <-]. lia.
Qed.

Lemma whole_nonneg (flag : bool) (x d : double) :
  is_neg x = false -> whole flag x = Some d -> is_neg d = false.
Proof.
  intros Hx. unfold whole, lround. destruct flag.
  - destruct (to_int64 (round x)) as [n|] eqn:Hn; cbn [bind]; [|discriminate].
    intros [= <-]. apply of_Z_nonneg.
    apply (to_int_nonneg _ _ _ _ (round_nonneg x Hx) Hn).
  - intros [= <-]. apply trunc_nonneg. assumption.
Qed.

Lemma whole_nonpos (flag : bool) (x d : double) :
  is_pos x = false -> whole flag x = Some d -> is_pos d = false.
Proof.
  intros Hx. unfold whole, lround. destruct flag.
  - destruct (to_int64 (round x)) as [n|] eqn:Hn; cbn [bind]; [|discriminate].
    intros [= <-]. apply of_Z_nonpos.
    apply (to_int_nonpos _ _ _ _ (round_nonpos x Hx) Hn).
  - intros [= <-]. apply trunc_nonpos. assumption.
Qed.

(** Each axis of the integer transforms keeps the sign of its
    coordinate when the factor is strictly positive. *)
Lemma quotient_sign (ctx : sl_context) (d : double) (c z : Z) :
  is_pos d = true ->
  to_int32 (guest_to_host_quotient ctx c d) = Some z ->
  (0 <= c -> 0 <= z) /\ (c <= 0 -> z <= 0).
Proof.
  intros Hd Hz. unfold guest_to_host_quotient, to_int32 in Hz.
  split; intros Hc.
  - refine (to_int_nonneg _ _ _ z _ Hz).
    destruct (use_direct_scale ctx); [apply trunc_nonneg|];
      apply div_nonneg; try assumption; apply of_Z_nonneg; assumption.
  - refine (to_int_nonpos _ _ _ z _ Hz).
    destruct (use_direct_scale ctx); [apply trunc_nonpos|];
      apply div_nonpos; try assumption; apply of_Z_nonpos; assumption.
Qed.

(** X11: with strictly positive factors guest to host keeps signs: a
    coordinate that is not negative is never mapped to a negative one, and
    a coordinate that is not positive is never mapped to a positive one;
    in particular zero is mapped to zero.  This holds for every positive
    factor, in both modes, with or without an override. *)
Theorem guest_to_host_keeps_sign
    (ctx : sl_context) (surface : option sl_host_surface) (x y x' y' : Z)
    (Hpos : both_positive (guest_to_host_divisors ctx surface) = true)
    (Hres : sl_transform_guest_to_host ctx surface x y = Some (x', y')) :
  (0 <= x -> 0 <= x') /\ (x <= 0 -> x' <= 0) /\
  (0 <= y -> 0 <= y') /\ (y <= 0 -> y' <= 0).
Proof.
  unfold both_positive in Hpos. apply andb_prop in Hpos as [Hpx Hpy].
  rewrite guest_to_host_divides in Hres.
  destruct (to_int32 (guest_to_host_quotient ctx x _)) as [a|] eqn:Ha;
    cbn [bind] in Hres; [|discriminate].
  destruct (to_int32 (guest_to_host_quotient ctx y _)) as [b|] eqn:Hb;
    cbn [bind] in Hres; [|discriminate].
  injection Hres as <- <-.
  destruct (quotient_sign ctx _ x a Hpx Ha).
  destruct (quotient_sign ctx _ y b Hpy Hb).
  auto.
Qed.

Lemma guest_to_host_keeps_sign_witness :
  both_positive (guest_to_host_divisors ctx_direct_125 (Some surface_129)) = true /\
  sl_transform_guest_to_host ctx_direct_125 (Some surface_129) (-3) 0
    = Some (-2, 0) /\
  (-3 <= 0 -> -2 <= 0) /\ (0 <= 0 -> 0 <= 0).
Proof.
  assert (Hr : sl_transform_guest_to_host ctx_direct_125 (Some surface_129) (-3) 0
               = Some (-2, 0)) by (vm_compute; reflexivity).
  destruct (guest_to_host_keeps_sign ctx_direct_125 (Some surface_129)
              (-3) 0 (-2) 0 eq_refl Hr) as (_ & H2 & H3 & _).
  split; [reflexivity|]. split; [exact Hr|]. split; assumption.
Defined.

(** The direct-mode way back keeps signs as well, with either rounding. *)
Lemma axis_to_guest_sign (d : double) (flag : bool) (c z : Z) :
  is_pos d = true -> axis_to_guest d flag c = Some z ->
  (0 <= c -> 0 <= z) /\ (c <= 0 -> z <= 0).
Proof.
  intros Hd. unfold axis_to_guest.
  destruct (whole flag (mul d (of_Z c))) as [v|] eqn:Hv; cbn [bind];
    [|discriminate].
  unfold to_int32. intros Hz. split; intros Hc.
  - refine (to_int_nonneg _ _ _ z _ Hz).
    apply (whole_nonneg flag _ _ (mul_nonneg _ _ Hd (of_Z_nonneg c Hc)) Hv).
  - refine (to_int_nonpos _ _ _ z _ Hz).
    apply (whole_nonpos flag _ _ (mul_nonpos _ _ Hd (of_Z_nonpos c Hc)) Hv).
Qed.

(** X12: with strictly positive factors host to guest keeps signs too, in
    direct mode whether an axis truncates or rounds to nearest, and in
    legacy mode. *)
Theorem host_to_guest_keeps_sign
    (ctx : sl_context) (surface : option sl_host_surface) (x y x' y' : Z)
    (Hpos : both_positive (guest_to_host_divisors ctx surface) = true)
    (Hres : sl_transform_host_to_guest ctx surface x y = Some (x', y')) :
  (0 <= x -> 0 <= x') /\ (x <= 0 -> x' <= 0) /\
  (0 <= y -> 0 <= y') /\ (y <= 0 -> y' <= 0).
Proof.
  unfold both_positive, guest_to_host_divisors in Hpos.
  unfold sl_transform_host_to_guest in Hres.
  destruct (use_direct_scale ctx).
  - apply andb_prop in Hpos as [Hpx Hpy].
    rewrite direct_to_guest_axes in Hres.
    apply both_axes_some in Hres as [Ha Hb].
    destruct (axis_to_guest_sign _ _ x x' Hpx Ha).
    destruct (axis_to_guest_sign _ _ y y' Hpy Hb).
    auto.
  - cbn [legacy_factors fst snd] in Hpos. apply andb_prop in Hpos as [Hp _].
    destruct (to_int32 (mul (of_Z x) (scale ctx))) as [a|] eqn:Ha;
      cbn [bind] in Hres; [|discriminate].
    destruct (to_int32 (mul (of_Z y) (scale ctx))) as [b|] eqn:Hb;
      cbn [bind] in Hres; [|discriminate].
    injection Hres as <- <-. unfold to_int32 in Ha, Hb.
    rewrite mul_comm in Ha, Hb.
    repeat split; intros Hc.
    + refine (to_int_nonneg _ _ _ a _ Ha).
      apply mul_nonneg; [assumption | apply of_Z_nonneg; assumption].
    + refine (to_int_nonpos _ _ _ a _ Ha).
      apply mul_nonpos; [assumption | apply of_Z_nonpos; assumption].
    + refine (to_int_nonneg _ _ _ b _ Hb).
      apply mul_nonneg; [assumption | apply of_Z_nonneg; assumption].
    + refine (to_int_nonpos _ _ _ b _ Hb).
      apply mul_nonpos; [assumption | apply of_Z_nonpos; assumption].
Qed.

Lemma host_to_guest_keeps_sign_witness :
  both_positive (guest_to_host_divisors ctx_direct_125 (Some surface_129)) = true /\
  sl_transform_host_to_guest ctx_direct_125 (Some surface_129) (-3) 7
    = Some (-4, 8) /\
  (-3 <= 0 -> -4 <= 0) /\ (0 <= 7 -> 0 <= 8).
Proof.
  assert (Hr : sl_transform_host_to_guest ctx_direct_125 (Some surface_129) (-3) 7
               = Some (-4, 8)) by (vm_compute; reflexivity).
  destruct (host_to_guest_keeps_sign ctx_direct_125 (Some surface_129)
              (-3) 7 (-4) 8 eq_refl Hr) as (_ & H2 & H3 & _).
  split; [reflexivity|]. split; [exact Hr|]. split; assumption.
Defined.

(** ** Damage and viewport at a power-of-two scale *)

Lemma quot_abs_le (n d : Z) : 0 < d -> Z.abs (Z.quot n d) <= Z.abs n.
Proof.
  intros Hd.
  pose proof (Z.quot_rem n d ltac:(lia)) as Hq.
  destruct (Z.le_gt_cases 0 n).
  - pose proof (Z.rem_bound_pos n d ltac:(lia) Hd).
    assert (0 <= Z.quot n d) by (apply Z.quot_pos; lia). nia.
  - pose proof (Z.rem_opp_l n d ltac:(lia)).
    pose proof (Z.rem_bound_pos (- n) d ltac:(lia) Hd).
    pose proof (Z.quot_opp_l n d ltac:(lia)).
    assert (0 <= Z.quot (- n) d) by (apply Z.quot_pos; lia). nia.
Qed.

Lemma cdiv_bounds (n d : Z) : 0 < d -> n <= cdiv n d * d < n + d.
Proof.
  intros Hd. unfold cdiv.
  pose proof (Z.div_mod (- n) d ltac:(lia)).
  pose proof (Z.mod_pos_bound (- n) d Hd). nia.
Qed.

Lemma cdiv_abs_le (n d : Z) : 0 < d -> Z.abs (cdiv n d) <= Z.abs n.
Proof.
  intros Hd. pose proof (cdiv_bounds n d Hd).
  destruct (Z.le_gt_cases 0 n); [assert (0 <= cdiv n d) by nia|
                                 assert (cdiv n d <= 0) by nia]; nia.
Qed.

Lemma cdiv_mono (a b d : Z) : 0 < d -> a <= b -> cdiv a d <= cdiv b d.
Proof.
  intros Hd Hab. unfold cdiv.
  pose proof (Z.div_le_mono (- b) (- a) d Hd ltac:(lia)). lia.
Qed.

Lemma quot_le_cdiv (n d : Z) : 0 < d -> Z.quot n d <= cdiv n d.
Proof.
  intros Hd. pose proof (cdiv_bounds n d Hd).
  pose proof (Z.quot_rem n d ltac:(lia)) as Hq.
  destruct (Z.le_gt_cases 0 n).
  - pose proof (Z.rem_bound_pos n d ltac:(lia) Hd). nia.
  - pose proof (Z.rem_opp_l n d ltac:(lia)).
    pose proof (Z.rem_bound_pos (- n) d ltac:(lia) Hd). nia.
Qed.

Ltac small_side :=
  first [ lia
        | change (2 ^ 53) with 9007199254740992; lia
        | change (2 ^ 52) with 4503599627370496; lia ].

Lemma to_int64_trunc_quot (n k : Z) :
  Z.abs n < 2 ^ 53 -> 0 <= k <= 900 ->
  to_int64 (trunc (div (of_Z n) (pow2 k))) = Some (Z.quot n (2 ^ k)).
Proof.
  intros Hn Hk.
  assert (Hpow : 0 < 2 ^ k) by (apply Z.pow_pos_nonneg; lia).
  pose proof (quot_abs_le n (2 ^ k) Hpow).
  change (2 ^ 53) with 9007199254740992 in Hn.
  unfold to_int64, INT64_MIN, INT64_MAX.
  change (- 2 ^ 63) with (-9223372036854775808).
  change (2 ^ 63 - 1) with 9223372036854775807.
  apply to_int_trunc_div_pow2; small_side.
Qed.

Lemma to_int64_quot (n k : Z) :
  Z.abs n < 2 ^ 53 -> 0 <= k <= 900 ->
  to_int64 (div (of_Z n) (pow2 k)) = Some (Z.quot n (2 ^ k)).
Proof.
  intros Hn Hk.
  assert (Hpow : 0 < 2 ^ k) by (apply Z.pow_pos_nonneg; lia).
  pose proof (quot_abs_le n (2 ^ k) Hpow).
  change (2 ^ 53) with 9007199254740992 in Hn.
  unfold to_int64, INT64_MIN, INT64_MAX.
  change (- 2 ^ 63) with (-9223372036854775808).
  change (2 ^ 63 - 1) with 9223372036854775807.
  apply to_int_div_pow2; small_side.
Qed.

Lemma to_int64_cdiv (n k : Z) :
  Z.abs n <= 2 ^ 52 -> 0 <= k <= 900 ->
  to_int64 (ceil (div (of_Z n) (pow2 k))) = Some (cdiv n (2 ^ k)).
Proof.
  intros Hn Hk.
  assert (Hpow : 0 < 2 ^ k) by (apply Z.pow_pos_nonneg; lia).
  pose proof (cdiv_abs_le n (2 ^ k) Hpow).
  unfold to_int64, INT64_MIN, INT64_MAX.
  change (- 2 ^ 63) with (-9223372036854775808).
  change (2 ^ 63 - 1) with 9223372036854775807.
  change (2 ^ 52) with 4503599627370496 in Hn.
  apply to_int_ceil_div_pow2; try lia;
    change (2 ^ 52) with 4503599627370496; lia.
Qed.

Section DamagePowerOfTwo.

Variables MIN_SIZE MAX_SIZE : Z.
Variable ctx : sl_context.
Variable surface : option sl_host_surface.
Variables k jx jy : Z.
Variable r : rect.
Hypothesis Hscale : pow2_scale ctx k.
Hypothesis Hno : no_override surface.
Hypothesis Hk : 0 <= k <= 30.
Hypothesis Hjx : 0 <= jx <= 30.
Hypothesis Hjy : 0 <= jy <= 30.
Hypothesis Hr : small_rect r.
Hypothesis Hmin : small MIN_SIZE.
Hypothesis Hmax : small MAX_SIZE.

Lemma damage_pow2 :
  sl_transform_damage_coord MIN_SIZE MAX_SIZE ctx surface (pow2 jx) (pow2 jy) r
    = Some (if use_direct_scale ctx
            then damage_direct_at (k + jx) (k + jy) r
            else damage_legacy_at MIN_SIZE MAX_SIZE (k + jx) (k + jy) r).
Proof.
  destruct Hr as (H1 & H2 & H3 & H4). unfold small in *.
  change (2 ^ 52) with 4503599627370496 in *.
  destruct (use_direct_scale ctx) eqn:Hd.
  - rewrite damage_direct_refines by assumption.
    unfold damage_direct_spec, scaled_down_trunc.
    rewrite (pow2_factors ctx surface k) by assumption. cbn [fst snd].
    rewrite !mul_pow2_pow2 by lia.
    rewrite !to_int64_trunc_quot by small_side.
    reflexivity.
  - rewrite damage_legacy_refines by assumption.
    unfold damage_legacy_spec, scaled_down, scaled_down_ceil, outset, checked64.
    rewrite (legacy_pow2 ctx k) by assumption.
    rewrite !mul_pow2_pow2 by lia.
    replace (INT64_MIN <=? rx1 r - 1) with true
      by (symmetry; apply Z.leb_le; unfold INT64_MIN; lia).
    replace (rx1 r - 1 <=? INT64_MAX) with true
      by (symmetry; apply Z.leb_le; unfold INT64_MAX; lia).
    replace (INT64_MIN <=? ry1 r - 1) with true
      by (symmetry; apply Z.leb_le; unfold INT64_MIN; lia).
    replace (ry1 r - 1 <=? INT64_MAX) with true
      by (symmetry; apply Z.leb_le; unfold INT64_MAX; lia).
    replace (INT64_MIN <=? rx2 r + 1) with true
      by (symmetry; apply Z.leb_le; unfold INT64_MIN; lia).
    replace (rx2 r + 1 <=? INT64_MAX) with true
      by (symmetry; apply Z.leb_le; unfold INT64_MAX; lia).
    replace (INT64_MIN <=? ry2 r + 1) with true
      by (symmetry; apply Z.leb_le; unfold INT64_MIN; lia).
    replace (ry2 r + 1 <=? INT64_MAX) with true
      by (symmetry; apply Z.leb_le; unfold INT64_MAX; lia).
    cbn [andb bind]. unfold clamp_rect. cbn [rx1 ry1 rx2 ry2].
    rewrite !to_int64_quot by small_side.
    rewrite !to_int64_cdiv by small_side.
    reflexivity.
Qed.

End DamagePowerOfTwo.


(** ** The damage transform and the order of clamp and outset *)

Lemma outset_some (r r' : rect) :
  outset r = Some r' ->
  r' = mk_rect (rx1 r - 1) (ry1 r - 1) (rx2 r + 1) (ry2 r + 1).
Proof.
  unfold outset, checked64.
  repeat (match goal with
          | |- context [if ?c then _ else _] => destruct c
          end; cbn [bind]; try discriminate).
  intros [= <-]. reflexivity.
Qed.

Lemma clamp_inside (lo hi c : Z) : lo <= c <= hi -> clamp lo hi c = c.
Proof. unfold clamp. lia. Qed.

Lemma damage_claimed_inside
    (MIN_SIZE MAX_SIZE : Z) (ctx : sl_context)
    (bsx bsy : double) (r : rect) :
  MIN_SIZE < rx1 r <= MAX_SIZE -> MIN_SIZE < ry1 r <= MAX_SIZE ->
  MIN_SIZE <= rx2 r < MAX_SIZE -> MIN_SIZE <= ry2 r < MAX_SIZE ->
  damage_legacy_spec MIN_SIZE MAX_SIZE ctx bsx bsy r
    = damage_legacy_claimed MIN_SIZE MAX_SIZE ctx bsx bsy r.
Proof.
  intros Hx1 Hy1 Hx2 Hy2.
  unfold damage_legacy_spec, damage_legacy_claimed.
  assert (Hin : clamp_into MIN_SIZE MAX_SIZE r = r).
  { destruct r as [a b c d]. unfold clamp_into. cbn [rx1 ry1 rx2 ry2] in *.
    rewrite !clamp_inside by lia. reflexivity. }
  rewrite Hin.
  destruct (outset r) as [r'|] eqn:Ho; cbn [bind]; [|reflexivity].
  apply outset_some in Ho. subst r'.
  unfold clamp_rect. cbn [rx1 ry1 rx2 ry2].
  rewrite !Z.max_r, !Z.min_l by lia. reflexivity.
Qed.

(** C4 (as stated, refuted): the legacy branch does not clamp the
    rectangle into [[MIN_SIZE, MAX_SIZE]] and then outset it.  With every
    factor 1 and the limits a tenth of the [int] range, the full-surface
    rectangle [(0,0)-(2147483647,2147483647)] gets the far corner
    [214748364] from the code, where clamping first and then outsetting
    gives [214748365]; and for [(300000000,0)-(300000001,1)] the code
    leaves the near corner at [299999999], above [MAX_SIZE] and above
    its own far corner, where clamping first gives [214748363]. *)
Lemma C4_clamp_order_counterexample :
  use_direct_scale ctx_legacy_1 = false /\
  sl_transform_damage_coord MIN_SIZE_default MAX_SIZE_default
      ctx_legacy_1 None one one (mk_rect 0 0 2147483647 2147483647)
    = Some (mk_rect (-1) (-1) 214748364 214748364) /\
  damage_legacy_claimed MIN_SIZE_default MAX_SIZE_default
      ctx_legacy_1 one one (mk_rect 0 0 2147483647 2147483647)
    = Some (mk_rect (-1) (-1) 214748365 214748365) /\
  sl_transform_damage_coord MIN_SIZE_default MAX_SIZE_default
      ctx_legacy_1 None one one (mk_rect 300000000 0 300000001 1)
    = Some (mk_rect 299999999 (-1) 214748364 2) /\
  damage_legacy_claimed MIN_SIZE_default MAX_SIZE_default
      ctx_legacy_1 one one (mk_rect 300000000 0 300000001 1)
    = Some (mk_rect 214748363 (-1) 214748365 2) /\
  sl_transform_damage_coord MIN_SIZE_default MAX_SIZE_default
      ctx_legacy_1 None one one (mk_rect 0 0 2147483647 2147483647)
    <> damage_legacy_claimed MIN_SIZE_default MAX_SIZE_default
         ctx_legacy_1 one one (mk_rect 0 0 2147483647 2147483647).
Proof.
  split; [reflexivity|].
  split; [vm_compute; reflexivity|].
  split; [vm_compute; reflexivity|].
  split; [vm_compute; reflexivity|].
  split; [vm_compute; reflexivity|].
  vm_compute. discriminate.
Qed.

(** C4 (amended): in legacy mode the damage rectangle is first outset by
    one pixel in each direction; then the outset top-left corner is raised
    to [MIN_SIZE] and the outset bottom-right corner is lowered to
    [MAX_SIZE], each corner bounded on that one side only; the result is
    divided by the legacy factor times the buffer scale, with the fraction
    dropped for the top-left corner and rounded up for the bottom-right
    corner.  For a rectangle strictly inside the limits this is the same
    as clamping first and outsetting afterwards.  In direct mode each
    corner is divided by the resolved factor times the buffer scale and
    truncated, with no outset and no clamp (the result does not depend on
    [MIN_SIZE] and [MAX_SIZE]).  At a scale of [2^k] and buffer scales
    [2^jx], [2^jy] the results are, in integers: in direct mode every
    coordinate divided by [2^(k+j)] toward zero; in legacy mode
    [max(MIN_SIZE, c - 1)] divided toward zero for the top-left corner and
    [min(c + 1, MAX_SIZE)] divided and rounded up for the bottom-right
    corner.  With every factor equal to 2 the two modes still differ on
    the rectangle [(10,10)-(20,20)]. *)
Theorem C4_damage_transform
    (MIN_SIZE MAX_SIZE MIN_SIZE' MAX_SIZE' : Z)
    (ctx : sl_context) (surface : option sl_host_surface)
    (bsx bsy : double) (r : rect) :
  sl_transform_damage_coord MIN_SIZE MAX_SIZE ctx surface bsx bsy r
    = (if use_direct_scale ctx
       then damage_direct_spec ctx surface bsx bsy r
       else damage_legacy_spec MIN_SIZE MAX_SIZE ctx bsx bsy r) /\
  (if use_direct_scale ctx
   then sl_transform_damage_coord MIN_SIZE MAX_SIZE ctx surface bsx bsy r
        = sl_transform_damage_coord MIN_SIZE' MAX_SIZE' ctx surface bsx bsy r
   else True) /\
  (forall k jx jy,
      pow2_scale ctx k -> no_override surface ->
      0 <= k <= 30 -> 0 <= jx <= 30 -> 0 <= jy <= 30 ->
      small_rect r -> small MIN_SIZE -> small MAX_SIZE ->
      sl_transform_damage_coord MIN_SIZE MAX_SIZE ctx surface
          (pow2 jx) (pow2 jy) r
        = Some (if use_direct_scale ctx
                then mk_rect (Z.quot (rx1 r) (2 ^ (k + jx)))
                             (Z.quot (ry1 r) (2 ^ (k + jy)))
                             (Z.quot (rx2 r) (2 ^ (k + jx)))
                             (Z.quot (ry2 r) (2 ^ (k + jy)))
                else mk_rect (Z.quot (Z.max MIN_SIZE (rx1 r - 1)) (2 ^ (k + jx)))
                             (Z.quot (Z.max MIN_SIZE (ry1 r - 1)) (2 ^ (k + jy)))
                             (cdiv (Z.min (rx2 r + 1) MAX_SIZE) (2 ^ (k + jx)))
                             (cdiv (Z.min (ry2 r + 1) MAX_SIZE) (2 ^ (k + jy))))) /\
  (use_direct_scale ctx = false ->
   MIN_SIZE < rx1 r <= MAX_SIZE -> MIN_SIZE < ry1 r <= MAX_SIZE ->
   MIN_SIZE <= rx2 r < MAX_SIZE -> MIN_SIZE <= ry2 r < MAX_SIZE ->
   sl_transform_damage_coord MIN_SIZE MAX_SIZE ctx surface bsx bsy r
     = damage_legacy_claimed MIN_SIZE MAX_SIZE ctx bsx bsy r) /\
  sl_transform_damage_coord MIN_SIZE_default MAX_SIZE_default
      ctx_legacy_all_2 None one one (mk_rect 10 10 20 20)
    = Some (mk_rect 4 4 11 11) /\
  sl_transform_damage_coord MIN_SIZE_default MAX_SIZE_default
      ctx_direct_2 None one one (mk_rect 10 10 20 20)
    = Some (mk_rect 5 5 10 10) /\
  sl_transform_damage_coord MIN_SIZE_default MAX_SIZE_default
      ctx_legacy_125 None (of_Z 2) one (mk_rect 10 10 20 20)
    = Some (mk_rect 3 7 9 17) /\
  sl_transform_damage_coord MIN_SIZE_default MAX_SIZE_default
      ctx_legacy_all_2 None one one
      (mk_rect (-300000000) (-7) 300000000 7)
    = Some (mk_rect (-107374182) (-4) 107374182 4).
Proof.
  split; [|split; [|split; [|split]]].
  - destruct (use_direct_scale ctx) eqn:Hd.
    + apply damage_direct_refines; assumption.
    + apply damage_legacy_refines; assumption.
  - destruct (use_direct_scale ctx) eqn:Hd; [|exact I].
    rewrite !damage_direct_refines by assumption. reflexivity.
  - intros k jx jy Hscale Hno Hk Hjx Hjy Hr Hmin Hmax.
    rewrite (damage_pow2 MIN_SIZE MAX_SIZE ctx surface k jx jy r)
      by assumption.
    reflexivity.
  - intros Hd Hx1 Hy1 Hx2 Hy2.
    rewrite damage_legacy_refines by assumption.
    apply damage_claimed_inside; assumption.
  - repeat split; vm_compute; reflexivity.
Qed.

Lemma quot_mono (a b d : Z) : 0 < d -> a <= b -> Z.quot a d <= Z.quot b d.
Proof. intros Hd Hab. apply Z.quot_le_mono; lia. Qed.

Lemma quot_mul_le (v d : Z) : 0 < d -> 0 <= v -> Z.quot v d * d <= v.
Proof.
  intros Hd Hv. rewrite quot_mul_rem by lia.
  pose proof (Z.rem_bound_pos v d Hv Hd). lia.
Qed.

Lemma quot_mul_gt (v d : Z) : 0 < d -> v - d < Z.quot v d * d.
Proof.
  intros Hd. rewrite quot_mul_rem by lia.
  destruct (Z.le_gt_cases 0 v).
  - pose proof (Z.rem_bound_pos v d ltac:(lia) Hd). lia.
  - pose proof (Z.rem_opp_l v d ltac:(lia)).
    pose proof (Z.rem_bound_pos (- v) d ltac:(lia) Hd). lia.
Qed.

Lemma quot_mul_nonpos (v d : Z) : 0 < d -> -1 <= v <= 0 -> Z.quot v d * d <= 0.
Proof.
  intros Hd Hv. rewrite quot_mul_rem by lia.
  pose proof (Z.rem_opp_l v d ltac:(lia)).
  pose proof (Z.rem_bound_pos (- v) d ltac:(lia) Hd).
  pose proof (Z.rem_le (- v) d ltac:(lia) Hd). lia.
Qed.

Lemma outset_low (lo x d : Z) :
  0 < d -> lo <= x -> 0 <= x ->
  x - 1 - d < Z.quot (Z.max lo (x - 1)) d * d <= x.
Proof.
  intros Hd Hlo Hx.
  pose proof (quot_mul_gt (Z.max lo (x - 1)) d Hd).
  split; [lia|].
  destruct (Z.le_gt_cases 0 (Z.max lo (x - 1))).
  - pose proof (quot_mul_le (Z.max lo (x - 1)) d Hd ltac:(lia)). lia.
  - pose proof (quot_mul_nonpos (Z.max lo (x - 1)) d Hd ltac:(lia)). lia.
Qed.

Lemma outset_high (hi x d : Z) :
  0 < d -> x <= hi ->
  x <= cdiv (Z.min (x + 1) hi) d * d < x + 1 + d.
Proof.
  intros Hd Hhi. pose proof (cdiv_bounds (Z.min (x + 1) hi) d Hd). lia.
Qed.

(** X13: in legacy mode at a scale of [2^k] and buffer scales [2^jx],
    [2^jy], the damage rectangle the transform returns, scaled back up,
    encloses the input rectangle (for a rectangle with a non-negative
    origin, inside the size limits), and overshoots it by less than the
    one-pixel outset plus one scaled unit on each side. *)
Theorem damage_legacy_encloses
    (MIN_SIZE MAX_SIZE : Z) (ctx : sl_context)
    (surface : option sl_host_surface) (k jx jy : Z) (r : rect)
    (Hlegacy : use_direct_scale ctx = false)
    (Hscale : scale ctx = pow2 k)
    (Hk : 0 <= k <= 30) (Hjx : 0 <= jx <= 30) (Hjy : 0 <= jy <= 30)
    (Hr : small_rect r) (Hmin : small MIN_SIZE) (Hmax : small MAX_SIZE)
    (Hx1 : Z.max 0 MIN_SIZE <= rx1 r) (Hy1 : Z.max 0 MIN_SIZE <= ry1 r)
    (Hx2 : rx2 r <= MAX_SIZE) (Hy2 : ry2 r <= MAX_SIZE) :
  exists r',
    sl_transform_damage_coord MIN_SIZE MAX_SIZE ctx surface
      (pow2 jx) (pow2 jy) r = Some r' /\
    rx1 r - 1 - 2 ^ (k + jx) < rx1 r' * 2 ^ (k + jx) <= rx1 r /\
    ry1 r - 1 - 2 ^ (k + jy) < ry1 r' * 2 ^ (k + jy) <= ry1 r /\
    rx2 r <= rx2 r' * 2 ^ (k + jx) < rx2 r + 1 + 2 ^ (k + jx) /\
    ry2 r <= ry2 r' * 2 ^ (k + jy) < ry2 r + 1 + 2 ^ (k + jy).
Proof.
  assert (Hp : pow2_scale ctx k) by (unfold pow2_scale; rewrite Hlegacy; exact Hscale).
  assert (Hno : no_override None) by reflexivity.
  assert (Hdx : 0 < 2 ^ (k + jx)) by (apply Z.pow_pos_nonneg; lia).
  assert (Hdy : 0 < 2 ^ (k + jy)) by (apply Z.pow_pos_nonneg; lia).
  exists (damage_legacy_at MIN_SIZE MAX_SIZE (k + jx) (k + jy) r).
  split.
  - rewrite damage_legacy_refines by assumption.
    rewrite <- (damage_legacy_refines MIN_SIZE MAX_SIZE ctx None) by assumption.
    rewrite (damage_pow2 MIN_SIZE MAX_SIZE ctx None k jx jy r) by assumption.
    rewrite Hlegacy. reflexivity.
  - unfold damage_legacy_at. cbn [rx1 ry1 rx2 ry2].
    split; [apply outset_low; lia|].
    split; [apply outset_low; lia|].
    split; apply outset_high; lia.
Qed.

Lemma damage_legacy_encloses_witness :
  exists r',
    sl_transform_damage_coord MIN_SIZE_default MAX_SIZE_default ctx_legacy_x2
      None (pow2 0) (pow2 1) (mk_rect 0 5 10 11) = Some r' /\
    0 - 1 - 2 ^ (1 + 0) < rx1 r' * 2 ^ (1 + 0) <= 0 /\
    5 - 1 - 2 ^ (1 + 1) < ry1 r' * 2 ^ (1 + 1) <= 5 /\
    10 <= rx2 r' * 2 ^ (1 + 0) < 10 + 1 + 2 ^ (1 + 0) /\
    11 <= ry2 r' * 2 ^ (1 + 1) < 11 + 1 + 2 ^ (1 + 1).
Proof.
  apply (damage_legacy_encloses MIN_SIZE_default MAX_SIZE_default
           ctx_legacy_x2 None 1 0 1 (mk_rect 0 5 10 11) eq_refl eq_refl);
    unfold small_rect, small, MIN_SIZE_default, MAX_SIZE_default;
    cbn [rx1 ry1 rx2 ry2]; lia.
Defined.

(** X14: for a rectangle inside the size limits ([MIN_SIZE <= x1, y1]
    and [x2, y2 <= MAX_SIZE]), at the same power-of-two scale (no
    override) and power-of-two buffer scales, with coordinates and limits
    below [2^52] in magnitude, the rectangle returned in direct mode lies
    within the one returned in legacy mode: direct mode drops the outset
    and rounds the far corner toward zero where legacy mode rounds it up.
    Outside the limits the containment can fail, since legacy mode cuts
    the far corner to [MAX_SIZE] and direct mode does not: at scale 2 the
    full-surface rectangle [(0,0)-(2147483647,2147483647)] gets the far
    corner [1073741823] in direct mode and [107374182] in legacy mode. *)
Theorem damage_direct_within_legacy
    (MIN_SIZE MAX_SIZE : Z) (ctx_d ctx_l : sl_context)
    (surface : option sl_host_surface) (k jx jy : Z) (r : rect)
    (Hdirect : use_direct_scale ctx_d = true)
    (Hlegacy : use_direct_scale ctx_l = false)
    (Hscale_d : pow2_scale ctx_d k) (Hscale_l : pow2_scale ctx_l k)
    (Hno : no_override surface)
    (Hk : 0 <= k <= 30) (Hjx : 0 <= jx <= 30) (Hjy : 0 <= jy <= 30)
    (Hr : small_rect r) (Hmin : small MIN_SIZE) (Hmax : small MAX_SIZE)
    (Hx1 : MIN_SIZE <= rx1 r) (Hy1 : MIN_SIZE <= ry1 r)
    (Hx2 : rx2 r <= MAX_SIZE) (Hy2 : ry2 r <= MAX_SIZE) :
  (exists rd rl,
      sl_transform_damage_coord MIN_SIZE MAX_SIZE ctx_d surface
        (pow2 jx) (pow2 jy) r = Some rd /\
      sl_transform_damage_coord MIN_SIZE MAX_SIZE ctx_l surface
        (pow2 jx) (pow2 jy) r = Some rl /\
      rect_within rd rl) /\
  sl_transform_damage_coord MIN_SIZE_default MAX_SIZE_default ctx_direct_x2
      None (pow2 0) (pow2 0) (mk_rect 0 0 2147483647 2147483647)
    = Some (mk_rect 0 0 1073741823 1073741823) /\
  sl_transform_damage_coord MIN_SIZE_default MAX_SIZE_default ctx_legacy_x2
      None (pow2 0) (pow2 0) (mk_rect 0 0 2147483647 2147483647)
    = Some (mk_rect 0 0 107374182 107374182).
Proof.
  assert (Hdx : 0 < 2 ^ (k + jx)) by (apply Z.pow_pos_nonneg; lia).
  assert (Hdy : 0 < 2 ^ (k + jy)) by (apply Z.pow_pos_nonneg; lia).
  split; [|split; vm_compute; reflexivity].
  exists (damage_direct_at (k + jx) (k + jy) r),
         (damage_legacy_at MIN_SIZE MAX_SIZE (k + jx) (k + jy) r).
  split; [|split].
  - rewrite (damage_pow2 MIN_SIZE MAX_SIZE ctx_d surface k jx jy r) by assumption.
    rewrite Hdirect. reflexivity.
  - rewrite (damage_pow2 MIN_SIZE MAX_SIZE ctx_l surface k jx jy r) by assumption.
    rewrite Hlegacy. reflexivity.
  - unfold rect_within, damage_direct_at, damage_legacy_at.
    cbn [rx1 ry1 rx2 ry2].
    split; [apply quot_mono; lia|].
    split; [apply quot_mono; lia|].
    split.
    + etransitivity; [apply quot_le_cdiv; assumption|].
      apply cdiv_mono; lia.
    + etransitivity; [apply quot_le_cdiv; assumption|].
      apply cdiv_mono; lia.
Qed.

Lemma damage_direct_within_legacy_witness :
  exists rd rl,
    sl_transform_damage_coord MIN_SIZE_default MAX_SIZE_default ctx_direct_x2
      None (pow2 0) (pow2 1) (mk_rect (-3) 5 10 11) = Some rd /\
    sl_transform_damage_coord MIN_SIZE_default MAX_SIZE_default ctx_legacy_x2
      None (pow2 0) (pow2 1) (mk_rect (-3) 5 10 11) = Some rl /\
    rect_within rd rl.
Proof.
  refine (proj1 (damage_direct_within_legacy MIN_SIZE_default MAX_SIZE_default
           ctx_direct_x2 ctx_legacy_x2 None 1 0 1 (mk_rect (-3) 5 10 11)
           eq_refl eq_refl (conj eq_refl eq_refl) eq_refl eq_refl
           _ _ _ _ _ _ _ _ _ _));
    unfold small_rect, small, MIN_SIZE_default, MAX_SIZE_default;
    cbn [rx1 ry1 rx2 ry2]; lia.
Defined.

(** ** Viewport at a power-of-two scale *)

Lemma cdiv_pos (n d : Z) : 0 < d -> 1 <= n -> 1 <= cdiv n d <= n.
Proof.
  intros Hd Hn. pose proof (cdiv_bounds n d Hd). split; nia.
Qed.

Lemma cdiv_range (n d : Z) : 0 < d -> Z.min 0 n <= cdiv n d <= Z.max 0 n.
Proof.
  intros Hd. pose proof (cdiv_bounds n d Hd).
  destruct (Z.le_gt_cases 0 n); [assert (0 <= cdiv n d) by nia|
                                 assert (cdiv n d <= 0) by nia]; nia.
Qed.

Lemma to_int32_cdiv (n k : Z) :
  int32 n -> 0 <= k <= 900 ->
  to_int32 (ceil (div (of_Z n) (pow2 k))) = Some (cdiv n (2 ^ k)).
Proof.
  intros Hn Hk.
  assert (Hpow : 0 < 2 ^ k) by (apply Z.pow_pos_nonneg; lia).
  pose proof (cdiv_range n (2 ^ k) Hpow).
  unfold int32, INT32_MIN, INT32_MAX in Hn.
  change (- 2 ^ 31) with (-2147483648) in Hn.
  change (2 ^ 31 - 1) with 2147483647 in Hn.
  unfold to_int32, INT32_MIN, INT32_MAX.
  change (- 2 ^ 31) with (-2147483648).
  change (2 ^ 31 - 1) with 2147483647.
  apply to_int_ceil_div_pow2; small_side.
Qed.

Lemma viewport_legacy_pow2
    (ctx : sl_context) (surface : option sl_host_surface)
    (k j width height : Z) :
  use_direct_scale ctx = false -> scale ctx = pow2 k ->
  0 <= k <= 30 -> 0 <= j <= 30 -> int32 width -> int32 height ->
  sl_transform_viewport_scale ctx surface (pow2 j) width height
    = Some (true, cdiv width (2 ^ (k + j)), cdiv height (2 ^ (k + j))).
Proof.
  intros Hd Hs Hk Hj Hw Hh.
  rewrite viewport_refines, Hd. unfold viewport_legacy_spec.
  rewrite Hs, mul_pow2_pow2 by lia.
  rewrite !to_int32_cdiv by (assumption || lia). reflexivity.
Qed.

(** C5: the viewport transform signals [apply_viewport = true]; in direct
    mode it is guest to host followed by a floor of 1 on each dimension, so
    no dimension it returns is below 1, and 1 x 1 at factor 100 gives
    1 x 1; in legacy mode each dimension is
    [ceil(dimension / (legacy_scale * contents_scale))].  With direct-mode
    defaults [2^k] and no override it returns, for every 32-bit size, the
    quotients rounded toward zero and raised to 1.  In legacy mode with
    legacy factor [2^k] and contents scale [2^j] it returns, for every
    32-bit size, each dimension divided by [2^(k+j)] and rounded up: the
    least integer whose product with [2^(k+j)] reaches the dimension.
    3 x 9 at legacy factor 2 and contents scale 2 gives 1 x 3, 129 x 100
    at legacy factor 1.25 gives 104 x 80, and -3 x 0 at legacy factor 2
    gives -1 x 0. *)
Theorem C5_viewport_scale
    (ctx : sl_context) (surface : option sl_host_surface)
    (contents_scale : double) (width height : Z) :
  sl_transform_viewport_scale ctx surface contents_scale width height
    = (if use_direct_scale ctx
       then viewport_direct_spec ctx surface width height
       else viewport_legacy_spec ctx contents_scale width height) /\
  (forall (apply_viewport : bool) (w h : Z),
      sl_transform_viewport_scale ctx surface contents_scale width height
        = Some (apply_viewport, w, h) ->
      apply_viewport = true /\
      (use_direct_scale ctx = true -> 1 <= w /\ 1 <= h)) /\
  (forall k,
      use_direct_scale ctx = true -> no_override surface ->
      ctx_xdg_scale_x ctx = pow2 k -> ctx_xdg_scale_y ctx = pow2 k ->
      0 <= k <= 30 -> int32 width -> int32 height ->
      sl_transform_viewport_scale ctx surface contents_scale width height
        = Some (true, Z.max 1 (Z.quot width (2 ^ k)),
                      Z.max 1 (Z.quot height (2 ^ k)))) /\
  sl_transform_viewport_scale ctx_direct_100 None one 1 1 = Some (true, 1, 1) /\
  (forall k j,
      use_direct_scale ctx = false -> scale ctx = pow2 k ->
      0 <= k <= 30 -> 0 <= j <= 30 -> int32 width -> int32 height ->
      exists w h,
        sl_transform_viewport_scale ctx surface (pow2 j) width height
          = Some (true, w, h) /\
        w = - ((- width) / 2 ^ (k + j)) /\
        h = - ((- height) / 2 ^ (k + j)) /\
        width <= w * 2 ^ (k + j) < width + 2 ^ (k + j) /\
        height <= h * 2 ^ (k + j) < height + 2 ^ (k + j)) /\
  sl_transform_viewport_scale ctx_legacy_2 None (of_Z 2) 3 9
    = Some (true, 1, 3) /\
  sl_transform_viewport_scale ctx_legacy_125 None one 129 100
    = Some (true, 104, 80) /\
  sl_transform_viewport_scale ctx_legacy_2 None one (-3) 0
    = Some (true, -1, 0).
Proof.
  split; [apply viewport_refines|].
  split; [|split; [|split; [vm_compute; reflexivity|split]]].
  - intros b w h. rewrite viewport_refines.
    unfold viewport_direct_spec, viewport_legacy_spec.
    destruct (use_direct_scale ctx).
    + destruct (sl_transform_guest_to_host _ _ _ _) as [[w' h']|];
        cbn [bind]; [|discriminate].
      intros [= <- <- <-]. split; [reflexivity|]. intros _. lia.
    + destruct (to_int32 _); cbn [bind]; [|discriminate].
      destruct (to_int32 _); cbn [bind]; [|discriminate].
      intros [= <- <- <-]. split; [reflexivity|]. discriminate.
  - intros k Hd Hno Hsx Hsy Hk Hw Hh. rewrite viewport_refines, Hd.
    unfold viewport_direct_spec.
    rewrite (direct_to_host_pow2 ctx surface k) by assumption. reflexivity.
  - intros k j Hd Hs Hk Hj Hw Hh.
    assert (Hpow : 0 < 2 ^ (k + j)) by (apply Z.pow_pos_nonneg; lia).
    exists (cdiv width (2 ^ (k + j))), (cdiv height (2 ^ (k + j))).
    split; [apply viewport_legacy_pow2; assumption|].
    split; [reflexivity|]. split; [reflexivity|].
    split; apply cdiv_bounds; assumption.
  - repeat split; vm_compute; reflexivity.
Qed.

(** X15: for positive 32-bit dimensions and a power-of-two scale (and, in
    legacy mode, a power-of-two contents scale) the viewport transform
    returns dimensions between 1 and the input, so it never hands the
    viewporter a zero or negative destination size; in legacy mode the
    result is the least size that covers the input when scaled back
    up. *)
Theorem viewport_dimensions_positive
    (ctx : sl_context) (surface : option sl_host_surface)
    (k j width height : Z)
    (Hscale : pow2_scale ctx k) (Hno : no_override surface)
    (Hk : 0 <= k <= 30) (Hj : 0 <= j <= 30)
    (Hw : 1 <= width) (Hh : 1 <= height)
    (Hw32 : int32 width) (Hh32 : int32 height) :
  exists w h,
    sl_transform_viewport_scale ctx surface (pow2 j) width height
      = Some (true, w, h) /\
    1 <= w <= width /\ 1 <= h <= height /\
    (use_direct_scale ctx = false ->
     width <= w * 2 ^ (k + j) < width + 2 ^ (k + j) /\
     height <= h * 2 ^ (k + j) < height + 2 ^ (k + j)).
Proof.
  rewrite viewport_refines.
  assert (Hpk : 0 < 2 ^ k) by (apply Z.pow_pos_nonneg; lia).
  assert (Hpkj : 0 < 2 ^ (k + j)) by (apply Z.pow_pos_nonneg; lia).
  destruct (use_direct_scale ctx) eqn:Hd.
  - unfold viewport_direct_spec.
    rewrite (pow2_guest_to_host ctx surface k) by assumption. cbn [bind].
    exists (Z.max 1 (Z.quot width (2 ^ k))), (Z.max 1 (Z.quot height (2 ^ k))).
    split; [reflexivity|].
    pose proof (quot_abs_le width (2 ^ k) Hpk).
    pose proof (quot_abs_le height (2 ^ k) Hpk).
    split; [lia|]. split; [lia|]. discriminate.
  - unfold viewport_legacy_spec.
    rewrite (legacy_pow2 ctx k) by assumption.
    rewrite mul_pow2_pow2 by lia.
    rewrite !to_int32_cdiv by (assumption || lia). cbn [bind].
    exists (cdiv width (2 ^ (k + j))), (cdiv height (2 ^ (k + j))).
    split; [reflexivity|].
    pose proof (cdiv_pos width _ Hpkj Hw).
    pose proof (cdiv_pos height _ Hpkj Hh).
    pose proof (cdiv_bounds width _ Hpkj).
    pose proof (cdiv_bounds height _ Hpkj).
    split; [lia|]. split; [lia|]. intros _. split; lia.
Qed.

Lemma viewport_dimensions_positive_witness :
  exists w h,
    sl_transform_viewport_scale ctx_legacy_x2 None (pow2 1) 3 9
      = Some (true, w, h) /\
    1 <= w <= 3 /\ 1 <= h <= 9 /\
    (use_direct_scale ctx_legacy_x2 = false ->
     3 <= w * 2 ^ (1 + 1) < 3 + 2 ^ (1 + 1) /\
     9 <= h * 2 ^ (1 + 1) < 9 + 2 ^ (1 + 1)).
Proof.
  apply (viewport_dimensions_positive ctx_legacy_x2 None 1 1 3 9
           eq_refl eq_refl);
    unfold int32, INT32_MIN, INT32_MAX; lia.
Defined.

(** ** Fixed-point coordinates at a power-of-two scale *)

Lemma rdiv_half (n d : Z) : 0 < d -> 2 * Z.abs (rdiv n d * d - n) <= d.
Proof.
  intros Hd. unfold rdiv.
  pose proof (Z.div_mod (2 * Z.abs n + d) (2 * d) ltac:(lia)).
  pose proof (Z.mod_pos_bound (2 * Z.abs n + d) (2 * d) ltac:(lia)).
  destruct (Z.sgn_spec n) as [[? ->] | [[? ->] | [? ->]]]; nia.
Qed.

Lemma rdiv_abs_le (n d : Z) : 0 < d -> Z.abs (rdiv n d) <= Z.abs n.
Proof.
  intros Hd. unfold rdiv.
  assert (0 <= (2 * Z.abs n + d) / (2 * d) <= Z.abs n).
  { split; [apply Z.div_pos; lia|].
    apply Z.lt_succ_r, Z.div_lt_upper_bound; [lia|]. nia. }
  destruct (Z.sgn_spec n) as [[? ->] | [[? ->] | [? ->]]]; lia.
Qed.

Lemma rdiv_range (n d : Z) :
  0 < d -> Z.min 0 n <= rdiv n d <= Z.max 0 n.
Proof.
  intros Hd. unfold rdiv.
  assert (0 <= (2 * Z.abs n + d) / (2 * d) <= Z.abs n).
  { split; [apply Z.div_pos; lia|].
    apply Z.lt_succ_r, Z.div_lt_upper_bound; [lia|]. nia. }
  destruct (Z.sgn_spec n) as [[? ->] | [[? ->] | [? ->]]]; lia.
Qed.

Lemma rdiv_mul (n d : Z) : 0 < d -> rdiv (n * d) d = n.
Proof.
  intros Hd. unfold rdiv.
  rewrite Z.sgn_mul, (Z.sgn_pos d), Z.mul_1_r by assumption.
  rewrite Z.abs_mul, (Z.abs_eq d) by lia.
  replace (2 * (Z.abs n * d) + d) with ((2 * Z.abs n + 1) * d) by ring.
  rewrite Z.div_mul_cancel_r by lia.
  replace ((2 * Z.abs n + 1) / 2) with (Z.abs n)
    by (apply (Z.div_unique _ _ _ 1); lia).
  destruct (Z.sgn_spec n) as [[? ->] | [[? ->] | [? ->]]]; lia.
Qed.

Lemma cond_Zopp_sgn (n q : Z) : n <> 0 -> cond_Zopp (n <? 0) q = Z.sgn n * q.
Proof.
  intros Hn. unfold cond_Zopp.
  destruct (Z.ltb_spec n 0); [rewrite Z.sgn_neg by lia | rewrite Z.sgn_pos by lia];
    lia.
Qed.

(** Dividing an integer by [2^k], rounding to nearest and converting. *)
Lemma to_int_round_div_pow2 (n k lo hi : Z) :
  Z.abs n <= 2 ^ 52 -> 0 <= k <= 900 -> lo <= 0 <= hi ->
  lo <= rdiv n (2 ^ k) <= hi ->
  to_int lo hi (round (div (of_Z n) (pow2 k))) = Some (rdiv n (2 ^ k)).
Proof.
  intros Hn Hk H0 Hr.
  change (2 ^ 52) with 4503599627370496 in Hn.
  assert (Hn' : Z.abs n < 2 ^ 53)
    by (change (2 ^ 53) with 9007199254740992; lia).
  destruct (Z.eq_dec n 0) as [->|Hz]; [reflexivity|].
  destruct (of_Z_normal n) as (m & e & Hof & Hd & He & Hm); [lia|].
  assert (Hpow : 0 < 2 ^ k) by (apply Z.pow_pos_nonneg; lia).
  pose proof (rdiv_abs_le n (2 ^ k) Hpow) as Hle.
  rewrite Hof, div_pow2 by (assumption || lia).
  unfold round. destruct (Z.leb_spec 0 (e - k)) as [Hge|Hlt].
  - assert (e = 0 /\ k = 0) as [-> ->] by lia.
    unfold to_int.
    rewrite (int_part_exact m (0 - 0) (Z.abs n)), cond_Zopp_abs
      by (assumption || lia).
    change (2 ^ 0) with 1 in *.
    replace (rdiv n 1) with n in * by (rewrite <- (rdiv_mul n 1) at 1 by lia; f_equal; lia).
    replace (lo <=? n) with true by (symmetry; apply Z.leb_le; lia).
    replace (n <=? hi) with true by (symmetry; apply Z.leb_le; lia).
    reflexivity.
  - assert (Hq : Z.shiftl (Zpos m + Z.shiftl 1 (- (e - k) - 1)) (e - k)
                 = (2 * Z.abs n + 2 ^ k) / (2 * 2 ^ k)).
    { rewrite <- (Z.shiftr_opp_r _ (e - k)), Z.shiftr_div_pow2 by lia.
      rewrite Z.shiftl_mul_pow2, Z.mul_1_l, Hm by lia.
      assert (He2 : 0 < 2 ^ (- e)) by (apply Z.pow_pos_nonneg; lia).
      assert (Hh : 0 < 2 ^ (- (e - k) - 1)) by (apply Z.pow_pos_nonneg; lia).
      assert (E1 : 2 ^ (- (e - k)) = 2 * 2 ^ (- (e - k) - 1)).
      { rewrite <- (Z.pow_succ_r 2) by lia. f_equal. lia. }
      assert (E2 : 2 * 2 ^ (- (e - k) - 1) = 2 ^ k * 2 ^ (- e)).
      { rewrite <- E1, <- Z.pow_add_r by lia. f_equal. lia. }
      rewrite <- (Z.div_mul_cancel_l _ _ 2) by lia.
      replace (2 * (Z.abs n * 2 ^ (- e) + 2 ^ (- (e - k) - 1)))
        with ((2 * Z.abs n + 2 ^ k) * 2 ^ (- e)) by lia.
      replace (2 * 2 ^ (- (e - k))) with (2 * 2 ^ k * 2 ^ (- e)) by lia.
      apply Z.div_mul_cancel_r; lia. }
    rewrite Hq, cond_Zopp_sgn by assumption.
    fold (rdiv n (2 ^ k)).
    destruct (Z.eq_dec (rdiv n (2 ^ k)) 0) as [Hc0|Hc0].
    + rewrite Hc0. reflexivity.
    + rewrite binary_normalize_nonzero by assumption.
      apply to_int_of_Z; [|assumption].
      change (2 ^ 53) with 9007199254740992. lia.
Qed.

Section FixedPowerOfTwo.

Variables f k : Z.
Hypothesis Hf : int32 f.
Hypothesis Hk : 0 <= k <= 30.

Lemma fixed_mul_pow2 :
  int32 (f * 2 ^ k) ->
  wl_fixed_from_double (mul (wl_fixed_to_double f) (pow2 k)) = Some (f * 2 ^ k).
Proof.
  intros Hfk. unfold wl_fixed_from_double, wl_fixed_to_double.
  change (of_Z 256) with (pow2 8).
  pose proof (int32_exact f Hf). pose proof (int32_exact _ Hfk).
  assert (E : mul (mul (div (of_Z f) (pow2 8)) (pow2 k)) (pow2 8)
              = mul (of_Z f) (pow2 k)).
  { destruct (Z.eq_dec f 0) as [->|Hz]; [reflexivity|].
    destruct (of_Z_normal f) as (m & e & Hof & Hd & He & Hm); [lia|].
    rewrite Hof, div_pow2, !mul_pow2 by (assumption || lia).
    f_equal. lia. }
  rewrite E, mul_of_Z_pow2, round_of_Z by (assumption || lia).
  apply to_int32_of_Z; assumption.
Qed.

Lemma fixed_div_pow2 :
  wl_fixed_from_double (div (wl_fixed_to_double f) (pow2 k))
    = Some (rdiv f (2 ^ k)).
Proof.
  unfold wl_fixed_from_double, wl_fixed_to_double.
  change (of_Z 256) with (pow2 8).
  pose proof (int32_exact f Hf) as Hex.
  assert (Hpow : 0 < 2 ^ k) by (apply Z.pow_pos_nonneg; lia).
  assert (E : mul (div (div (of_Z f) (pow2 8)) (pow2 k)) (pow2 8)
              = div (of_Z f) (pow2 k)).
  { destruct (Z.eq_dec f 0) as [->|Hz]; [reflexivity|].
    destruct (of_Z_normal f) as (m & e & Hof & Hd & He & Hm); [lia|].
    rewrite Hof, !div_pow2, mul_pow2 by (assumption || lia).
    f_equal. lia. }
  rewrite E.
  pose proof (rdiv_abs_le f (2 ^ k) Hpow).
  pose proof (rdiv_range f (2 ^ k) Hpow).
  unfold int32, INT32_MIN, INT32_MAX in Hf.
  change (- 2 ^ 31) with (-2147483648) in Hf.
  change (2 ^ 31 - 1) with 2147483647 in Hf.
  unfold to_int32, INT32_MIN, INT32_MAX.
  change (- 2 ^ 31) with (-2147483648).
  change (2 ^ 31 - 1) with 2147483647.
  apply to_int_round_div_pow2; small_side.
Qed.

End FixedPowerOfTwo.

Lemma pow2_axis_scale
    (ctx : sl_context) (surface : option sl_host_surface) (k axis : Z) :
  use_direct_scale ctx = true -> pow2_scale ctx k -> no_override surface ->
  sl_transform_direct_axis_scale ctx surface axis = pow2 k.
Proof.
  intros Hd Hp Hno. unfold sl_transform_direct_axis_scale.
  rewrite (pow2_factors ctx surface k) by assumption.
  destruct (axis =? 0); reflexivity.
Qed.

Section FixedTransformsPowerOfTwo.

Variable ctx : sl_context.
Variable surface : option sl_host_surface.
Variable k : Z.
Hypothesis Hscale : pow2_scale ctx k.
Hypothesis Hno : no_override surface.
Hypothesis Hk : 0 <= k <= 30.

Lemma pow2_guest_to_host_fixed (x y : Z) :
  int32 x -> int32 y ->
  sl_transform_guest_to_host_fixed ctx surface x y
    = Some (rdiv x (2 ^ k), rdiv y (2 ^ k)).
Proof.
  intros Hx Hy. unfold sl_transform_guest_to_host_fixed.
  destruct (use_direct_scale ctx) eqn:Hd.
  - unfold sl_transform_direct_to_host_fixed.
    rewrite (pow2_factors ctx surface k) by assumption.
    rewrite !fixed_div_pow2 by assumption. reflexivity.
  - rewrite (legacy_pow2 ctx k) by assumption.
    rewrite !fixed_div_pow2 by assumption. reflexivity.
Qed.

Lemma pow2_guest_to_host_fixed_axis (coord axis : Z) :
  int32 coord ->
  sl_transform_guest_to_host_fixed_axis ctx surface coord axis
    = Some (rdiv coord (2 ^ k)).
Proof.
  intros Hc. unfold sl_transform_guest_to_host_fixed_axis.
  destruct (use_direct_scale ctx) eqn:Hd.
  - unfold sl_transform_direct_to_host_fixed_axis.
    rewrite (pow2_axis_scale ctx surface k) by assumption.
    apply fixed_div_pow2; assumption.
  - rewrite (legacy_pow2 ctx k) by assumption.
    apply fixed_div_pow2; assumption.
Qed.

Lemma pow2_host_to_guest_fixed (x y : Z) :
  int32 x -> int32 y -> int32 (x * 2 ^ k) -> int32 (y * 2 ^ k) ->
  sl_transform_host_to_guest_fixed ctx surface x y
    = Some (x * 2 ^ k, y * 2 ^ k).
Proof.
  intros Hx Hy Hxk Hyk. unfold sl_transform_host_to_guest_fixed.
  destruct (use_direct_scale ctx) eqn:Hd.
  - unfold sl_transform_direct_to_guest_fixed.
    rewrite (pow2_factors ctx surface k) by assumption.
    rewrite !fixed_mul_pow2 by assumption. reflexivity.
  - rewrite (legacy_pow2 ctx k) by assumption.
    rewrite !fixed_mul_pow2 by assumption. reflexivity.
Qed.

Lemma pow2_host_to_guest_fixed_axis (coord axis : Z) :
  int32 coord -> int32 (coord * 2 ^ k) ->
  sl_transform_host_to_guest_fixed_axis ctx surface coord axis
    = Some (coord * 2 ^ k).
Proof.
  intros Hc Hck. unfold sl_transform_host_to_guest_fixed_axis.
  destruct (use_direct_scale ctx) eqn:Hd.
  - unfold sl_transform_direct_to_guest_fixed_axis.
    rewrite (pow2_axis_scale ctx surface k) by assumption.
    apply fixed_mul_pow2; assumption.
  - rewrite (legacy_pow2 ctx k) by assumption.
    apply fixed_mul_pow2; assumption.
Qed.

End FixedTransformsPowerOfTwo.

(** X16: at a scale of [2^k] the fixed-point guest-to-host transform has
    a result for all 32-bit coordinates, and on each axis the result is a
    fixed-point value nearest to the exact quotient: it is off by at most
    half a fixed-point unit, it equals every integer that is strictly
    nearer than half a unit, and it stays in the 32-bit range.  Which
    neighbour a quotient exactly halfway between two values goes to is
    left open. *)
Theorem fixed_guest_to_host_nearest
    (ctx : sl_context) (surface : option sl_host_surface) (k x y : Z)
    (Hscale : pow2_scale ctx k) (Hno : no_override surface)
    (Hk : 0 <= k <= 30) (Hx : int32 x) (Hy : int32 y) :
  exists x' y',
    sl_transform_guest_to_host_fixed ctx surface x y = Some (x', y') /\
    2 * Z.abs (x' * 2 ^ k - x) <= 2 ^ k /\
    2 * Z.abs (y' * 2 ^ k - y) <= 2 ^ k /\
    (forall q, 2 * Z.abs (q * 2 ^ k - x) < 2 ^ k -> x' = q) /\
    (forall q, 2 * Z.abs (q * 2 ^ k - y) < 2 ^ k -> y' = q) /\
    int32 x' /\ int32 y'.
Proof.
  assert (Hpow : 0 < 2 ^ k) by (apply Z.pow_pos_nonneg; lia).
  exists (rdiv x (2 ^ k)), (rdiv y (2 ^ k)).
  pose proof (rdiv_half x (2 ^ k) Hpow) as Hhx.
  pose proof (rdiv_half y (2 ^ k) Hpow) as Hhy.
  pose proof (rdiv_range x (2 ^ k) Hpow).
  pose proof (rdiv_range y (2 ^ k) Hpow).
  split; [apply pow2_guest_to_host_fixed; assumption|].
  split; [exact Hhx|]. split; [exact Hhy|].
  split; [intros q Hq; nia|]. split; [intros q Hq; nia|].
  unfold int32, INT32_MIN, INT32_MAX in *. lia.
Qed.

Lemma fixed_guest_to_host_nearest_witness :
  exists x' y',
    sl_transform_guest_to_host_fixed ctx_direct_x4 None 13 (-7)
      = Some (x', y') /\
    2 * Z.abs (x' * 2 ^ 2 - 13) <= 2 ^ 2 /\
    2 * Z.abs (y' * 2 ^ 2 - -7) <= 2 ^ 2 /\
    (forall q, 2 * Z.abs (q * 2 ^ 2 - 13) < 2 ^ 2 -> x' = q) /\
    (forall q, 2 * Z.abs (q * 2 ^ 2 - -7) < 2 ^ 2 -> y' = q) /\
    int32 x' /\ int32 y'.
Proof.
  apply (fixed_guest_to_host_nearest ctx_direct_x4 None 2 13 (-7)
           (conj eq_refl eq_refl) eq_refl);
    unfold int32, INT32_MIN, INT32_MAX; lia.
Defined.

(** X17: at a scale of [2^k] the fixed-point host-to-guest transform
    multiplies both coordinates by [2^k] exactly whenever the products fit
    32 bits, and transforming the result back to the host returns the
    original coordinates; the single-axis variants do the same. *)
Theorem fixed_round_trip_pow2
    (ctx : sl_context) (surface : option sl_host_surface) (k x y axis : Z)
    (Hscale : pow2_scale ctx k) (Hno : no_override surface)
    (Hk : 0 <= k <= 30) (Hx : int32 x) (Hy : int32 y)
    (Hxk : int32 (x * 2 ^ k)) (Hyk : int32 (y * 2 ^ k)) :
  sl_transform_host_to_guest_fixed ctx surface x y
    = Some (x * 2 ^ k, y * 2 ^ k) /\
  sl_transform_guest_to_host_fixed ctx surface (x * 2 ^ k) (y * 2 ^ k)
    = Some (x, y) /\
  sl_transform_host_to_guest_fixed_axis ctx surface x axis
    = Some (x * 2 ^ k) /\
  sl_transform_guest_to_host_fixed_axis ctx surface (x * 2 ^ k) axis
    = Some x.
Proof.
  assert (Hpow : 0 < 2 ^ k) by (apply Z.pow_pos_nonneg; lia).
  split; [apply pow2_host_to_guest_fixed; assumption|].
  split.
  - rewrite (pow2_guest_to_host_fixed ctx surface k) by assumption.
    rewrite !rdiv_mul by assumption. reflexivity.
  - split; [apply pow2_host_to_guest_fixed_axis; assumption|].
    rewrite (pow2_guest_to_host_fixed_axis ctx surface k) by assumption.
    rewrite rdiv_mul by assumption. reflexivity.
Qed.

Lemma fixed_round_trip_pow2_witness :
  sl_transform_host_to_guest_fixed ctx_legacy_x2 None 640 (-384)
    = Some (640 * 2 ^ 1, -384 * 2 ^ 1) /\
  sl_transform_guest_to_host_fixed ctx_legacy_x2 None (640 * 2 ^ 1) (-384 * 2 ^ 1)
    = Some (640, -384) /\
  sl_transform_host_to_guest_fixed_axis ctx_legacy_x2 None 640 0
    = Some (640 * 2 ^ 1) /\
  sl_transform_guest_to_host_fixed_axis ctx_legacy_x2 None (640 * 2 ^ 1) 0
    = Some 640.
Proof.
  apply (fixed_round_trip_pow2 ctx_legacy_x2 None 1 640 (-384) 0
           eq_refl eq_refl);
    unfold int32, INT32_MIN, INT32_MAX; lia.
Defined.
